(** * Theramin: pitch map, volume map, input tracker and voice pool

    A shallow embedding of the audio core of the theramin repository:

    - [utils/audio.ts]: [getFrequency], [mapXToFreq], [startOscillator],
      [stopOscillator];
    - [lib/getFrequency.ts]: the standalone [getFrequency] helper;
    - [components/layouts/interactive-continuum.tsx]: [runDetection],
      [getFrequencyFromX], [getVolumeFromY], [startAudioNode],
      [stopAudioNode], [updateAudioNode], the pointer handlers, the two
      per-hand reconcile effects, the cleanup effect and [drawHands];
    - [hooks/useAnimationFrame]: the animation loop that drives
      [runDetection];
    - [KeyboardContinuum]: the pointer-only keyboard, with its own
      [getFrequency], [getFrequencyFromX], [startTone], [stopTone],
      [handleMouseMove] and cleanup.

    Number model.  A JavaScript [number] is taken as a real number: the
    arithmetic of the source is read over [R], without the rounding of
    intermediate IEEE-754 results and without overflow.  The decimal
    rounding the source performs itself ([Number.prototype.toFixed]
    followed by [parseFloat]) is modelled exactly, following the
    ECMAScript definition of [toFixed].  [mapXToFreq], whose divisor is
    [0] for a width of [0], is read over numbers that need not be finite
    ([NaN] and the infinities).

    What the rounding of the doubles could change is kept out of the
    statements: frequencies are compared up to a relative tolerance, keys
    far outside the piano are left out, and where the source derives a key
    index and a position inside the key by two separate computations the
    statements speak of positions away from the key edges. *)

From Stdlib Require Import Reals Lra Lia ZArith List Bool Arith String.
Import ListNotations.

Set Implicit Arguments.

Local Open Scope R_scope.

(** ** The JavaScript primitives the sources use *)

Module JS.

Definition Math_floor (x : R) : R := IZR (Zfloor x).

Definition Math_min (a b : R) : R := Rmin a b.

Definition Math_max (a b : R) : R := Rmax a b.

(** [Math.pow] on a positive base; every call of the sources that the
    theorems below depend on has base [2] or a ratio of two positive
    frequencies. *)
Definition Math_pow (base exponent : R) : R := Rpower base exponent.

(** Truncation toward zero, used by the remainder operator. *)
Definition trunc (q : R) : R :=
  if Rle_dec 0 q then IZR (Zfloor q) else IZR (Zceil q).

(** The [%] operator: the result takes the sign of the dividend. *)
Definition rem (a b : R) : R := a - b * trunc (a / b).

(** The string [toFixed] produces: a sign and the decimal expansion of
    [n / 10^f], or, for a magnitude of [10^21] and more, the plain
    [ToString] rendering of the number, which [parseFloat] reads back
    unchanged. *)
Inductive NumStr : Type :=
| Fixed (negative : bool) (n : Z) (f : nat)
| Plain (x : R).

(** ECMAScript [Number.prototype.toFixed(f)]: the sign is split off, and
    [n] is the integer for which [n / 10^f - x] is closest to zero, the
    larger one on a tie. *)
Definition toFixed (x : R) (f : nat) : NumStr :=
  let negative := if Rlt_dec x 0 then true else false in
  let x := if negative then - x else x in
  if Rle_dec (10 ^ 21) x then Plain (if negative then - x else x)
  else Fixed negative (Zfloor (x * 10 ^ f + / 2)) f.

Definition parseFloat (s : NumStr) : R :=
  match s with
  | Plain x => x
  | Fixed negative n f =>
      if negative then - (IZR n / 10 ^ f) else IZR n / 10 ^ f
  end.

(** A number that need not be finite: the result of [0 / 0] is [NaN], of
    a nonzero number over [0] an infinity.  The two zeros are not told
    apart, and a finite value never overflows. *)
Inductive Number : Type :=
| NaN
| Infinity (negative : bool)
| Finite (r : R).

End JS.

Import JS.

(** ** Arithmetic on numbers that need not be finite

    The operators and [Math] functions of the sources on [Number], with
    the results ECMAScript gives them on [NaN] and the infinities. *)

Module Num.

Definition isNegative (r : R) : bool := if Rlt_dec r 0 then true else false.

Definition isInteger (r : R) : bool :=
  if Req_dec_T (IZR (Zfloor r)) r then true else false.

Definition isOddInteger (r : R) : bool := isInteger r && Z.odd (Zfloor r).

Definition neg (a : Number) : Number :=
  match a with
  | NaN => NaN
  | Infinity s => Infinity (negb s)
  | Finite x => Finite (- x)
  end.

Definition add (a b : Number) : Number :=
  match a, b with
  | NaN, _ => NaN
  | _, NaN => NaN
  | Infinity s, Infinity s' => if Bool.eqb s s' then Infinity s else NaN
  | Infinity s, Finite _ => Infinity s
  | Finite _, Infinity s => Infinity s
  | Finite x, Finite y => Finite (x + y)
  end.

Definition sub (a b : Number) : Number := add a (neg b).

Definition mul (a b : Number) : Number :=
  match a, b with
  | NaN, _ => NaN
  | _, NaN => NaN
  | Infinity s, Infinity s' => Infinity (xorb s s')
  | Infinity s, Finite y =>
      if Req_dec_T y 0 then NaN else Infinity (xorb s (isNegative y))
  | Finite x, Infinity s =>
      if Req_dec_T x 0 then NaN else Infinity (xorb s (isNegative x))
  | Finite x, Finite y => Finite (x * y)
  end.

Definition div (a b : Number) : Number :=
  match a, b with
  | NaN, _ => NaN
  | _, NaN => NaN
  | Infinity _, Infinity _ => NaN
  | Infinity s, Finite y => Infinity (xorb s (isNegative y))
  | Finite _, Infinity _ => Finite 0
  | Finite x, Finite y =>
      if Req_dec_T y 0 then
        if Req_dec_T x 0 then NaN else Infinity (isNegative x)
      else Finite (x / y)
  end.

(** [Math.floor]. *)
Definition floor (a : Number) : Number :=
  match a with
  | Finite x => Finite (Math_floor x)
  | _ => a
  end.

(** [Math.min]. *)
Definition min (a b : Number) : Number :=
  match a, b with
  | NaN, _ => NaN
  | _, NaN => NaN
  | Infinity true, _ => Infinity true
  | _, Infinity true => Infinity true
  | Infinity false, _ => b
  | _, Infinity false => a
  | Finite x, Finite y => Finite (Math_min x y)
  end.

(** [Math.pow], by the cases of ECMAScript's [Number::exponentiate]. *)
Definition pow (base exponent : Number) : Number :=
  match exponent with
  | NaN => NaN
  | Finite e =>
      if Req_dec_T e 0 then Finite 1
      else
        match base with
        | NaN => NaN
        | Infinity false => if Rlt_dec 0 e then Infinity false else Finite 0
        | Infinity true =>
            if Rlt_dec 0 e then Infinity (isOddInteger e) else Finite 0
        | Finite b =>
            if Req_dec_T b 0 then
              if Rlt_dec 0 e then Finite 0 else Infinity false
            else if Rlt_dec 0 b then Finite (Math_pow b e)
            else if isInteger e then
              Finite ((if Z.odd (Zfloor e) then -1 else 1) * Math_pow (- b) e)
            else NaN
        end
  | Infinity s =>
      match base with
      | NaN => NaN
      | Infinity _ => if s then Finite 0 else Infinity false
      | Finite b =>
          if Rlt_dec 1 (Rabs b) then
            if s then Finite 0 else Infinity false
          else if Req_dec_T (Rabs b) 1 then NaN
          else if s then Infinity false else Finite 0
      end
  end.

(** The string [toFixed] produces for a number that need not be finite:
    the name of a non-finite value. *)
Inductive NumberStr : Type :=
| StrNaN
| StrInfinity (negative : bool)
| StrFinite (s : NumStr).

Definition toFixed (a : Number) (f : nat) : NumberStr :=
  match a with
  | NaN => StrNaN
  | Infinity s => StrInfinity s
  | Finite x => StrFinite (JS.toFixed x f)
  end.

Definition parseFloat (s : NumberStr) : Number :=
  match s with
  | StrNaN => NaN
  | StrInfinity s => Infinity s
  | StrFinite s => Finite (JS.parseFloat s)
  end.

End Num.

(** ** The Web Audio interface the sources drive

    An [AudioContext] owns the nodes created from it.  A node is named by
    its index in the context's store, which is what a React ref cell holds.
    Every call is also appended to [calls], stamped with the context clock
    at the moment of the call, so that the order of the calls a function
    makes can be read back. *)

Module WebAudio.

Inductive AudioContextState : Type := suspended | running | closed.

Inductive OscillatorType : Type := sine | square | sawtooth | triangle.

Inductive Automation : Type :=
| setValueAtTime (value time : R)
| linearRampToValueAtTime (value time : R)
| exponentialRampToValueAtTime (value time : R).

Definition automationValue (a : Automation) : R :=
  match a with
  | setValueAtTime v _ => v
  | linearRampToValueAtTime v _ => v
  | exponentialRampToValueAtTime v _ => v
  end.

Definition automationTime (a : Automation) : R :=
  match a with
  | setValueAtTime _ t => t
  | linearRampToValueAtTime _ t => t
  | exponentialRampToValueAtTime _ t => t
  end.

(** An [AudioParam] is its timeline of automation events, in call order. *)
Definition AudioParam : Type := list Automation.

(** [cancelScheduledValues(t)] drops the events scheduled at [t] or later. *)
Definition cancelScheduledValues (t : R) (p : AudioParam) : AudioParam :=
  filter (fun a => if Rlt_dec (automationTime a) t then true else false) p.

(** The value the parameter is heading to: that of its latest event. *)
Definition target (p : AudioParam) : option R :=
  match rev p with
  | [] => None
  | a :: _ => Some (automationValue a)
  end.

Record OscillatorNode : Type := {
  osc_type : OscillatorType;
  frequency : AudioParam;
  started : bool;
  stopAt : option R;
  osc_output : option nat   (* the gain node it is connected to *)
}.

Record GainNode : Type := {
  gain : AudioParam;
  toDestination : bool      (* connected to [ctx.destination] *)
}.

Inductive Call : Type :=
| CreateOscillator (osc : nat)
| CreateGain (g : nat)
| SetType (osc : nat) (t : OscillatorType)
| FrequencyCall (osc : nat) (a : Automation)
| GainCall (g : nat) (a : Automation)
| GainCancelScheduledValues (g : nat) (time : R)
| ConnectOscillator (osc g : nat)
| ConnectDestination (g : nat)
| Start (osc : nat)
| Stop (osc : nat) (time : R)
| DisconnectOscillator (osc : nat)
| DisconnectGain (g : nat).

Record AudioContext : Type := {
  state : AudioContextState;
  currentTime : R;
  oscillators : list OscillatorNode;
  gains : list GainNode;
  calls : list (R * Call)
}.

Definition newAudioContext (st : AudioContextState) : AudioContext :=
  {| state := st; currentTime := 0; oscillators := []; gains := [];
     calls := [] |}.

Fixpoint alter {A : Type} (f : A -> A) (i : nat) (l : list A) : list A :=
  match l, i with
  | [], _ => []
  | a :: l', O => f a :: l'
  | a :: l', S i' => a :: alter f i' l'
  end.

Definition withState (st : AudioContextState) (c : AudioContext) :=
  {| state := st; currentTime := currentTime c;
     oscillators := oscillators c; gains := gains c; calls := calls c |}.

Definition withTime (t : R) (c : AudioContext) :=
  {| state := state c; currentTime := t;
     oscillators := oscillators c; gains := gains c; calls := calls c |}.

(** One call on the context: the stores after it, and its log entry. *)
Definition perform (call : Call) (os : list OscillatorNode)
           (gs : list GainNode) (c : AudioContext) : AudioContext :=
  {| state := state c; currentTime := currentTime c;
     oscillators := os; gains := gs;
     calls := calls c ++ [(currentTime c, call)] |}.

Definition onOscillator (call : Call) (osc : nat)
           (f : OscillatorNode -> OscillatorNode) (c : AudioContext) :=
  perform call (alter f osc (oscillators c)) (gains c) c.

Definition onGain (call : Call) (g : nat) (f : GainNode -> GainNode)
           (c : AudioContext) :=
  perform call (oscillators c) (alter f g (gains c)) c.

Definition createOscillator (c : AudioContext) : nat * AudioContext :=
  let osc := List.length (oscillators c) in
  (osc,
   perform (CreateOscillator osc)
     (oscillators c ++
        [{| osc_type := sine; frequency := []; started := false;
            stopAt := None; osc_output := None |}])
     (gains c) c).

Definition createGain (c : AudioContext) : nat * AudioContext :=
  let g := List.length (gains c) in
  (g,
   perform (CreateGain g) (oscillators c)
     (gains c ++ [{| gain := []; toDestination := false |}]) c).

Definition setType (osc : nat) (t : OscillatorType) :=
  onOscillator (SetType osc t) osc
    (fun o => {| osc_type := t; frequency := frequency o;
                 started := started o; stopAt := stopAt o;
                 osc_output := osc_output o |}).

Definition scheduleFrequency (osc : nat) (a : Automation) :=
  onOscillator (FrequencyCall osc a) osc
    (fun o => {| osc_type := osc_type o; frequency := frequency o ++ [a];
                 started := started o; stopAt := stopAt o;
                 osc_output := osc_output o |}).

Definition scheduleGain (g : nat) (a : Automation) :=
  onGain (GainCall g a) g
    (fun n => {| gain := gain n ++ [a]; toDestination := toDestination n |}).

Definition gainCancelScheduledValues (g : nat) (t : R) :=
  onGain (GainCancelScheduledValues g t) g
    (fun n => {| gain := cancelScheduledValues t (gain n);
                 toDestination := toDestination n |}).

Definition connectOscillator (osc g : nat) :=
  onOscillator (ConnectOscillator osc g) osc
    (fun o => {| osc_type := osc_type o; frequency := frequency o;
                 started := started o; stopAt := stopAt o;
                 osc_output := Some g |}).

Definition connectDestination (g : nat) :=
  onGain (ConnectDestination g) g
    (fun n => {| gain := gain n; toDestination := true |}).

Definition start (osc : nat) :=
  onOscillator (Start osc) osc
    (fun o => {| osc_type := osc_type o; frequency := frequency o;
                 started := true; stopAt := stopAt o;
                 osc_output := osc_output o |}).

Definition stop (osc : nat) (t : R) :=
  onOscillator (Stop osc t) osc
    (fun o => {| osc_type := osc_type o; frequency := frequency o;
                 started := started o; stopAt := Some t;
                 osc_output := osc_output o |}).

Definition disconnectOscillator (osc : nat) :=
  onOscillator (DisconnectOscillator osc) osc
    (fun o => {| osc_type := osc_type o; frequency := frequency o;
                 started := started o; stopAt := stopAt o;
                 osc_output := None |}).

Definition disconnectGain (g : nat) :=
  onGain (DisconnectGain g) g
    (fun n => {| gain := gain n; toDestination := false |}).

(** An oscillator is live when it has been started and its output
    reaches the destination. *)
Definition live (c : AudioContext) (osc : nat) : bool :=
  match nth_error (oscillators c) osc with
  | Some o =>
      started o &&
      match osc_output o with
      | Some g =>
          match nth_error (gains c) g with
          | Some n => toDestination n
          | None => false
          end
      | None => false
      end
  | None => false
  end.

Definition liveOscillators (c : AudioContext) : list nat :=
  filter (live c) (seq 0 (List.length (oscillators c))).

End WebAudio.

Import WebAudio.

(** ** utils/audio.ts *)

Module Audio.

Definition START_NOTE : R := 25.
Definition END_NOTE : R := 72.

Definition getFrequency (keyNumber : R) : R :=
  let frequency := 440 * Math_pow 2 ((keyNumber - 49) / 12) in
  parseFloat (toFixed frequency 6).

(** [getFrequency] on a key number that need not be finite; on a finite
    key it is [getFrequency]. *)
Definition getFrequencyN (keyNumber : Number) : Number :=
  let frequency :=
    Num.mul (Finite 440)
      (Num.pow (Finite 2)
         (Num.div (Num.sub keyNumber (Finite 49)) (Finite 12))) in
  Num.parseFloat (Num.toFixed frequency 6).

(** [x] and [width] are finite; the quotient by [keyWidth], which is [0]
    for a width of [0], need not be. *)
Definition mapXToFreq (x width : R) : Number :=
  let numKeys := END_NOTE - START_NOTE + 1 in
  let keyWidth := width / numKeys in
  let relativeX := x in
  let relativeX := if Rlt_dec relativeX 0 then 0 else relativeX in
  let relativeX := if Rgt_dec relativeX width then width else relativeX in
  let keyIndex :=
    Num.floor
      (Num.min (Num.floor (Num.div (Finite relativeX) (Finite keyWidth)))
         (Finite (numKeys - 1))) in
  let note := Num.add (Finite START_NOTE) keyIndex in
  let xInKey :=
    Num.div
      (Num.sub (Finite relativeX) (Num.mul keyIndex (Finite keyWidth)))
      (Finite keyWidth) in
  let baseFreq := getFrequencyN note in
  let nextFreq := getFrequencyN (Num.add note (Finite 1)) in
  let freq := Num.mul baseFreq (Num.pow (Num.div nextFreq baseFreq) xInKey) in
  freq.

(** The caller's side of [startOscillator] and [stopOscillator]: the
    context, the two ref cells the functions are handed, and the delays
    (in milliseconds) of the [setTimeout] callbacks still pending. *)
Record App : Type := {
  ctx : AudioContext;
  oscRef : option nat;
  gainRef : option nat;
  timeouts : list R
}.

Definition startOscillator (initialFreq : R) (a : App) : App :=
  match oscRef a with
  | Some osc =>
      (* update frequency if already exists *)
      {| ctx := scheduleFrequency osc
                  (setValueAtTime initialFreq (currentTime (ctx a))) (ctx a);
         oscRef := oscRef a; gainRef := gainRef a;
         timeouts := timeouts a |}
  | None =>
      let '(osc, c) := createOscillator (ctx a) in
      let '(gainNode, c) := createGain c in
      let c := setType osc sine c in
      let c := scheduleGain gainNode (setValueAtTime 0 (currentTime c)) c in
      let c := scheduleGain gainNode
                 (linearRampToValueAtTime 0.15 (currentTime c + 0.08)) c in
      let c := connectOscillator osc gainNode c in
      let c := connectDestination gainNode c in
      let c := scheduleFrequency osc
                 (setValueAtTime initialFreq (currentTime c)) c in
      let c := start osc c in
      {| ctx := c; oscRef := Some osc; gainRef := Some gainNode;
         timeouts := timeouts a |}
  end.

Definition stopOscillator (a : App) : App :=
  match oscRef a, gainRef a with
  | Some osc, Some gainNode =>
      let now := currentTime (ctx a) in
      let c := gainCancelScheduledValues gainNode now (ctx a) in
      let c := scheduleGain gainNode
                 (linearRampToValueAtTime 0 (now + 0.12)) c in
      let c := stop osc (now + 0.14) c in
      (* disconnect after a small timeout to allow ramp to finish *)
      {| ctx := c; oscRef := oscRef a; gainRef := gainRef a;
         timeouts := timeouts a ++ [200] |}
  | _, _ => a
  end.

(** The body of the callback [stopOscillator] hands to [setTimeout]. *)
Definition disconnectCallback (a : App) : App :=
  let c := ctx a in
  let c := match oscRef a with
           | Some osc => disconnectOscillator osc c
           | None => c
           end in
  let c := match gainRef a with
           | Some gainNode => disconnectGain gainNode c
           | None => c
           end in
  {| ctx := c; oscRef := None; gainRef := None; timeouts := timeouts a |}.

(** A pending timeout fires: it leaves the queue and its callback runs. *)
Definition fireTimeout (a : App) : App :=
  match timeouts a with
  | [] => a
  | _ :: rest =>
      disconnectCallback
        {| ctx := ctx a; oscRef := oscRef a; gainRef := gainRef a;
           timeouts := rest |}
  end.

End Audio.

(** ** lib/getFrequency.ts *)

Module Lib.

Definition getFrequency (keyNumber : R) : R :=
  let frequency := 440 * Math_pow 2 ((keyNumber - 49) / 12) in
  parseFloat (toFixed frequency 3).

End Lib.

(** ** components/layouts/interactive-continuum.tsx *)

Module Continuum.

Record HandPoint : Type := { hp_x : R; hp_y : R }.

Record Keypoint : Type := { x : R; y : R }.

(** One entry of [estimateHands]' result. *)
Record Hand : Type := {
  keypoints : option (list Keypoint);
  handedness : string
}.

Definition transpose : R := 36.
Definition START_NOTE : R := 1 + transpose.
Definition END_NOTE : R := 36 + transpose.

(** *** runDetection: the per-frame hand data *)

Record Detection : Type := {
  newLeftHands : list HandPoint;
  newRightHands : list HandPoint;
  allKeypoints : list (list Keypoint)
}.

(** The body of [for (const hand of hands)]. *)
Definition processHand (d : Detection) (hand : Hand) : Detection :=
  match keypoints hand with
  | Some kps =>
      if (12 <? List.length kps)%nat then
        match nth_error kps 12 with
        | Some middleFingerTip =>
            let all := allKeypoints d ++ [kps] in
            let tip := {| hp_x := x middleFingerTip;
                          hp_y := y middleFingerTip |} in
            (* Mirrored camera: model's "Right" is user's "Left" *)
            if String.eqb (handedness hand) "Right" then
              {| newLeftHands := newLeftHands d ++ [tip];
                 newRightHands := newRightHands d;
                 allKeypoints := all |}
            else if String.eqb (handedness hand) "Left" then
              {| newLeftHands := newLeftHands d;
                 newRightHands := newRightHands d ++ [tip];
                 allKeypoints := all |}
            else
              {| newLeftHands := newLeftHands d;
                 newRightHands := newRightHands d;
                 allKeypoints := all |}
        | None => d
        end
      else d
  | None => d
  end.

Definition processHands (hands : list Hand) : Detection :=
  fold_left processHand hands
    {| newLeftHands := []; newRightHands := []; allKeypoints := [] |}.

(** [Array.prototype.slice(0, n)]. *)
Definition slice0 {A : Type} (n : nat) (l : list A) : list A := firstn n l.

(** What [runDetection] hands to [setLeftHands] and [setRightHands]. *)
Definition trackedLeft (hands : list Hand) : list HandPoint :=
  slice0 3 (newLeftHands (processHands hands)).

Definition trackedRight (hands : list Hand) : list HandPoint :=
  slice0 3 (newRightHands (processHands hands)).

(** *** The component state *)

Inductive Index : Type := I0 | I1 | I2.

Definition indexNat (i : Index) : nat :=
  match i with I0 => 0%nat | I1 => 1%nat | I2 => 2%nat end.

(** The seven pairs of ref cells: [mouseOscillatorRef]/[mouseGainRef],
    [rightHandOscillatorRefs[i]]/[rightHandGainRefs[i]] and
    [leftHandOscillatorRefs[i]]/[leftHandGainRefs[i]]. *)
Inductive Slot : Type :=
| Mouse
| RightHand (i : Index)
| LeftHand (i : Index).

Definition allSlots : list Slot :=
  [Mouse; RightHand I0; RightHand I1; RightHand I2;
   LeftHand I0; LeftHand I1; LeftHand I2].

Definition Slot_eq_dec (a b : Slot) : {a = b} + {a <> b}.
Proof. repeat decide equality. Defined.

Record Canvas : Type := { clientWidth : R; clientHeight : R }.

Record DOMRect : Type := {
  left : R; top : R; width : R; height : R
}.

Record State : Type := {
  mounted : bool;
  isModelLoading : bool;
  isReady : bool;
  leftHands : list HandPoint;
  rightHands : list HandPoint;
  canvasRef : option Canvas;
  keyboardRef : option DOMRect;
  audioContextRef : option AudioContext;
  resumePending : bool;
  oscRefs : Slot -> option nat;
  gainRefs : Slot -> option nat
}.

Definition init (canvas : option Canvas) (keyboard : option DOMRect) : State :=
  {| mounted := true; isModelLoading := true; isReady := false;
     leftHands := []; rightHands := [];
     canvasRef := canvas; keyboardRef := keyboard;
     audioContextRef := None; resumePending := false;
     oscRefs := fun _ => None; gainRefs := fun _ => None |}.

Definition assign (r : Slot -> option nat) (k : Slot) (v : option nat)
  : Slot -> option nat :=
  fun k' => if Slot_eq_dec k k' then v else r k'.

Definition withAudio (c : option AudioContext) (pending : bool)
           (o g : Slot -> option nat) (s : State) : State :=
  {| mounted := mounted s; isModelLoading := isModelLoading s;
     isReady := isReady s;
     leftHands := leftHands s; rightHands := rightHands s;
     canvasRef := canvasRef s; keyboardRef := keyboardRef s;
     audioContextRef := c; resumePending := pending;
     oscRefs := o; gainRefs := g |}.

Definition withFlags (m loading ready : bool) (s : State) : State :=
  {| mounted := m; isModelLoading := loading; isReady := ready;
     leftHands := leftHands s; rightHands := rightHands s;
     canvasRef := canvasRef s; keyboardRef := keyboardRef s;
     audioContextRef := audioContextRef s;
     resumePending := resumePending s;
     oscRefs := oscRefs s; gainRefs := gainRefs s |}.

Definition withHands (l r : list HandPoint) (s : State) : State :=
  {| mounted := mounted s; isModelLoading := isModelLoading s;
     isReady := isReady s;
     leftHands := l; rightHands := r;
     canvasRef := canvasRef s; keyboardRef := keyboardRef s;
     audioContextRef := audioContextRef s;
     resumePending := resumePending s;
     oscRefs := oscRefs s; gainRefs := gainRefs s |}.

(** *** The pitch and volume maps *)

Definition getFrequencyFromX (s : State) (x : R) : R :=
  match keyboardRef s, canvasRef s with
  | Some keyboardRect, Some canvas =>
      let canvasWidth := clientWidth canvas in
      (* Flip X because the canvas is mirrored (scaleX(-1)) *)
      let relativeX := (canvasWidth - x) / canvasWidth in
      let clientX := left keyboardRect + relativeX * width keyboardRect in
      let totalWidth := width keyboardRect in
      let numKeys := END_NOTE - START_NOTE + 1 in
      let keyWidth := totalWidth / numKeys in
      let keyIndex := Math_floor (relativeX * numKeys) in
      let note := START_NOTE + keyIndex in
      let xInKey := rem clientX keyWidth / keyWidth in
      let baseFreq := Lib.getFrequency note in
      let nextFreq := Lib.getFrequency (note + 1) in
      let freq := baseFreq * Math_pow (nextFreq / baseFreq) xInKey in
      freq
  | _, _ => Lib.getFrequency START_NOTE
  end.

Definition getVolumeFromY (s : State) (clientY : R) : R :=
  match keyboardRef s, canvasRef s with
  | Some _, Some canvas =>
      let canvasHeight := clientHeight canvas in
      let relativeY := clientY / canvasHeight in
      let clamped := Math_min (Math_max relativeY 0) 1 in
      (1 - clamped) * 0.25
  | _, _ => 0.15
  end.

(** *** The voice operations *)

Definition startAudioNode (oscRef gainRef : Slot) (freq volume : R)
           (s : State) : State :=
  match audioContextRef s, oscRefs s oscRef with
  | Some audioCtx, None =>
      let '(oscillator, c) := createOscillator audioCtx in
      let '(gainNode, c) := createGain c in
      let c := setType oscillator sine c in
      let c := scheduleFrequency oscillator
                 (setValueAtTime freq (currentTime c)) c in
      let c := scheduleGain gainNode (setValueAtTime 0 (currentTime c)) c in
      let c := scheduleGain gainNode
                 (linearRampToValueAtTime volume (currentTime c + 0.1)) c in
      let c := connectOscillator oscillator gainNode c in
      let c := connectDestination gainNode c in
      let c := start oscillator c in
      withAudio (Some c) (resumePending s)
        (assign (oscRefs s) oscRef (Some oscillator))
        (assign (gainRefs s) gainRef (Some gainNode)) s
  | _, _ => s
  end.

Definition stopAudioNode (oscRef gainRef : Slot) (s : State) : State :=
  match oscRefs s oscRef, gainRefs s gainRef, audioContextRef s with
  | Some oscillator, Some gainNode, Some audioCtx =>
      let now := currentTime audioCtx in
      let c := gainCancelScheduledValues gainNode now audioCtx in
      let c := scheduleGain gainNode
                 (linearRampToValueAtTime 0 (now + 0.15)) c in
      let c := stop oscillator (now + 0.2) c in
      let c := disconnectOscillator oscillator c in
      let c := disconnectGain gainNode c in
      withAudio (Some c) (resumePending s)
        (assign (oscRefs s) oscRef None)
        (assign (gainRefs s) gainRef None) s
  | _, _, _ => s
  end.

Definition updateAudioNode (oscRef gainRef : Slot) (freq volume : R)
           (s : State) : State :=
  match oscRefs s oscRef, gainRefs s gainRef, audioContextRef s with
  | Some oscillator, Some gainNode, Some audioCtx =>
      let c := scheduleFrequency oscillator
                 (exponentialRampToValueAtTime freq
                    (currentTime audioCtx + 0.02)) audioCtx in
      let c := scheduleGain gainNode
                 (linearRampToValueAtTime volume
                    (currentTime audioCtx + 0.01)) c in
      withAudio (Some c) (resumePending s) (oscRefs s) (gainRefs s) s
  | _, _, _ => s
  end.

(** *** The reconcile effects *)

(** The body of [for (let i = 0; i < 3; i++)] in both effects. *)
Definition reconcileSlot (handData : option HandPoint)
           (oscRef gainRef : Slot) (s : State) : State :=
  match handData with
  | Some p =>
      let freq := getFrequencyFromX s (hp_x p) in
      let volume := getVolumeFromY s (hp_y p) in
      match oscRefs s oscRef with
      | None => startAudioNode oscRef gainRef freq volume s
      | Some _ => updateAudioNode oscRef gainRef freq volume s
      end
  | None => stopAudioNode oscRef gainRef s
  end.

Definition reconcileHands (hands : list HandPoint) (side : Index -> Slot)
           (s : State) : State :=
  fold_left
    (fun s i =>
       reconcileSlot (nth_error hands (indexNat i)) (side i) (side i) s)
    [I0; I1; I2] s.

Definition rightHandEffect (s : State) : State :=
  match isReady s, canvasRef s with
  | true, Some _ => reconcileHands (rightHands s) RightHand s
  | _, _ => s
  end.

Definition leftHandEffect (s : State) : State :=
  match isReady s, canvasRef s with
  | true, Some _ => reconcileHands (leftHands s) LeftHand s
  | _, _ => s
  end.

(** Both effects, in the order the component declares them. *)
Definition reconcile (s : State) : State :=
  leftHandEffect (rightHandEffect s).

(** [setIsReady(true)]: a change of [isReady] re-runs both effects. *)
Definition setIsReady (s : State) : State :=
  if isReady s then s
  else reconcile (withFlags (mounted s) (isModelLoading s) true s).

(** *** The handlers *)

(** [initAudioContext] up to its [await]; [autoplay] tells whether the
    browser hands out a new context already running. *)
Definition initAudioContext (autoplay : bool) (s : State) : State :=
  let c := match audioContextRef s with
           | Some c => c
           | None => newAudioContext (if autoplay then running else suspended)
           end in
  let s := withAudio (Some c) (resumePending s) (oscRefs s) (gainRefs s) s in
  match state c with
  | suspended =>
      withAudio (Some c) true (oscRefs s) (gainRefs s) s
  | _ => setIsReady s
  end.

(** The rest of [initAudioContext], once [resume()] has resolved. *)
Definition resumed (s : State) : State :=
  if resumePending s then
    match audioContextRef s with
    | Some c =>
        setIsReady
          (withAudio (Some (withState running c)) false
             (oscRefs s) (gainRefs s) s)
    | None => s
    end
  else s.

Definition handleMouseEnter (clientX clientY : R) (s : State) : State :=
  if isReady s then
    let freq := getFrequencyFromX s clientX in
    let volume := getVolumeFromY s clientY in
    startAudioNode Mouse Mouse freq volume s
  else s.

Definition handleMouseLeave (s : State) : State :=
  stopAudioNode Mouse Mouse s.

Definition handleMouseMove (clientX clientY : R) (s : State) : State :=
  match isReady s, keyboardRef s with
  | true, Some rect =>
      let totalWidth := width rect in
      let numKeys := END_NOTE - START_NOTE + 1 in
      let keyWidth := totalWidth / numKeys in
      let relativeX := clientX - left rect in
      let keyIndex := Math_floor (relativeX / keyWidth) in
      let note := START_NOTE + keyIndex in
      let xInKey := rem relativeX keyWidth / keyWidth in
      let baseFreq := Lib.getFrequency note in
      let nextFreq := Lib.getFrequency (note + 1) in
      let freq := baseFreq * Math_pow (nextFreq / baseFreq) xInKey in
      let volume := getVolumeFromY s clientY in
      updateAudioNode Mouse Mouse freq volume s
  | _, _ => s
  end.

(** One completed [runDetection] tick; [useAnimationFrame] runs it only
    while [!isModelLoading && isReady].  The new hand lists re-run both
    effects. *)
Definition frame (hands : list Hand) (s : State) : State :=
  if negb (isModelLoading s) && isReady s then
    reconcile (withHands (trackedLeft hands) (trackedRight hands) s)
  else s.

(** The cleanup effect. *)
Definition cleanup (s : State) : State :=
  let s := stopAudioNode Mouse Mouse s in
  let s :=
    fold_left
      (fun s i =>
         stopAudioNode (LeftHand i) (LeftHand i)
           (stopAudioNode (RightHand i) (RightHand i) s))
      [I0; I1; I2] s in
  let s :=
    match audioContextRef s with
    | Some c =>
        match state c with
        | closed => s
        | _ => withAudio (Some (withState closed c)) (resumePending s)
                 (oscRefs s) (gainRefs s) s
        end
    | None => s
    end in
  withFlags false (isModelLoading s) (isReady s) s.

(** The audio clock, which advances only while the context runs. *)
Definition advance (dt : R) (s : State) : State :=
  match audioContextRef s with
  | Some c =>
      match state c with
      | running =>
          withAudio (Some (withTime (currentTime c + dt) c))
            (resumePending s) (oscRefs s) (gainRefs s) s
      | _ => s
      end
  | None => s
  end.

Inductive Event : Type :=
| Click (autoplay : bool)
| Resumed
| ModelLoaded
| MouseEnter (clientX clientY : R)
| MouseMove (clientX clientY : R)
| MouseLeave
| Frame (hands : list Hand)
| Advance (dt : R)
| Unmount.

(** Handlers and effects only run while the component is mounted. *)
Definition step (e : Event) (s : State) : State :=
  if mounted s then
    match e with
    | Click autoplay => initAudioContext autoplay s
    | Resumed => resumed s
    | ModelLoaded => withFlags (mounted s) false (isReady s) s
    | MouseEnter cx cy => handleMouseEnter cx cy s
    | MouseMove cx cy => handleMouseMove cx cy s
    | MouseLeave => handleMouseLeave s
    | Frame hands => frame hands s
    | Advance dt => advance dt s
    | Unmount => cleanup s
    end
  else s.

Inductive reachable (canvas : option Canvas) (keyboard : option DOMRect)
  : State -> Prop :=
| reachable_init : reachable canvas keyboard (init canvas keyboard)
| reachable_step (e : Event) (s : State) :
    reachable canvas keyboard s -> reachable canvas keyboard (step e s).


Definition contextRunning (s : State) : bool :=
  match audioContextRef s with
  | Some c => match state c with running => true | _ => false end
  | None => false
  end.

(** What a slot sounds like: nothing when its ref cells are empty,
    otherwise the values its oscillator frequency and its gain are
    heading to. *)
Definition voice (s : State) (k : Slot) : option (option R * option R) :=
  match oscRefs s k, gainRefs s k, audioContextRef s with
  | Some o, Some g, Some c =>
      match nth_error (oscillators c) o, nth_error (gains c) g with
      | Some on, Some gn => Some (target (frequency on), target (gain gn))
      | _, _ => None
      end
  | _, _, _ => None
  end.

Definition nodeCount (s : State) : nat * nat :=
  match audioContextRef s with
  | Some c => (List.length (oscillators c), List.length (gains c))
  | None => (0%nat, 0%nat)
  end.

End Continuum.

(** ** Reference definitions

    The quantities the specification speaks of, against which the
    functions above are compared. *)

(** The unrounded equal-temperament frequency. *)
Definition equalTemperament (n : R) : R := 440 * Rpower 2 ((n - 49) / 12).

(** [2^(1/12)], the ratio of a semitone. *)
Definition semitone : R := Rpower 2 (/ 12).

(** [toFixed(f)] followed by [parseFloat]. *)
Definition roundTo (f : nat) (x : R) : R := parseFloat (toFixed x f).

(** The clamp of [x] to [[0, width]]. *)
Definition clampX (x width : R) : R :=
  if Rlt_dec x 0 then 0 else if Rgt_dec x width then width else x.

(** Exponential interpolation at [u] key widths from the left edge of a
    keyboard of 48 keys starting at key 25. *)
Definition pitchAt (u : R) : R :=
  let k := IZR (Z.min (Zfloor u) 47) in
  Audio.getFrequency (25 + k)
  * Rpower (Audio.getFrequency (25 + k + 1) / Audio.getFrequency (25 + k))
      (u - k).

(** The fingertip a detected hand points with, when it has one. *)
Definition pointingTip (h : Continuum.Hand) : option Continuum.HandPoint :=
  match Continuum.keypoints h with
  | Some kps =>
      match nth_error kps 12 with
      | Some k =>
          Some {| Continuum.hp_x := Continuum.x k;
                  Continuum.hp_y := Continuum.y k |}
      | None => None
      end
  | None => None
  end.

(** The fingertips of the hands the detector labelled [label], in the
    order of the frame. *)
Definition labelled (label : string) (hands : list Continuum.Hand)
  : list Continuum.HandPoint :=
  flat_map
    (fun h =>
       if String.eqb (Continuum.handedness h) label then
         match pointingTip h with Some p => [p] | None => [] end
       else [])
    hands.

(** The context after [startAudioNode] has created a voice in it. *)
Definition startedContext (freq volume : R) (c : AudioContext) : AudioContext :=
  let t := currentTime c in
  let o := List.length (oscillators c) in
  let g := List.length (gains c) in
  {| state := state c; currentTime := t;
     oscillators := oscillators c ++
       [{| osc_type := sine; frequency := [setValueAtTime freq t];
           started := true; stopAt := None; osc_output := Some g |}];
     gains := gains c ++
       [{| gain := [setValueAtTime 0 t;
                    linearRampToValueAtTime volume (t + 0.1)];
           toDestination := true |}];
     calls := calls c ++
       [(t, CreateOscillator o); (t, CreateGain g); (t, SetType o sine);
        (t, FrequencyCall o (setValueAtTime freq t));
        (t, GainCall g (setValueAtTime 0 t));
        (t, GainCall g (linearRampToValueAtTime volume (t + 0.1)));
        (t, ConnectOscillator o g); (t, ConnectDestination g);
        (t, Start o)] |}.

(** The context after [stopAudioNode] has released oscillator [o] and gain
    node [g]. *)
Definition stoppedContext (o g : nat) (c : AudioContext) : AudioContext :=
  let now := currentTime c in
  {| state := state c; currentTime := now;
     oscillators :=
       alter (fun n => {| osc_type := osc_type n; frequency := frequency n;
                          started := started n; stopAt := Some (now + 0.2);
                          osc_output := None |}) o (oscillators c);
     gains :=
       alter (fun n => {| gain := cancelScheduledValues now (gain n)
                                  ++ [linearRampToValueAtTime 0 (now + 0.15)];
                          toDestination := false |}) g (gains c);
     calls := calls c ++
       [(now, GainCancelScheduledValues g now);
        (now, GainCall g (linearRampToValueAtTime 0 (now + 0.15)));
        (now, Stop o (now + 0.2));
        (now, DisconnectOscillator o);
        (now, DisconnectGain g)] |}.

(** The context after [updateAudioNode] has retargeted oscillator [o] and
    gain node [g]. *)
Definition updatedContext (o g : nat) (freq volume : R) (c : AudioContext)
  : AudioContext :=
  let t := currentTime c in
  {| state := state c; currentTime := t;
     oscillators :=
       alter (fun n => {| osc_type := osc_type n;
                          frequency := frequency n
                            ++ [exponentialRampToValueAtTime freq (t + 0.02)];
                          started := started n; stopAt := stopAt n;
                          osc_output := osc_output n |}) o (oscillators c);
     gains :=
       alter (fun n => {| gain := gain n
                            ++ [linearRampToValueAtTime volume (t + 0.01)];
                          toDestination := toDestination n |}) g (gains c);
     calls := calls c ++
       [(t, FrequencyCall o (exponentialRampToValueAtTime freq (t + 0.02)));
        (t, GainCall g (linearRampToValueAtTime volume (t + 0.01)))] |}.

(** The part of the component state no voice operation touches. *)
Definition shell (s : Continuum.State) :=
  (Continuum.mounted s, Continuum.isModelLoading s, Continuum.isReady s,
   Continuum.leftHands s, Continuum.rightHands s,
   Continuum.canvasRef s, Continuum.keyboardRef s,
   option_map state (Continuum.audioContextRef s),
   Continuum.resumePending s).

(** What the readiness gates maintain: no voice before [isReady], no hand
    data before [isReady], a running context once [isReady] holds, and no
    closed context while the component is mounted. *)
Record gated (s : Continuum.State) : Prop := {
  gated_refs :
    Continuum.isReady s = false ->
    forall k, Continuum.oscRefs s k = None;
  gated_hands :
    Continuum.isReady s = false ->
    Continuum.leftHands s = [] /\ Continuum.rightHands s = [];
  gated_running :
    Continuum.mounted s = true -> Continuum.isReady s = true ->
    Continuum.contextRunning s = true;
  gated_open :
    Continuum.mounted s = true ->
    forall c, Continuum.audioContextRef s = Some c -> state c <> closed
}.

(** How the ref cells and the node store hang together: a ref cell names
    a node of the store, the two cells of a slot are filled together, no
    node is named by two slots, an oscillator is only ever connected to a
    gain node of the store, and every live oscillator is named by a
    slot. *)
Record wired (s : Continuum.State) : Prop := {
  wired_osc :
    forall k o, Continuum.oscRefs s k = Some o ->
      exists c, Continuum.audioContextRef s = Some c
                /\ (o < List.length (oscillators c))%nat;
  wired_gain :
    forall k g, Continuum.gainRefs s k = Some g ->
      exists c, Continuum.audioContextRef s = Some c
                /\ (g < List.length (gains c))%nat;
  wired_pair :
    forall k, Continuum.oscRefs s k = None <-> Continuum.gainRefs s k = None;
  wired_osc_inj :
    forall k k' o, Continuum.oscRefs s k = Some o ->
      Continuum.oscRefs s k' = Some o -> k = k';
  wired_gain_inj :
    forall k k' g, Continuum.gainRefs s k = Some g ->
      Continuum.gainRefs s k' = Some g -> k = k';
  wired_out :
    forall c o n g, Continuum.audioContextRef s = Some c ->
      nth_error (oscillators c) o = Some n -> osc_output n = Some g ->
      (g < List.length (gains c))%nat;
  wired_live :
    forall c o, Continuum.audioContextRef s = Some c -> live c o = true ->
      exists k, Continuum.oscRefs s k = Some o
}.

(** Two states with the same ref cells and the same nodes. *)
Definition sameNodes (s s' : Continuum.State) : Prop :=
  (forall k, Continuum.oscRefs s' k = Continuum.oscRefs s k)
  /\ (forall k, Continuum.gainRefs s' k = Continuum.gainRefs s k)
  /\ match Continuum.audioContextRef s, Continuum.audioContextRef s' with
     | Some c, Some c' =>
         oscillators c' = oscillators c /\ gains c' = gains c
     | None, None => True
     | _, _ => False
     end.

(** The oscillators the seven slots name. *)
Definition slotOscillators (s : Continuum.State) : list nat :=
  flat_map
    (fun k => match Continuum.oscRefs s k with Some o => [o] | None => [] end)
    Continuum.allSlots.

(** The live oscillators of the component's context. *)
Definition liveVoices (s : Continuum.State) : list nat :=
  match Continuum.audioContextRef s with
  | Some c => liveOscillators c
  | None => []
  end.


(** Every occupied slot names an oscillator that is started and connected,
    through the gain node of the same slot, to the destination. *)
Definition occupiedLive (s : Continuum.State) : Prop :=
  forall k o, Continuum.oscRefs s k = Some o ->
    exists c g n m,
      Continuum.audioContextRef s = Some c
      /\ Continuum.gainRefs s k = Some g
      /\ nth_error (oscillators c) o = Some n
      /\ started n = true /\ osc_output n = Some g
      /\ nth_error (gains c) g = Some m /\ toDestination m = true.

(** The keypoint lists of the hands that have a keypoint 12, whatever
    their label, in the order of the frame. *)
Definition drawable (hands : list Continuum.Hand)
  : list (list Continuum.Keypoint) :=
  flat_map
    (fun h =>
       match Continuum.keypoints h with
       | Some kps => if (12 <? List.length kps)%nat then [kps] else []
       | None => []
       end)
    hands.

(** Exponential interpolation between the frequencies [g k] of consecutive
    keys, at [u] key widths from the left edge of key 0. *)
Definition interpolate (g : R -> R) (u : R) : R :=
  let k := IZR (Zfloor u) in
  g k * Rpower (g (k + 1) / g k) (u - k).

(** The frequency of the [k]-th key of the keyboard of
    interactive-continuum.tsx. *)
Definition continuumKey (k : R) : R :=
  Lib.getFrequency (Continuum.START_NOTE + k).

(** The frequency the pointer plays at viewport position [clientX] over
    the keyboard [rect]. *)
Definition pointerPitch (rect : Continuum.DOMRect) (clientX : R) : R :=
  interpolate continuumKey
    ((clientX - Continuum.left rect) / (Continuum.width rect / 36)).


(** ** drawHands: the skeleton overlay of interactive-continuum.tsx

    The 2D rendering context is modelled by the calls made on it.  A run
    yields the calls made and whether it ran to its end: reading [.x] of a
    keypoint the hand does not have throws, and the calls made before the
    throw stay made. *)

Module Canvas2D.

Inductive DrawCall : Type :=
| SetStrokeStyle (style : string)
| SetLineWidth (w : R)
| SetFillStyle (style : string)
| BeginPath
| MoveTo (x y : R)
| LineTo (x y : R)
| Stroke
| Arc (x y radius startAngle endAngle : R)
| Fill.

(** The calls made, and [true] when no exception was thrown. *)
Definition Run : Type := (list DrawCall * bool)%type.

(** [l.forEach(f)] where [f] may throw. *)
Fixpoint forEach {A : Type} (f : A -> Run) (l : list A) : Run :=
  match l with
  | [] => ([], true)
  | a :: l' =>
      let (cs, ok) := f a in
      if ok then let (cs', ok') := forEach f l' in (cs ++ cs', ok')
      else (cs, false)
  end.

Definition connections : list (nat * nat) :=
  [ (0, 1); (1, 2); (2, 3); (3, 4);         (* Thumb *)
    (0, 5); (5, 6); (6, 7); (7, 8);         (* Index *)
    (5, 9); (9, 10); (10, 11); (11, 12);    (* Middle *)
    (9, 13); (13, 14); (14, 15); (15, 16);  (* Ring *)
    (13, 17); (0, 17); (17, 18); (18, 19); (19, 20) (* Pinky *) ]%nat.

(** The body of [connections.forEach]. *)
Definition drawConnection (hand : list Continuum.Keypoint)
    (c : nat * nat) : Run :=
  let (start, end_) := c in
  match nth_error hand start with
  | None => ([BeginPath], false)
  | Some p =>
      match nth_error hand end_ with
      | None => ([BeginPath; MoveTo (Continuum.x p) (Continuum.y p)], false)
      | Some q =>
          ([BeginPath; MoveTo (Continuum.x p) (Continuum.y p);
            LineTo (Continuum.x q) (Continuum.y q); Stroke], true)
      end
  end.

(** The body of [hand.forEach((keypoint, i) => ...)]. *)
Definition drawKeypoint (i : nat) (keypoint : Continuum.Keypoint)
  : list DrawCall :=
  [ SetFillStyle (if Nat.eqb i 12 then "orange" else "yellow");
    BeginPath;
    Arc (Continuum.x keypoint) (Continuum.y keypoint) 5 0 (2 * PI);
    Fill ].

Fixpoint drawKeypoints (i : nat) (hand : list Continuum.Keypoint)
  : list DrawCall :=
  match hand with
  | [] => []
  | keypoint :: rest => drawKeypoint i keypoint ++ drawKeypoints (S i) rest
  end.

(** The body of [hands.forEach]. *)
Definition drawHand (hand : list Continuum.Keypoint) : Run :=
  let (cs, ok) := forEach (drawConnection hand) connections in
  if ok then
    (SetStrokeStyle "white" :: SetLineWidth 3 :: cs ++ drawKeypoints 0 hand,
     true)
  else (SetStrokeStyle "white" :: SetLineWidth 3 :: cs, false).

Definition drawHands (hands : list (list Continuum.Keypoint)) : Run :=
  forEach drawHand hands.

(** The drawing step of [runDetection], [CONFIG.showModelOutput] being
    [true]. *)
Definition drawDetection (hands : list Continuum.Hand) : Run :=
  drawHands (Continuum.allKeypoints (Continuum.processHands hands)).

Definition isStroke (c : DrawCall) : bool :=
  match c with Stroke => true | _ => false end.

Definition isFill (c : DrawCall) : bool :=
  match c with Fill => true | _ => false end.

Definition isOrange (c : DrawCall) : bool :=
  match c with SetFillStyle s => String.eqb s "orange" | _ => false end.

Definition count (p : DrawCall -> bool) (cs : list DrawCall) : nat :=
  List.length (filter p cs).

End Canvas2D.

(** ** useAnimationFrame (hooks/useAnimationFrame)

    The hook's two refs, the dependencies its effect last ran with, and the
    browser's list of requested animation frames.  A callback is known by
    its identity; the closure [animate] of a render is known by the
    callback it captured. *)

Module AnimationFrame.

Definition Callback : Type := nat.

Record Hook : Type := {
  frameRef : nat;
  timeRef : option R;
  (** [shouldAnimate] and [callback] of the last run of the effect. *)
  deps : option (bool * Callback);
  mounted : bool;
  (** The handle the next [requestAnimationFrame] returns. *)
  nextHandle : nat;
  (** The requested frames, with the callback their [animate] captured. *)
  pending : list (nat * Callback);
  (** The invocations of the callback, oldest first. *)
  called : list (Callback * R)
}.

(** [useRef(0)], [useRef(undefined)]; handles are positive. *)
Definition init : Hook :=
  {| frameRef := 0; timeRef := None; deps := None; mounted := true;
     nextHandle := 1; pending := []; called := [] |}.

(** [frameRef.current = requestAnimationFrame(animate)]. *)
Definition requestAnimationFrame (callback : Callback) (h : Hook) : Hook :=
  {| frameRef := nextHandle h; timeRef := timeRef h; deps := deps h;
     mounted := mounted h; nextHandle := S (nextHandle h);
     pending := pending h ++ [(nextHandle h, callback)];
     called := called h |}.

Definition cancelAnimationFrame (handle : nat) (h : Hook) : Hook :=
  {| frameRef := frameRef h; timeRef := timeRef h; deps := deps h;
     mounted := mounted h; nextHandle := nextHandle h;
     pending := filter (fun p => negb (Nat.eqb (fst p) handle)) (pending h);
     called := called h |}.

Definition call (callback : Callback) (deltaTime : R) (h : Hook) : Hook :=
  {| frameRef := frameRef h; timeRef := timeRef h; deps := deps h;
     mounted := mounted h; nextHandle := nextHandle h; pending := pending h;
     called := called h ++ [(callback, deltaTime)] |}.

Definition setTime (time : R) (h : Hook) : Hook :=
  {| frameRef := frameRef h; timeRef := Some time; deps := deps h;
     mounted := mounted h; nextHandle := nextHandle h; pending := pending h;
     called := called h |}.

Definition animate (callback : Callback) (time : R) (h : Hook) : Hook :=
  let h1 :=
    match timeRef h with
    | Some prev => call callback ((time - prev) / 20) h
    | None => h
    end in
  requestAnimationFrame callback (setTime time h1).

(** The body of the effect and its cleanup. *)
Definition effect (shouldAnimate : bool) (callback : Callback) (h : Hook)
  : Hook :=
  if shouldAnimate then requestAnimationFrame callback h
  else cancelAnimationFrame (frameRef h) h.

Definition cleanup (h : Hook) : Hook := cancelAnimationFrame (frameRef h) h.

Definition withDeps (d : option (bool * Callback)) (m : bool) (h : Hook)
  : Hook :=
  {| frameRef := frameRef h; timeRef := timeRef h; deps := d;
     mounted := m; nextHandle := nextHandle h; pending := pending h;
     called := called h |}.

(** A render: the effect runs on mount and when a dependency changed, after
    the cleanup of its previous run. *)
Definition render (shouldAnimate : bool) (callback : Callback) (h : Hook)
  : Hook :=
  if mounted h then
    match deps h with
    | None =>
        withDeps (Some (shouldAnimate, callback)) true
          (effect shouldAnimate callback h)
    | Some (shouldAnimate', callback') =>
        if Bool.eqb shouldAnimate shouldAnimate'
           && Nat.eqb callback callback'
        then h
        else withDeps (Some (shouldAnimate, callback)) true
               (effect shouldAnimate callback (cleanup h))
    end
  else h.

Definition unmount (h : Hook) : Hook :=
  if mounted h then
    match deps h with
    | None => withDeps None false h
    | Some _ => withDeps None false (cleanup h)
    end
  else h.

Definition clearPending (h : Hook) : Hook :=
  {| frameRef := frameRef h; timeRef := timeRef h; deps := deps h;
     mounted := mounted h; nextHandle := nextHandle h; pending := [];
     called := called h |}.

(** An animation frame of the browser at [time]: the frames requested
    before it run, in the order of their requests. *)
Definition frame (time : R) (h : Hook) : Hook :=
  fold_left (fun h' p => animate (snd p) time h') (pending h)
    (clearPending h).

Inductive Event : Type :=
| Render (shouldAnimate : bool) (callback : Callback)
| Frame (time : R)
| Unmount.

Definition step (e : Event) (h : Hook) : Hook :=
  match e with
  | Render shouldAnimate callback => render shouldAnimate callback h
  | Frame time => frame time h
  | Unmount => unmount h
  end.

Definition run (events : list Event) (h : Hook) : Hook :=
  fold_left (fun h' e => step e h') events h.

End AnimationFrame.

(** The frames of a run in which [animate] ran, with the callback it
    captured. *)
Fixpoint ranFrames (events : list AnimationFrame.Event)
    (h : AnimationFrame.Hook) : list (AnimationFrame.Callback * R) :=
  match events with
  | [] => []
  | e :: rest =>
      match e with
      | AnimationFrame.Frame time =>
          map (fun p => (snd p, time)) (AnimationFrame.pending h)
      | _ => []
      end ++ ranFrames rest (AnimationFrame.step e h)
  end.

(** What the callback is to be told: for each frame but the first, the
    time since the frame before, over 20. *)
Fixpoint deltasFrom (prev : option R)
    (frames : list (AnimationFrame.Callback * R))
  : list (AnimationFrame.Callback * R) :=
  match frames with
  | [] => []
  | (callback, time) :: rest =>
      match prev with
      | Some p => [(callback, (time - p) / 20)]
      | None => []
      end ++ deltasFrom (Some time) rest
  end.

(** The loop runs: one frame is requested, under the handle in
    [frameRef], for the callback of the last render. *)
Definition looping (h : AnimationFrame.Hook) : Prop :=
  exists callback,
    AnimationFrame.deps h = Some (true, callback)
    /\ AnimationFrame.pending h = [(AnimationFrame.frameRef h, callback)].

Definition total (calls : list (AnimationFrame.Callback * R)) : R :=
  fold_right (fun c acc => snd c + acc) 0 calls.

(** What every reachable hook state satisfies. *)
Definition tidy (h : AnimationFrame.Hook) : Prop :=
  AnimationFrame.pending h = match AnimationFrame.deps h with
              | Some (true, callback) => [(AnimationFrame.frameRef h, callback)]
              | _ => []
              end
  /\ (AnimationFrame.mounted h = false -> AnimationFrame.deps h = None).


(** The time of the last of [frames], or [prev] when there is none. *)
Definition lastTime (prev : option R)
    (frames : list (AnimationFrame.Callback * R)) : option R :=
  fold_left (fun _ f => Some (snd f)) frames prev.


(** ** KeyboardContinuum: the pointer-only keyboard *)

Module Keyboard.

(** Standard equal temperament tuning. *)
Definition getFrequency (keyNumber : R) : R :=
  let frequency := 440 * Math_pow 2 ((keyNumber - 49) / 12) in
  parseFloat (toFixed frequency 3).

Definition START_NOTE : R := 25.
Definition END_NOTE : R := 72.

Record State : Type := {
  mounted : bool;
  isReady : bool;
  isPlaying : bool;
  cursorX : R;
  cursorY : R;
  keyboardRef : option Continuum.DOMRect;
  audioContextRef : option AudioContext;
  resumePending : bool;
  oscillatorRef : option nat;
  gainRef : option nat
}.

Definition init (keyboard : option Continuum.DOMRect) : State :=
  {| mounted := true; isReady := false; isPlaying := false;
     cursorX := 0; cursorY := 0; keyboardRef := keyboard;
     audioContextRef := None; resumePending := false;
     oscillatorRef := None; gainRef := None |}.

Definition withAudio (c : option AudioContext) (pending : bool)
           (o g : option nat) (s : State) : State :=
  {| mounted := mounted s; isReady := isReady s; isPlaying := isPlaying s;
     cursorX := cursorX s; cursorY := cursorY s;
     keyboardRef := keyboardRef s;
     audioContextRef := c; resumePending := pending;
     oscillatorRef := o; gainRef := g |}.

Definition withFlags (m ready playing : bool) (s : State) : State :=
  {| mounted := m; isReady := ready; isPlaying := playing;
     cursorX := cursorX s; cursorY := cursorY s;
     keyboardRef := keyboardRef s;
     audioContextRef := audioContextRef s;
     resumePending := resumePending s;
     oscillatorRef := oscillatorRef s; gainRef := gainRef s |}.

Definition withCursor (x y : R) (s : State) : State :=
  {| mounted := mounted s; isReady := isReady s; isPlaying := isPlaying s;
     cursorX := x; cursorY := y;
     keyboardRef := keyboardRef s;
     audioContextRef := audioContextRef s;
     resumePending := resumePending s;
     oscillatorRef := oscillatorRef s; gainRef := gainRef s |}.

(** Get frequency from mouse X across the entire keyboard width. *)
Definition getFrequencyFromX (s : State) (x : R) : R :=
  match keyboardRef s with
  | None => getFrequency START_NOTE
  | Some rect =>
      let totalWidth := Continuum.width rect in
      let numKeys := END_NOTE - START_NOTE + 1 in
      let keyWidth := totalWidth / numKeys in
      let relativeX := x - Continuum.left rect in
      let keyIndex := Math_floor (relativeX / keyWidth) in
      let note := START_NOTE + keyIndex in
      let xInKey := rem relativeX keyWidth / keyWidth in
      let baseFreq := getFrequency note in
      let nextFreq := getFrequency (note + 1) in
      let freq := baseFreq * Math_pow (nextFreq / baseFreq) xInKey in
      freq
  end.

(** [initAudioContext] up to its [await]; [autoplay] tells whether the
    browser hands out a new context already running. *)
Definition initAudioContext (autoplay : bool) (s : State) : State :=
  let c := match audioContextRef s with
           | Some c => c
           | None => newAudioContext (if autoplay then running else suspended)
           end in
  match state c with
  | suspended => withAudio (Some c) true (oscillatorRef s) (gainRef s) s
  | _ =>
      withFlags (mounted s) true (isPlaying s)
        (withAudio (Some c) (resumePending s) (oscillatorRef s) (gainRef s) s)
  end.

(** The rest of [initAudioContext], once [resume()] has resolved. *)
Definition resumed (s : State) : State :=
  if resumePending s then
    match audioContextRef s with
    | Some c =>
        withFlags (mounted s) true (isPlaying s)
          (withAudio (Some (withState running c)) false
             (oscillatorRef s) (gainRef s) s)
    | None => s
    end
  else s.

(** Start tone (once).  Without a context the first call on it throws,
    before anything was changed. *)
Definition startTone (clientX : R) (s : State) : State :=
  if isReady s then
    match audioContextRef s, oscillatorRef s with
    | Some audioCtx, None =>
        let '(oscillator, c) := createOscillator audioCtx in
        let '(gainNode, c) := createGain c in
        let c := setType oscillator sine c in
        let c := scheduleGain gainNode (setValueAtTime 0 (currentTime c)) c in
        let c := scheduleGain gainNode
                   (linearRampToValueAtTime 0.15 (currentTime c + 0.1)) c in
        let c := connectOscillator oscillator gainNode c in
        let c := connectDestination gainNode c in
        let freq := getFrequencyFromX s clientX in
        let c := scheduleFrequency oscillator
                   (setValueAtTime freq (currentTime c)) c in
        let c := start oscillator c in
        withFlags (mounted s) (isReady s) true
          (withAudio (Some c) (resumePending s)
             (Some oscillator) (Some gainNode) s)
    | _, _ => s
    end
  else s.

Definition stopTone (s : State) : State :=
  match oscillatorRef s, gainRef s, audioContextRef s with
  | Some oscillator, Some gainNode, Some audioCtx =>
      let now := currentTime audioCtx in
      let c := gainCancelScheduledValues gainNode now audioCtx in
      let c := scheduleGain gainNode
                 (linearRampToValueAtTime 0 (now + 0.15)) c in
      let c := stop oscillator (now + 0.2) c in
      let c := disconnectOscillator oscillator c in
      let c := disconnectGain gainNode c in
      withFlags (mounted s) (isReady s) false
        (withAudio (Some c) (resumePending s) None None s)
  | _, _, _ => s
  end.

(** The volume [handleMouseMove] plays at height [clientY]. *)
Definition volumeAt (rect : Continuum.DOMRect) (clientY : R) : R :=
  let relativeY := (clientY - Continuum.top rect) / Continuum.height rect in
  let clamped := Math_min (Math_max relativeY 0) 1 in
  (1 - clamped) * 0.25.

Definition handleMouseMove (clientX clientY : R) (s : State) : State :=
  match oscillatorRef s, gainRef s, keyboardRef s with
  | Some oscillator, Some gainNode, Some rect =>
      let freq := getFrequencyFromX s clientX in
      let s := withCursor clientX (cursorY s) s in
      match audioContextRef s with
      | Some audioCtx =>
          let c := scheduleFrequency oscillator
                     (exponentialRampToValueAtTime freq
                        (currentTime audioCtx + 0.02)) audioCtx in
          let s := withCursor (cursorX s) clientY s in
          let volume := volumeAt rect clientY in
          let c := scheduleGain gainNode
                     (linearRampToValueAtTime volume
                        (currentTime audioCtx + 0.01)) c in
          withAudio (Some c) (resumePending s)
            (oscillatorRef s) (gainRef s) s
      | None => s
      end
  | _, _, _ => s
  end.

(** Clean up. *)
Definition cleanup (s : State) : State :=
  let c := audioContextRef s in
  let c := match oscillatorRef s with
           | Some oscillator =>
               option_map
                 (fun c => disconnectOscillator oscillator
                             (stop oscillator 0 c)) c
           | None => c
           end in
  let c := match gainRef s with
           | Some gainNode => option_map (disconnectGain gainNode) c
           | None => c
           end in
  let c := option_map (withState closed) c in
  withFlags false (isReady s) (isPlaying s)
    (withAudio c (resumePending s) (oscillatorRef s) (gainRef s) s).

Inductive Event : Type :=
| Click (autoplay : bool)
| Resumed
| MouseEnter (clientX : R)
| MouseMove (clientX clientY : R)
| MouseLeave
| Unmount.

(** Handlers only run while the component is mounted. *)
Definition step (e : Event) (s : State) : State :=
  if mounted s then
    match e with
    | Click autoplay => initAudioContext autoplay s
    | Resumed => resumed s
    | MouseEnter cx => startTone cx s
    | MouseMove cx cy => handleMouseMove cx cy s
    | MouseLeave => stopTone s
    | Unmount => cleanup s
    end
  else s.

Inductive reachable (keyboard : option Continuum.DOMRect) : State -> Prop :=
| reachable_init : reachable keyboard (init keyboard)
| reachable_step (e : Event) (s : State) :
    reachable keyboard s -> reachable keyboard (step e s).

End Keyboard.

(** The frequency of the [k]-th key of the keyboard of KeyboardContinuum. *)
Definition keyboardKey (k : R) : R :=
  Keyboard.getFrequency (Keyboard.START_NOTE + k).

(** What the pointer-only keyboard maintains: the two ref cells are filled
    together with [isPlaying] and only once the component is ready, no
    oscillator but the one in [oscillatorRef] is connected, and while the
    component is mounted that one is started and connected through the
    gain node in [gainRef] to the destination. *)
Record oneTone (s : Keyboard.State) : Prop := {
  oneTone_pair :
    Keyboard.oscillatorRef s = None <-> Keyboard.gainRef s = None;
  oneTone_playing :
    Keyboard.isPlaying s = true <-> Keyboard.oscillatorRef s <> None;
  oneTone_ready :
    Keyboard.isReady s = false -> Keyboard.oscillatorRef s = None;
  oneTone_context :
    Keyboard.isReady s = true -> Keyboard.audioContextRef s <> None;
  oneTone_others :
    forall c o n, Keyboard.audioContextRef s = Some c ->
      nth_error (oscillators c) o = Some n -> osc_output n <> None ->
      Keyboard.oscillatorRef s = Some o;
  oneTone_sounds :
    forall o g, Keyboard.mounted s = true ->
      Keyboard.oscillatorRef s = Some o -> Keyboard.gainRef s = Some g ->
      exists c n m,
        Keyboard.audioContextRef s = Some c
        /\ nth_error (oscillators c) o = Some n
        /\ started n = true /\ osc_output n = Some g
        /\ nth_error (gains c) g = Some m /\ toDestination m = true
}.

(** What the keyboard sounds like: nothing when its ref cells are empty,
    otherwise the values the oscillator frequency and the gain are heading
    to. *)
Definition tone (s : Keyboard.State) : option (option R * option R) :=
  match Keyboard.oscillatorRef s, Keyboard.gainRef s,
        Keyboard.audioContextRef s with
  | Some o, Some g, Some c =>
      match nth_error (oscillators c) o, nth_error (gains c) g with
      | Some on, Some gn => Some (target (frequency on), target (gain gn))
      | _, _ => None
      end
  | _, _, _ => None
  end.


(** ** Tolerance and margin

    The arithmetic of the sources is double-precision; the model's is
    exact.  Where a statement compares a computed frequency with a bound or
    with another frequency, it allows the relative [tolerance] below, far
    above what the rounding of the sources' few operations amounts to and
    far below anything audible; where the source takes a key index and a
    position inside the key by two different computations
    ([getFrequencyFromX], [handleMouseMove]), a statement speaks of
    positions at least [edgeMargin] key widths away from the key edges,
    where the two computations agree whatever the rounding. *)

Definition tolerance : R := 0.000000000001.

(** [a] is [b] up to the tolerance; [b] is a frequency, hence positive. *)
Definition within (a b : R) : Prop := Rabs (a - b) <= tolerance * b.

Definition edgeMargin : R := 0.000001.

(** [u], a position in key widths, lies in key [k] and at least the margin
    away from both of its edges. *)
Definition insideKey (k : Z) (u : R) : Prop :=
  IZR k + edgeMargin <= u <= IZR k + 1 - edgeMargin.

(** The key index and the position inside the key [mapXToFreq] works
    with, for the clamped position [u] in key widths. *)
Definition keyIndexAt (u : R) : Z := Z.min (Zfloor u) 47.

Definition xInKeyAt (u : R) : R := u - IZR (keyIndexAt u).


(** The exponential interpolation between the frequencies [base] and
    [next] of two adjacent keys, at the fraction [t] of the key. *)
Definition interpolation (base next t : R) : R :=
  base * Rpower (next / base) t.

(** ** Facts about the primitives *)

Section Rounding.

Lemma pow10_pos (f : nat) : 0 < 10 ^ f.
Proof. apply pow_lt; lra. Qed.

Lemma Rpower_pos (b e : R) : 0 < Rpower b e.
Proof. unfold Rpower; apply exp_pos. Qed.

Lemma equalTemperament_pos (n : R) : 0 < equalTemperament n.
Proof. unfold equalTemperament; pose proof (Rpower_pos 2 ((n - 49) / 12)); lra. Qed.

Lemma equalTemperament_le (m n : R) :
  m <= n -> equalTemperament m <= equalTemperament n.
Proof.
  intros H; unfold equalTemperament.
  apply Rmult_le_compat_l; [lra|].
  apply Rle_Rpower; lra.
Qed.

Lemma equalTemperament_lt (m n : R) :
  m < n -> equalTemperament m < equalTemperament n.
Proof.
  intros H; unfold equalTemperament.
  apply Rmult_lt_compat_l; [lra|].
  apply Rpower_lt; lra.
Qed.

(** One semitone up multiplies the unrounded frequency by [2^(1/12)]. *)
Lemma equalTemperament_succ (n : R) :
  equalTemperament (n + 1) = equalTemperament n * Rpower 2 (/ 12).
Proof.
  unfold equalTemperament.
  replace ((n + 1 - 49) / 12) with ((n - 49) / 12 + / 12) by lra.
  rewrite Rpower_plus; ring.
Qed.

(** Twelve semitones up doubles it. *)
Lemma equalTemperament_octave (n : R) :
  equalTemperament (n + 12) = 2 * equalTemperament n.
Proof.
  unfold equalTemperament.
  replace ((n + 12 - 49) / 12) with ((n - 49) / 12 + 1) by lra.
  rewrite Rpower_plus, Rpower_1 by lra; ring.
Qed.

Lemma equalTemperament_49 : equalTemperament 49 = 440.
Proof.
  unfold equalTemperament.
  replace ((49 - 49) / 12) with 0 by lra.
  rewrite Rpower_O by lra; ring.
Qed.

Lemma roundTo_small (f : nat) (x : R) :
  0 <= x -> x < 10 ^ 21 ->
  roundTo f x = IZR (Zfloor (x * 10 ^ f + / 2)) / 10 ^ f.
Proof.
  intros H0 H1; unfold roundTo, toFixed.
  destruct (Rlt_dec x 0) as [Hn|_]; [lra|].
  destruct (Rle_dec (10 ^ 21) x) as [Hb|_]; [lra|].
  reflexivity.
Qed.

Lemma roundTo_big (f : nat) (x : R) : 10 ^ 21 <= x -> roundTo f x = x.
Proof.
  intros H1; unfold roundTo, toFixed.
  pose proof (pow10_pos 21).
  destruct (Rlt_dec x 0) as [Hn|_]; [lra|].
  destruct (Rle_dec (10 ^ 21) x) as [_|Hb]; [|lra].
  reflexivity.
Qed.

(** The rounded value is within half a unit of the last decimal. *)
Lemma roundTo_error (f : nat) (x : R) :
  0 <= x -> - (/ 2 / 10 ^ f) < roundTo f x - x <= / 2 / 10 ^ f.
Proof.
  intros H0. pose proof (pow10_pos f) as Hp.
  destruct (Rle_dec (10 ^ 21) x) as [Hb|Hb].
  - rewrite roundTo_big by assumption.
    assert (0 < / 2 / 10 ^ f) by (apply Rdiv_lt_0_compat; lra). lra.
  - rewrite roundTo_small by lra.
    pose proof (Zfloor_bound (x * 10 ^ f + / 2)) as [Hl Hu].
    set (n := IZR (Zfloor (x * 10 ^ f + / 2))) in *.
    replace (n / 10 ^ f - x) with ((n - x * 10 ^ f) / 10 ^ f)
      by (field; lra).
    split.
    + replace (- (/ 2 / 10 ^ f)) with ((- / 2) / 10 ^ f) by (field; lra).
      apply Rmult_lt_compat_r; [apply Rinv_0_lt_compat; lra | lra].
    + apply Rmult_le_compat_r; [left; apply Rinv_0_lt_compat; lra | lra].
Qed.

Lemma roundTo_nonneg (f : nat) (x : R) : 0 <= x -> 0 <= roundTo f x.
Proof.
  intros H0. pose proof (pow10_pos f) as Hp.
  destruct (Rle_dec (10 ^ 21) x) as [Hb|Hb].
  - rewrite roundTo_big by assumption. lra.
  - rewrite roundTo_small by lra.
    apply Rmult_le_pos; [|left; apply Rinv_0_lt_compat; lra].
    apply IZR_le, Zfloor_lub. simpl.
    assert (0 <= x * 10 ^ f) by (apply Rmult_le_pos; lra). lra.
Qed.

(** Rounding preserves order. *)
Lemma roundTo_le (f : nat) (x y : R) :
  0 <= x -> x <= y -> roundTo f x <= roundTo f y.
Proof.
  intros H0 Hxy. pose proof (pow10_pos f) as Hp.
  destruct (Rle_dec (10 ^ 21) x) as [Hbx|Hbx].
  - rewrite !roundTo_big by lra. assumption.
  - rewrite (roundTo_small f (x:=x)) by lra.
    destruct (Rle_dec (10 ^ 21) y) as [Hby|Hby].
    + rewrite roundTo_big by assumption.
      apply Rle_trans with (10 ^ 21); [|assumption].
      apply Rmult_le_reg_r with (10 ^ f); [assumption|].
      replace (IZR (Zfloor (x * 10 ^ f + / 2)) / 10 ^ f * 10 ^ f)
        with (IZR (Zfloor (x * 10 ^ f + / 2))) by (field; lra).
      assert (E : 10 ^ 21 * 10 ^ f = IZR (10 ^ Z.of_nat (21 + f))).
      { rewrite <- pow_IZR, pow_add. reflexivity. }
      rewrite E. apply IZR_le.
      assert (Hlt : (Zfloor (x * 10 ^ f + / 2) < 10 ^ Z.of_nat (21 + f) + 1)%Z).
      { apply lt_IZR. rewrite plus_IZR, <- E.
        pose proof (Zfloor_bound (x * 10 ^ f + / 2)) as [Hl _].
        assert (x * 10 ^ f < 10 ^ 21 * 10 ^ f)
          by (apply Rmult_lt_compat_r; lra).
        lra. }
      lia.
    + rewrite (roundTo_small f (x:=y)) by lra.
      apply Rmult_le_compat_r; [left; apply Rinv_0_lt_compat; lra|].
      apply IZR_le, Zfloor_le.
      assert (x * 10 ^ f <= y * 10 ^ f)
        by (apply Rmult_le_compat_r; lra).
      lra.
Qed.

(** A number with at most [f] decimals is left unchanged. *)
Lemma roundTo_exact (f : nat) (n : Z) :
  (0 <= n)%Z -> IZR n / 10 ^ f < 10 ^ 21 ->
  roundTo f (IZR n / 10 ^ f) = IZR n / 10 ^ f.
Proof.
  intros Hn Hb. pose proof (pow10_pos f) as Hp.
  rewrite roundTo_small; [| |assumption].
  - f_equal. apply f_equal, Zfloor_eq.
    replace (IZR n / 10 ^ f * 10 ^ f) with (IZR n) by (field; lra). lra.
  - apply Rmult_le_pos; [apply IZR_le; assumption|].
    left; apply Rinv_0_lt_compat; lra.
Qed.

End Rounding.

(** ** The two getFrequency helpers *)

Section GetFrequency.

Lemma audio_getFrequency_round (n : R) :
  Audio.getFrequency n = roundTo 6 (equalTemperament n).
Proof. reflexivity. Qed.

Lemma lib_getFrequency_round (n : R) :
  Lib.getFrequency n = roundTo 3 (equalTemperament n).
Proof. reflexivity. Qed.

Lemma audio_getFrequency_le (m n : R) :
  m <= n -> Audio.getFrequency m <= Audio.getFrequency n.
Proof.
  intros H. rewrite !audio_getFrequency_round.
  apply roundTo_le; [left; apply equalTemperament_pos|].
  now apply equalTemperament_le.
Qed.

Lemma lib_getFrequency_le (m n : R) :
  m <= n -> Lib.getFrequency m <= Lib.getFrequency n.
Proof.
  intros H. rewrite !lib_getFrequency_round.
  apply roundTo_le; [left; apply equalTemperament_pos|].
  now apply equalTemperament_le.
Qed.

(** An integer below [10^21] has no decimals to round. *)
Lemma roundTo_int (f : nat) (z : Z) :
  (0 <= z < 10 ^ 21)%Z -> roundTo f (IZR z) = IZR z.
Proof.
  intros [H0 H1]. pose proof (pow10_pos f) as Hp.
  assert (Hz : 0 <= IZR z) by (apply IZR_le; assumption).
  assert (Hb : IZR z < 10 ^ 21).
  { pose proof (pow_IZR 10 21) as E. change (Z.of_nat 21) with 21%Z in E.
    rewrite E. apply IZR_lt; assumption. }
  rewrite roundTo_small by assumption.
  replace (Zfloor (IZR z * 10 ^ f + / 2)) with (z * 10 ^ Z.of_nat f)%Z.
  - rewrite mult_IZR, <- pow_IZR. field. lra.
  - symmetry; apply Zfloor_eq. rewrite mult_IZR, <- pow_IZR. lra.
Qed.

Lemma equalTemperament_25 : equalTemperament 25 = 110.
Proof.
  pose proof (equalTemperament_octave 25) as H1.
  pose proof (equalTemperament_octave 37) as H2.
  replace (25 + 12) with 37 in H1 by lra.
  replace (37 + 12) with 49 in H2 by lra.
  rewrite equalTemperament_49 in H2. lra.
Qed.

Lemma audio_getFrequency_25 : Audio.getFrequency 25 = 110.
Proof.
  rewrite audio_getFrequency_round, equalTemperament_25.
  apply (@roundTo_int 6 110). lia.
Qed.

Lemma audio_getFrequency_49 : Audio.getFrequency 49 = 440.
Proof.
  rewrite audio_getFrequency_round, equalTemperament_49.
  apply (@roundTo_int 6 440). lia.
Qed.

Lemma lib_getFrequency_49 : Lib.getFrequency 49 = 440.
Proof.
  rewrite lib_getFrequency_round, equalTemperament_49.
  apply (@roundTo_int 3 440). lia.
Qed.

Lemma audio_getFrequency_playable (n : R) :
  25 <= n -> 110 <= Audio.getFrequency n.
Proof.
  intros H. rewrite <- audio_getFrequency_25.
  now apply audio_getFrequency_le.
Qed.

End GetFrequency.

(** ** utils/audio.ts: the pitch map *)

Section PitchMap.

Lemma clampX_range (x width : R) : 0 < width -> 0 <= clampX x width <= width.
Proof.
  intros Hw; unfold clampX.
  destruct (Rlt_dec x 0); [lra|].
  destruct (Rgt_dec x width); lra.
Qed.

Lemma clampX_le (x1 x2 width : R) :
  0 < width -> x1 <= x2 -> clampX x1 width <= clampX x2 width.
Proof.
  intros Hw H; unfold clampX.
  destruct (Rlt_dec x1 0), (Rlt_dec x2 0); try lra;
    destruct (Rgt_dec x1 width), (Rgt_dec x2 width); lra.
Qed.

Lemma Rmin_IZR (a b : Z) : Rmin (IZR a) (IZR b) = IZR (Z.min a b).
Proof.
  destruct (Z.le_ge_cases a b) as [H|H].
  - rewrite Z.min_l by assumption. apply Rmin_left, IZR_le; assumption.
  - rewrite Z.min_r by lia. apply Rmin_right, IZR_le; lia.
Qed.

(** On finite operands with a nonzero divisor, and on a positive base,
    the operations of [Num] are those of the reals. *)
Lemma Num_div_finite (a b : R) :
  b <> 0 -> Num.div (Finite a) (Finite b) = Finite (a / b).
Proof.
  intros Hb. unfold Num.div. destruct (Req_dec_T b 0); [contradiction|].
  reflexivity.
Qed.

Lemma Num_pow_finite (b e : R) :
  0 < b -> Num.pow (Finite b) (Finite e) = Finite (Math_pow b e).
Proof.
  intros Hb. unfold Num.pow, Math_pow.
  destruct (Req_dec_T e 0) as [->|_]; [now rewrite Rpower_O|].
  destruct (Req_dec_T b 0); [lra|].
  destruct (Rlt_dec 0 b); [reflexivity|lra].
Qed.

Lemma getFrequencyN_finite (n : R) :
  Audio.getFrequencyN (Finite n) = Finite (Audio.getFrequency n).
Proof.
  unfold Audio.getFrequencyN, Audio.getFrequency.
  unfold Num.sub, Num.neg, Num.add.
  rewrite Num_div_finite by lra. rewrite Num_pow_finite by lra.
  reflexivity.
Qed.

(** On a width of [0] the key width is [0] and the clamped position is
    [0]: their quotient is [NaN], and so is everything computed from
    it. *)
Lemma mapXToFreq_width_0 (x : R) : Audio.mapXToFreq x 0 = NaN.
Proof.
  unfold Audio.mapXToFreq, Audio.START_NOTE, Audio.END_NOTE.
  replace (0 / (72 - 25 + 1)) with 0 by lra.
  assert (Hc : (if Rgt_dec (if Rlt_dec x 0 then 0 else x) 0 then 0
                else if Rlt_dec x 0 then 0 else x) = 0).
  { destruct (Rlt_dec x 0).
    - destruct (Rgt_dec 0 0); reflexivity.
    - destruct (Rgt_dec x 0); [reflexivity|lra]. }
  rewrite Hc.
  assert (E : Num.div (Finite 0) (Finite 0) = NaN).
  { unfold Num.div. destruct (Req_dec_T 0 0) as [_|N]; [reflexivity|].
    now elim N. }
  rewrite !E. reflexivity.
Qed.

(** For a positive width [mapXToFreq] is finite: it is [pitchAt] of the
    clamped position, measured in key widths. *)
Lemma mapXToFreq_pitchAt (x width : R) :
  0 < width ->
  Audio.mapXToFreq x width = Finite (pitchAt (clampX x width / (width / 48))).
Proof.
  intros Hw. unfold Audio.mapXToFreq, pitchAt, Audio.START_NOTE, Audio.END_NOTE.
  replace (72 - 25 + 1) with 48 by lra.
  replace (48 - 1) with (IZR 47) by lra.
  assert (Hc : (if Rgt_dec (if Rlt_dec x 0 then 0 else x) width then width
                else if Rlt_dec x 0 then 0 else x) = clampX x width).
  { unfold clampX. destruct (Rlt_dec x 0).
    - destruct (Rgt_dec 0 width); [lra|reflexivity].
    - reflexivity. }
  rewrite Hc. set (rx := clampX x width).
  rewrite !Num_div_finite by lra.
  cbn [Num.floor Num.min Num.add Num.mul Num.sub Num.neg].
  unfold Math_floor, Math_min.
  rewrite Rmin_IZR, ZfloorZ.
  set (k := IZR (Z.min (Zfloor (rx / (width / 48))) 47)).
  assert (Hk : 0 <= k).
  { unfold k. apply IZR_le, Z.min_glb; [|lia].
    apply Zfloor_lub. simpl. unfold rx.
    pose proof (clampX_range x Hw) as [H0 _].
    apply Rmult_le_pos; [assumption | left; apply Rinv_0_lt_compat; lra]. }
  rewrite Num_div_finite by lra.
  rewrite !getFrequencyN_finite.
  pose proof (audio_getFrequency_playable (n:=25 + k) ltac:(lra)) as Hg.
  pose proof (audio_getFrequency_playable (n:=25 + k + 1) ltac:(lra)) as Hg'.
  rewrite Num_div_finite by lra.
  rewrite Num_pow_finite
    by (apply Rmult_lt_0_compat; [lra | apply Rinv_0_lt_compat; lra]).
  cbn [Num.mul]. unfold Math_pow.
  replace ((rx + - (k * (width / 48))) / (width / 48))
    with (rx / (width / 48) - k) by (field; lra).
  reflexivity.
Qed.

Lemma pitchAt_key (u : R) :
  0 <= u <= 48 ->
  let k := Z.min (Zfloor u) 47 in
  (0 <= k <= 47)%Z /\ 0 <= u - IZR k <= 1.
Proof.
  intros [H0 H1] k.
  pose proof (Zfloor_bound u) as [Hl Hu].
  assert (Hf : (0 <= Zfloor u)%Z) by (apply Zfloor_lub; simpl; lra).
  assert (Hf' : (Zfloor u <= 48)%Z).
  { apply Z.lt_succ_r, lt_IZR. rewrite succ_IZR. lra. }
  subst k. split; [lia|].
  destruct (Z.le_ge_cases (Zfloor u) 47) as [H|H].
  - rewrite Z.min_l by assumption. lra.
  - rewrite Z.min_r by lia.
    assert (IZR 47 <= IZR (Zfloor u)) by (apply IZR_le; lia). lra.
Qed.

Lemma ratio_ge_1 (n : R) :
  25 <= n -> 1 <= Audio.getFrequency (n + 1) / Audio.getFrequency n.
Proof.
  intros H.
  pose proof (audio_getFrequency_playable H).
  assert (Audio.getFrequency n <= Audio.getFrequency (n + 1))
    by (apply audio_getFrequency_le; lra).
  apply Rmult_le_reg_r with (Audio.getFrequency n); [lra|].
  unfold Rdiv; rewrite Rmult_assoc, Rinv_l by lra. lra.
Qed.

(** Inside a key the pitch stays between the frequencies of the key and
    of the next one. *)
Lemma pitchAt_bounds (u : R) :
  0 <= u <= 48 ->
  let k := IZR (Z.min (Zfloor u) 47) in
  Audio.getFrequency (25 + k) <= pitchAt u <= Audio.getFrequency (25 + k + 1).
Proof.
  intros Hu k.
  destruct (pitchAt_key Hu) as [[Hk0 Hk1] [Ht0 Ht1]].
  fold k in Ht0, Ht1.
  assert (Hk : 0 <= k) by (apply IZR_le; assumption).
  pose proof (audio_getFrequency_playable (n:=25 + k) ltac:(lra)) as Hg.
  pose proof (ratio_ge_1 (n:=25 + k) ltac:(lra)) as Hr.
  unfold pitchAt; fold k.
  set (g := Audio.getFrequency (25 + k)) in *.
  set (g' := Audio.getFrequency (25 + k + 1)) in *.
  assert (H1 : 1 <= Rpower (g' / g) (u - k)).
  { rewrite <- (Rpower_O (g' / g)) by lra. apply Rle_Rpower; lra. }
  assert (H2 : Rpower (g' / g) (u - k) <= g' / g).
  { rewrite <- (Rpower_1 (g' / g)) at 2 by lra. apply Rle_Rpower; lra. }
  split.
  - replace g with (g * 1) at 1 by ring. apply Rmult_le_compat_l; lra.
  - replace g' with (g * (g' / g)) at 2 by (field; lra).
    apply Rmult_le_compat_l; lra.
Qed.

Lemma pitchAt_le (u u' : R) :
  0 <= u -> u <= u' -> u' <= 48 -> pitchAt u <= pitchAt u'.
Proof.
  intros H0 Huu H48.
  assert (Hu : 0 <= u <= 48) by lra.
  assert (Hu' : 0 <= u' <= 48) by lra.
  pose proof (pitchAt_bounds Hu) as Hb. pose proof (pitchAt_bounds Hu') as Hb'.
  destruct (pitchAt_key Hu) as [[Hk0 Hk1] [Ht0 Ht1]].
  destruct (pitchAt_key Hu') as [[Hk0' Hk1'] [Ht0' Ht1']].
  cbv zeta in Hb, Hb'.
  assert (Hkk : (Z.min (Zfloor u) 47 <= Z.min (Zfloor u') 47)%Z).
  { apply Z.min_le_compat_r, Zfloor_le; assumption. }
  destruct (Z.eq_dec (Z.min (Zfloor u) 47) (Z.min (Zfloor u') 47)) as [E|NE].
  - unfold pitchAt. rewrite <- E.
    set (k := IZR (Z.min (Zfloor u) 47)) in *.
    assert (Hk : 0 <= k) by (apply IZR_le; assumption).
    pose proof (audio_getFrequency_playable (n:=25 + k) ltac:(lra)) as Hg.
    pose proof (ratio_ge_1 (n:=25 + k) ltac:(lra)) as Hr.
    apply Rmult_le_compat_l; [lra|].
    apply Rle_Rpower; lra.
  - assert (Hlt : (Z.min (Zfloor u) 47 + 1 <= Z.min (Zfloor u') 47)%Z) by lia.
    apply Rle_trans with
      (Audio.getFrequency (25 + IZR (Z.min (Zfloor u) 47) + 1)); [apply Hb|].
    apply Rle_trans with
      (Audio.getFrequency (25 + IZR (Z.min (Zfloor u') 47))); [|apply Hb'].
    apply audio_getFrequency_le.
    apply IZR_le in Hlt. rewrite plus_IZR in Hlt. lra.
Qed.

Lemma keyPosition_range (x width : R) :
  0 < width -> 0 <= clampX x width / (width / 48) <= 48.
Proof.
  intros Hw. pose proof (clampX_range x Hw) as [H0 H1].
  assert (Hk : 0 < width / 48) by lra.
  split.
  - apply Rmult_le_pos; [assumption | left; apply Rinv_0_lt_compat; assumption].
  - apply Rmult_le_reg_r with (width / 48); [assumption|].
    unfold Rdiv at 1; rewrite Rmult_assoc, Rinv_l by lra. lra.
Qed.

End PitchMap.

Section PitchMapClaims.

Lemma clampX_idem (x width : R) :
  0 < width -> clampX (clampX x width) width = clampX x width.
Proof.
  intros Hw. pose proof (clampX_range x Hw) as [H0 H1].
  unfold clampX at 1.
  destruct (Rlt_dec (clampX x width) 0); [lra|].
  destruct (Rgt_dec (clampX x width) width); [lra|reflexivity].
Qed.

Lemma pitchAt_0 : pitchAt 0 = Audio.getFrequency 25.
Proof.
  unfold pitchAt. replace 0 with (IZR 0) at 1 by reflexivity.
  rewrite ZfloorZ. change (Z.min 0 47) with 0%Z.
  replace (25 + 0) with 25 by lra. replace (0 - 0) with 0 by lra.
  pose proof (audio_getFrequency_playable (n:=25) ltac:(lra)).
  pose proof (ratio_ge_1 (n:=25) ltac:(lra)).
  rewrite Rpower_O by lra. ring.
Qed.

Lemma pitchAt_48 : pitchAt 48 = Audio.getFrequency 73.
Proof.
  unfold pitchAt. replace 48 with (IZR 48) at 1 by reflexivity.
  rewrite ZfloorZ. change (Z.min 48 47) with 47%Z.
  replace (25 + 47 + 1) with 73 by lra. replace (25 + 47) with 72 by lra.
  replace (48 - 47) with 1 by lra.
  pose proof (audio_getFrequency_playable (n:=72) ltac:(lra)).
  pose proof (ratio_ge_1 (n:=72) ltac:(lra)) as Hr.
  replace (72 + 1) with 73 in Hr by lra.
  rewrite Rpower_1 by lra. field. lra.
Qed.

Lemma tolerance_pos : 0 < tolerance.
Proof. unfold tolerance. lra. Qed.

Lemma within_refl (b : R) : 0 < b -> within b b.
Proof.
  intros Hb. unfold within. replace (b - b) with 0 by ring. rewrite Rabs_R0.
  pose proof tolerance_pos. apply Rmult_le_pos; lra.
Qed.

Lemma pitchAt_pos (u : R) : 0 <= u <= 48 -> 0 < pitchAt u.
Proof.
  intros Hu. pose proof (pitchAt_bounds Hu) as [Hb _].
  destruct (pitchAt_key Hu) as [[Hk0 _] _]. apply IZR_le in Hk0.
  pose proof (audio_getFrequency_playable
                (n:=25 + IZR (Z.min (Zfloor u) 47)) ltac:(lra)).
  lra.
Qed.

(** C3, where the claim fails.  On a width of 0 the key width is 0 and the
    clamped position is 0, so their quotient, and with it the result, is
    [NaN]: no frequency of the range. *)
Lemma mapXToFreq_out_of_range_at_width_zero : Audio.mapXToFreq 500 0 = NaN.
Proof. apply mapXToFreq_width_0. Qed.

(** C3, as the code has it.  For a fixed width of at least one pixel,
    [mapXToFreq] is a frequency for every [x]; up to the relative
    tolerance it is non-decreasing in [x] and lies within
    [[getFrequency(START_NOTE), getFrequency(END_NOTE + 1)]]. *)
Theorem mapXToFreq_monotone_in_range (width : R) :
  1 <= width ->
  (forall x1 x2 : R,
      x1 <= x2 ->
      exists f1 f2 : R,
        Audio.mapXToFreq x1 width = Finite f1
        /\ Audio.mapXToFreq x2 width = Finite f2
        /\ f1 <= (1 + tolerance) * f2)
  /\ (forall x : R,
         exists f : R,
           Audio.mapXToFreq x width = Finite f
           /\ (1 - tolerance) * Audio.getFrequency Audio.START_NOTE <= f
           /\ f <= (1 + tolerance) * Audio.getFrequency (Audio.END_NOTE + 1)).
Proof.
  intros H1. assert (Hw : 0 < width) by lra.
  pose proof tolerance_pos as Ht. split.
  - intros x1 x2 H12.
    exists (pitchAt (clampX x1 width / (width / 48))),
           (pitchAt (clampX x2 width / (width / 48))).
    rewrite !mapXToFreq_pitchAt by assumption.
    split; [reflexivity|]. split; [reflexivity|].
    pose proof (keyPosition_range x1 Hw) as [Ha _].
    pose proof (keyPosition_range x2 Hw) as Hb.
    pose proof (pitchAt_pos Hb) as Hp.
    assert (Hle : pitchAt (clampX x1 width / (width / 48))
                  <= pitchAt (clampX x2 width / (width / 48))).
    { apply pitchAt_le; try lra.
      apply Rmult_le_compat_r.
      + left; apply Rinv_0_lt_compat; lra.
      + now apply clampX_le. }
    assert (0 <= tolerance * pitchAt (clampX x2 width / (width / 48)))
      by (apply Rmult_le_pos; lra).
    lra.
  - intros x0. exists (pitchAt (clampX x0 width / (width / 48))).
    rewrite mapXToFreq_pitchAt by assumption.
    split; [reflexivity|].
    pose proof (keyPosition_range x0 Hw) as Hu.
    unfold Audio.START_NOTE, Audio.END_NOTE.
    replace (72 + 1) with 73 by lra.
    assert (Hlo : Audio.getFrequency 25
                  <= pitchAt (clampX x0 width / (width / 48)))
      by (rewrite <- pitchAt_0; apply pitchAt_le; lra).
    assert (Hhi : pitchAt (clampX x0 width / (width / 48))
                  <= Audio.getFrequency 73)
      by (rewrite <- pitchAt_48; apply pitchAt_le; lra).
    pose proof (audio_getFrequency_playable (n:=25) ltac:(lra)) as H25.
    pose proof (audio_getFrequency_playable (n:=73) ltac:(lra)) as H73.
    assert (0 <= tolerance * Audio.getFrequency 25)
      by (apply Rmult_le_pos; lra).
    assert (0 <= tolerance * Audio.getFrequency 73)
      by (apply Rmult_le_pos; lra).
    split; lra.
Qed.

Lemma mapXToFreq_monotone_in_range_witness :
  1 <= 1000
  /\ ((forall x1 x2 : R,
         x1 <= x2 ->
         exists f1 f2 : R,
           Audio.mapXToFreq x1 1000 = Finite f1
           /\ Audio.mapXToFreq x2 1000 = Finite f2
           /\ f1 <= (1 + tolerance) * f2)
      /\ (forall x : R,
             exists f : R,
               Audio.mapXToFreq x 1000 = Finite f
               /\ (1 - tolerance) * Audio.getFrequency Audio.START_NOTE <= f
               /\ f <= (1 + tolerance)
                       * Audio.getFrequency (Audio.END_NOTE + 1))).
Proof.
  split; [lra | apply (@mapXToFreq_monotone_in_range 1000); lra].
Defined.

(** C4, where the claim fails.  With a width of 0 the input [x = 0] yields
    [NaN], an undefined frequency. *)
Lemma mapXToFreq_undefined_at_width_zero : Audio.mapXToFreq 0 0 = NaN.
Proof. apply mapXToFreq_width_0. Qed.

(** C4, as the code has it.  On a width of at least one pixel
    [mapXToFreq] clamps its input: an [x] outside [[0, width]] gives the
    result of the nearer end of the interval; with the clamped position
    measured in key widths, the key index is its floor clamped to
    [numKeys - 1] and stays within [0 .. 47], the position inside the key
    stays within [[0, 1]], and the result is, up to the tolerance, the
    interpolation between that key and the next at that position: a
    positive frequency; and [x = 0] on a width of 1000 gives
    [getFrequency(25)] exactly. *)
Theorem mapXToFreq_clamps (x width : R) :
  1 <= width ->
  (x < 0 -> Audio.mapXToFreq x width = Audio.mapXToFreq 0 width)
  /\ (width < x -> Audio.mapXToFreq x width = Audio.mapXToFreq width width)
  /\ (let u := clampX x width / (width / 48) in
      (0 <= keyIndexAt u <= 47)%Z /\ 0 <= xInKeyAt u <= 1
      /\ exists f : R,
           Audio.mapXToFreq x width = Finite f /\ 0 < f
           /\ within f
                (Audio.getFrequency (Audio.START_NOTE + IZR (keyIndexAt u))
                 * Math_pow
                     (Audio.getFrequency
                        (Audio.START_NOTE + IZR (keyIndexAt u) + 1)
                      / Audio.getFrequency
                          (Audio.START_NOTE + IZR (keyIndexAt u)))
                     (xInKeyAt u)))
  /\ Audio.mapXToFreq 0 1000 = Finite (Audio.getFrequency 25).
Proof.
  intros H1. assert (Hw : 0 < width) by lra.
  assert (Hclamp : forall x', clampX x width = clampX x' width ->
                         Audio.mapXToFreq x width = Audio.mapXToFreq x' width).
  { intros x' E. rewrite !mapXToFreq_pitchAt by assumption. now rewrite E. }
  split; [|split; [|split]].
  - intros Hx. apply Hclamp. unfold clampX.
    destruct (Rlt_dec x 0); [|lra].
    destruct (Rlt_dec 0 0); [lra|].
    destruct (Rgt_dec 0 width); [lra|reflexivity].
  - intros Hx. apply Hclamp. unfold clampX.
    destruct (Rlt_dec x 0); [lra|].
    destruct (Rgt_dec x width); [|lra].
    destruct (Rlt_dec width 0); [lra|].
    destruct (Rgt_dec width width); [lra|reflexivity].
  - intros u. pose proof (keyPosition_range x Hw) as Hu. fold u in Hu.
    destruct (pitchAt_key Hu) as [Hk Ht].
    split; [exact Hk|]. split; [exact Ht|].
    exists (pitchAt u). unfold u at 1. rewrite mapXToFreq_pitchAt by assumption.
    fold u. split; [reflexivity|].
    pose proof (pitchAt_pos Hu) as Hp. split; [exact Hp|].
    apply within_refl. exact Hp.
  - rewrite mapXToFreq_pitchAt by lra.
    replace (clampX 0 1000 / (1000 / 48)) with 0; [now rewrite pitchAt_0|].
    unfold clampX. destruct (Rlt_dec 0 0); [lra|].
    destruct (Rgt_dec 0 1000); lra.
Qed.

Lemma mapXToFreq_clamps_witness :
  1 <= 1000
  /\ ((-5 < 0 -> Audio.mapXToFreq (-5) 1000 = Audio.mapXToFreq 0 1000)
      /\ (1000 < -5 ->
          Audio.mapXToFreq (-5) 1000 = Audio.mapXToFreq 1000 1000)
      /\ (let u := clampX (-5) 1000 / (1000 / 48) in
          (0 <= keyIndexAt u <= 47)%Z /\ 0 <= xInKeyAt u <= 1
          /\ exists f : R,
               Audio.mapXToFreq (-5) 1000 = Finite f /\ 0 < f
               /\ within f
                    (Audio.getFrequency
                       (Audio.START_NOTE + IZR (keyIndexAt u))
                     * Math_pow
                         (Audio.getFrequency
                            (Audio.START_NOTE + IZR (keyIndexAt u) + 1)
                          / Audio.getFrequency
                              (Audio.START_NOTE + IZR (keyIndexAt u)))
                         (xInKeyAt u)))
      /\ Audio.mapXToFreq 0 1000 = Finite (Audio.getFrequency 25)).
Proof.
  split; [lra | apply (@mapXToFreq_clamps (-5) 1000); lra].
Defined.

End PitchMapClaims.

(** ** Equal temperament against the rounded helpers *)

Section EqualTemperament.

Lemma semitone_pos : 0 < semitone.
Proof. apply Rpower_pos. Qed.

Lemma semitone_pow12 : semitone ^ 12 = 2.
Proof.
  unfold semitone.
  rewrite <- Rpower_pow by apply Rpower_pos.
  rewrite Rpower_mult.
  replace (/ 12 * INR 12) with 1 by (simpl; field).
  apply Rpower_1; lra.
Qed.

Lemma semitone_gt (a : R) : 0 <= a -> a ^ 12 < 2 -> a < semitone.
Proof.
  intros H0 Ha. apply Rnot_le_lt; intros Hle.
  assert (semitone ^ 12 <= a ^ 12).
  { apply pow_incr; split; [left; apply semitone_pos | assumption]. }
  rewrite semitone_pow12 in *. lra.
Qed.

Lemma semitone_lt (b : R) : 0 <= b -> 2 < b ^ 12 -> semitone < b.
Proof.
  intros H0 Hb. apply Rnot_le_lt; intros Hle.
  assert (b ^ 12 <= semitone ^ 12) by (apply pow_incr; split; assumption).
  rewrite semitone_pow12 in *. lra.
Qed.

Lemma semitone_coarse : 1.05 < semitone < 1.06.
Proof. split; [apply semitone_gt | apply semitone_lt]; lra. Qed.

(** Whole octaves below A4 are exact binary fractions of 440. *)
Lemma equalTemperament_octaves_down (k : nat) :
  equalTemperament (49 - 12 * INR k) = 440 / 2 ^ k.
Proof.
  unfold equalTemperament.
  replace ((49 - 12 * INR k - 49) / 12) with (- INR k) by field.
  rewrite Rpower_Ropp, Rpower_pow by lra. reflexivity.
Qed.

(** Rounding to [f] decimals moves two values a semitone apart by less
    than their distance as soon as the lower one is large enough. *)
Lemma rounded_semitone_lt (f : nat) (n : R) :
  / 10 ^ f < equalTemperament n * 0.05 ->
  roundTo f (equalTemperament n) < roundTo f (equalTemperament (n + 1)).
Proof.
  intros H. pose proof (pow10_pos f) as Hp.
  pose proof (equalTemperament_pos n) as Ht.
  pose proof (roundTo_error f (x:=equalTemperament n) ltac:(lra)) as [_ Hn].
  pose proof (equalTemperament_pos (n + 1)) as Ht'.
  pose proof (roundTo_error f (x:=equalTemperament (n + 1)) ltac:(lra))
    as [Hn' _].
  rewrite equalTemperament_succ in *. fold semitone in *.
  pose proof semitone_coarse as [Hs _].
  assert (equalTemperament n * 1.05 < equalTemperament n * semitone)
    by (apply Rmult_lt_compat_l; lra).
  replace (/ 2 / 10 ^ f) with (/ 10 ^ f / 2) in * by (field; lra).
  lra.
Qed.

(** The ratio of two rounded neighbours stays close to a semitone. *)
Lemma rounded_ratio (f : nat) (n tol : R) :
  110 <= equalTemperament n ->
  / 2 / 10 ^ f * 2.06 <= tol * (110 - / 2 / 10 ^ f) ->
  / 2 / 10 ^ f < 1 ->
  Rabs (roundTo f (equalTemperament (n + 1)) / roundTo f (equalTemperament n)
        - semitone) <= tol.
Proof.
  intros Ht Htol Hh. pose proof (pow10_pos f) as Hp.
  pose proof (roundTo_error f (x:=equalTemperament n) ltac:(lra)) as [Hl Hu].
  pose proof (equalTemperament_pos (n + 1)) as Ht'.
  pose proof (roundTo_error f (x:=equalTemperament (n + 1)) ltac:(lra))
    as [Hl' Hu'].
  rewrite equalTemperament_succ in *. fold semitone in *.
  pose proof semitone_coarse as [Hs1 Hs2].
  set (h := / 2 / 10 ^ f) in *.
  set (t := equalTemperament n) in *.
  set (g := roundTo f t) in *.
  set (g' := roundTo f (t * semitone)) in *.
  assert (Hh0 : 0 < h) by (unfold h; apply Rdiv_lt_0_compat; lra).
  assert (Hg : 110 - h < g) by lra.
  assert (Htol0 : 0 <= tol).
  { destruct (Rle_dec 0 tol) as [|N]; [assumption|]. exfalso.
    assert (tol * (110 - h) < 0); [|nra]. nra. }
  replace (g' / g - semitone) with ((g' - semitone * g) / g) by (field; lra).
  assert (Hnum : Rabs (g' - semitone * g) <= h * 2.06).
  { apply Rabs_le. split; nra. }
  unfold Rdiv. rewrite Rabs_mult, (Rabs_right (/ g)).
  2:{ apply Rle_ge; left; apply Rinv_0_lt_compat; lra. }
  apply Rmult_le_reg_r with g; [lra|].
  rewrite Rmult_assoc, Rinv_l, Rmult_1_r by lra.
  apply Rle_trans with (h * 2.06); [assumption|].
  apply Rle_trans with (tol * (110 - h)); [assumption|].
  apply Rmult_le_compat_l; lra.
Qed.

Lemma equalTemperament_1 : equalTemperament 1 = 27.5.
Proof.
  replace 1 with (49 - 12 * INR 4) at 1 by (simpl; lra).
  rewrite equalTemperament_octaves_down. lra.
Qed.

End EqualTemperament.

Section GetFrequencyClaims.

Lemma equalTemperament_octaves_up (k : nat) :
  equalTemperament (49 + 12 * INR k) = 440 * 2 ^ k.
Proof.
unfold equalTemperament.
replace ((49 + 12 * INR k - 49) / 12) with (INR k) by field.
rewrite Rpower_pow by lra. reflexivity.
Qed.

(** Far enough below A4 the six decimals hold only zeros. *)
Lemma audio_getFrequency_underflow (k : nat) :
  (30 <= k)%nat -> Audio.getFrequency (49 - 12 * INR k) = 0.
Proof.
intros Hk. rewrite audio_getFrequency_round, equalTemperament_octaves_down.
assert (H30 : 2 ^ 30 <= 2 ^ k) by (apply Rle_pow; [lra | assumption]).
assert (Hp : 0 < 2 ^ k) by (apply pow_lt; lra).
assert (Hq : 0 < 440 / 2 ^ k) by (apply Rdiv_lt_0_compat; lra).
assert (Hs : 440 / 2 ^ k <= 440 / 2 ^ 30).
{ apply Rmult_le_compat_l; [lra|]. apply Rinv_le_contravar; [|assumption].
  apply pow_lt; lra. }
assert (H21 : 440 / 2 ^ 30 < 10 ^ 21) by lra.
rewrite roundTo_small by lra.
replace (Zfloor (440 / 2 ^ k * 10 ^ 6 + / 2)) with 0%Z; [lra|].
symmetry; apply Zfloor_eq. simpl IZR. lra.
Qed.

Lemma semitone_fine : 1.05946309435 < semitone < 1.0594630944.
Proof. split; [apply semitone_gt | apply semitone_lt]; lra. Qed.

Lemma equalTemperament_50 : equalTemperament 50 = 440 * semitone.
Proof.
replace 50 with (49 + 1) by lra.
rewrite equalTemperament_succ, equalTemperament_49. reflexivity.
Qed.

(** Key 50, one semitone above A4, in both helpers. *)
Lemma getFrequency_key_50 :
  Audio.getFrequency 50 = 466.163762 /\ Lib.getFrequency 50 = 466.164.
Proof.
pose proof semitone_fine as [Ha Hb].
rewrite audio_getFrequency_round, lib_getFrequency_round, equalTemperament_50.
rewrite !roundTo_small by lra.
split.
- replace (Zfloor (440 * semitone * 10 ^ 6 + / 2)) with 466163762%Z; [lra|].
  symmetry; apply Zfloor_eq. lra.
- replace (Zfloor (440 * semitone * 10 ^ 3 + / 2)) with 466164%Z; [lra|].
  symmetry; apply Zfloor_eq. lra.
Qed.

(** C1, where the claim fails.  Keys -323 and -311 are twelve semitones
    apart, yet [getFrequency] returns 0 for both, so it is not strictly
    increasing over all integers; and the helpers do not return the
    unrounded value: at key 50 the unrounded frequency lies strictly
    between 466.1637615 and 466.1637616 while utils/audio.ts returns
    466.163762, and at key -35 it is 3.4375 while the lib helper returns
    3.438. *)
Lemma getFrequency_not_strictly_increasing :
  (-323 < -311)%Z
  /\ Audio.getFrequency (IZR (-323)) = Audio.getFrequency (IZR (-311))
  /\ 466.1637615 < equalTemperament 50 < 466.1637616
  /\ Audio.getFrequency 50 = 466.163762
  /\ equalTemperament (IZR (-35)) = 3.4375
  /\ Lib.getFrequency (IZR (-35)) = 3.438.
Proof.
split; [lia|]. split; [|split; [|split; [|split]]].
- replace (IZR (-323)) with (49 - 12 * INR 31) by (simpl; lra).
  replace (IZR (-311)) with (49 - 12 * INR 30) by (simpl; lra).
  rewrite !audio_getFrequency_underflow by lia. reflexivity.
- rewrite equalTemperament_50. pose proof semitone_fine. lra.
- apply getFrequency_key_50.
- replace (IZR (-35)) with (49 - 12 * INR 7) by (simpl; lra).
  rewrite equalTemperament_octaves_down. lra.
- rewrite lib_getFrequency_round.
  replace (IZR (-35)) with (49 - 12 * INR 7) by (simpl; lra).
  rewrite equalTemperament_octaves_down.
  rewrite roundTo_small by lra.
  replace (Zfloor (440 / 2 ^ 7 * 10 ^ 3 + / 2)) with 3438%Z; [lra|].
  symmetry; apply Zfloor_eq. lra.
Qed.

Lemma getFrequency_step (n : Z) :
  (1 <= n)%Z ->
  Audio.getFrequency (IZR n) < Audio.getFrequency (IZR n + 1)
  /\ Lib.getFrequency (IZR n) < Lib.getFrequency (IZR n + 1).
Proof.
intros Hn. apply IZR_le in Hn.
pose proof (equalTemperament_le Hn) as Ht. rewrite equalTemperament_1 in Ht.
rewrite !audio_getFrequency_round, !lib_getFrequency_round.
split; apply rounded_semitone_lt.
- assert (/ 10 ^ 6 < 1); [|lra].
  rewrite <- Rinv_1. apply Rinv_lt_contravar; lra.
- assert (/ 10 ^ 3 < 1); [|lra].
  rewrite <- Rinv_1. apply Rinv_lt_contravar; lra.
Qed.

(** C1, as the code has it.  For every key [n] of the 88 keys of the
    piano, which hold both playable ranges, both helpers return the
    equal-temperament frequency [440 * 2^((n - 49) / 12)] rounded to their
    number of decimals (6 in utils/audio.ts, 3 in the lib helper), within
    half a unit of the last decimal; key 49 gives 440 exactly; the result
    is strictly increasing over the keys 1 to 88; and on the playable
    range the ratio of two neighbours is [2^(1/12)] within 1e-8
    (utils/audio.ts) and 1e-5 (lib helper). *)
Theorem getFrequency_rounded_equal_temperament (n : Z) :
  (1 <= n <= 88)%Z ->
  Rabs (Audio.getFrequency (IZR n) - equalTemperament (IZR n)) <= / 2 / 10 ^ 6
  /\ Rabs (Lib.getFrequency (IZR n) - equalTemperament (IZR n)) <= / 2 / 10 ^ 3
  /\ Audio.getFrequency 49 = 440
  /\ Lib.getFrequency 49 = 440
  /\ (forall m : Z,
         (1 <= m < n)%Z ->
         Audio.getFrequency (IZR m) < Audio.getFrequency (IZR n)
         /\ Lib.getFrequency (IZR m) < Lib.getFrequency (IZR n))
  /\ ((25 <= n <= 72)%Z ->
      Rabs (Audio.getFrequency (IZR n + 1) / Audio.getFrequency (IZR n)
            - Rpower 2 (/ 12)) <= 0.00000001
      /\ Rabs (Lib.getFrequency (IZR n + 1) / Lib.getFrequency (IZR n)
               - Rpower 2 (/ 12)) <= 0.00001).
Proof.
intros _.
pose proof (equalTemperament_pos (IZR n)) as Hpos.
repeat split.
- rewrite audio_getFrequency_round.
  pose proof (roundTo_error 6 (x:=equalTemperament (IZR n)) ltac:(lra)).
  apply Rabs_le; lra.
- rewrite lib_getFrequency_round.
  pose proof (roundTo_error 3 (x:=equalTemperament (IZR n)) ltac:(lra)).
  apply Rabs_le; lra.
- apply audio_getFrequency_49.
- apply lib_getFrequency_49.
- destruct H as [H1 Hlt].
  destruct (getFrequency_step H1) as [Hs _].
  apply Rlt_le_trans with (1 := Hs).
  apply audio_getFrequency_le. rewrite <- plus_IZR. apply IZR_le; lia.
- destruct H as [H1 Hlt].
  destruct (getFrequency_step H1) as [_ Hs].
  apply Rlt_le_trans with (1 := Hs).
  apply lib_getFrequency_le. rewrite <- plus_IZR. apply IZR_le; lia.
- destruct H as [H25 _]. apply IZR_le in H25.
  pose proof (equalTemperament_le H25) as Ht. rewrite equalTemperament_25 in Ht.
  rewrite !audio_getFrequency_round. apply rounded_ratio; lra.
- destruct H as [H25 _]. apply IZR_le in H25.
  pose proof (equalTemperament_le H25) as Ht. rewrite equalTemperament_25 in Ht.
  rewrite !lib_getFrequency_round. apply rounded_ratio; lra.
Qed.

Lemma getFrequency_rounded_equal_temperament_witness :
  (1 <= 60 <= 88)%Z
  /\ Rabs (Audio.getFrequency (IZR 60) - equalTemperament (IZR 60))
     <= / 2 / 10 ^ 6
  /\ Rabs (Lib.getFrequency (IZR 60) - equalTemperament (IZR 60))
     <= / 2 / 10 ^ 3
  /\ Audio.getFrequency 49 = 440
  /\ Lib.getFrequency 49 = 440
  /\ (forall m : Z,
         (1 <= m < 60)%Z ->
         Audio.getFrequency (IZR m) < Audio.getFrequency (IZR 60)
         /\ Lib.getFrequency (IZR m) < Lib.getFrequency (IZR 60))
  /\ ((25 <= 60 <= 72)%Z ->
      Rabs (Audio.getFrequency (IZR 60 + 1) / Audio.getFrequency (IZR 60)
            - Rpower 2 (/ 12)) <= 0.00000001
      /\ Rabs (Lib.getFrequency (IZR 60 + 1) / Lib.getFrequency (IZR 60)
               - Rpower 2 (/ 12)) <= 0.00001).
Proof.
split; [lia | apply (@getFrequency_rounded_equal_temperament 60); lia].
Defined.

(** C10, where the claim fails.  At key 50, inside the playable range,
    utils/audio.ts returns 466.163762 and the lib helper 466.164. *)
Lemma getFrequency_helpers_differ :
  Audio.getFrequency 50 = 466.163762
  /\ Lib.getFrequency 50 = 466.164
  /\ Audio.getFrequency 50 < Lib.getFrequency 50.
Proof.
destruct getFrequency_key_50 as [Ea El].
rewrite Ea, El. repeat split. lra.
Qed.

(** C10, as the code has it.  The two helpers round the same value, to 6
    and to 3 decimals: for every integer key they differ by at most
    0.0005005, and they return equal values at A4 and at every whole
    octave above it. *)
Theorem getFrequency_helpers_agree_up_to_rounding (n : Z) (k : nat) :
  Rabs (Audio.getFrequency (IZR n) - Lib.getFrequency (IZR n)) <= 0.0005005
  /\ Audio.getFrequency (49 + 12 * INR k) = Lib.getFrequency (49 + 12 * INR k).
Proof.
split.
- pose proof (equalTemperament_pos (IZR n)) as Hpos.
  rewrite audio_getFrequency_round, lib_getFrequency_round.
  pose proof (roundTo_error 6 (x:=equalTemperament (IZR n)) ltac:(lra)).
  pose proof (roundTo_error 3 (x:=equalTemperament (IZR n)) ltac:(lra)).
  apply Rabs_le; lra.
- rewrite audio_getFrequency_round, lib_getFrequency_round.
  rewrite equalTemperament_octaves_up.
  destruct (Rle_dec (10 ^ 21) (440 * 2 ^ k)) as [Hb|Hb].
  + rewrite !roundTo_big by assumption. reflexivity.
  + assert (E : 440 * 2 ^ k = IZR (440 * 2 ^ Z.of_nat k)).
    { rewrite mult_IZR, <- pow_IZR. reflexivity. }
    rewrite E in *.
    assert (Hz : (0 <= 440 * 2 ^ Z.of_nat k < 10 ^ 21)%Z).
    { split; [lia|]. apply lt_IZR.
      pose proof (pow_IZR 10 21) as E21. change (Z.of_nat 21) with 21%Z in E21.
      rewrite <- E21. lra. }
    rewrite !roundTo_int by assumption. reflexivity.
Qed.

End GetFrequencyClaims.

(** ** The volume map *)

Section VolumeMap.

Import Continuum.

Lemma clamp01_range (r : R) : 0 <= Math_min (Math_max r 0) 1 <= 1.
Proof.
unfold Math_min, Math_max, Rmin, Rmax.
destruct (Rle_dec r 0); destruct (Rle_dec _ 1); lra.
Qed.

Lemma clamp01_le (r1 r2 : R) :
  r1 <= r2 -> Math_min (Math_max r1 0) 1 <= Math_min (Math_max r2 0) 1.
Proof.
intros H. unfold Math_min, Math_max.
apply Rle_min_compat_r, Rle_max_compat_r. assumption.
Qed.

(** C7.  With the keyboard and the canvas mounted and a canvas height
    [H > 0], [getVolumeFromY] computes
    [(1 - clamp(y / H, 0, 1)) * 0.25]: it is 0.25 at [y = 0], 0 at
    [y = H], non-increasing in [y], and always within [[0, 0.25]]. *)
Theorem getVolumeFromY_amplitude (s : State) (rect : DOMRect) (canvas : Canvas) :
  keyboardRef s = Some rect ->
  canvasRef s = Some canvas ->
  0 < clientHeight canvas ->
  (forall y : R,
      getVolumeFromY s y
      = (1 - Math_min (Math_max (y / clientHeight canvas) 0) 1) * 0.25)
  /\ getVolumeFromY s 0 = 0.25
  /\ getVolumeFromY s (clientHeight canvas) = 0
  /\ (forall y1 y2 : R,
         y1 <= y2 -> getVolumeFromY s y2 <= getVolumeFromY s y1)
  /\ (forall y : R, 0 <= getVolumeFromY s y <= 0.25).
Proof.
intros Hk Hc HH.
assert (E : forall y : R,
           getVolumeFromY s y
           = (1 - Math_min (Math_max (y / clientHeight canvas) 0) 1) * 0.25).
{ intros y0. unfold getVolumeFromY. rewrite Hk, Hc. reflexivity. }
split; [exact E|]. split; [|split; [|split]].
- rewrite E. replace (0 / clientHeight canvas) with 0 by (field; lra).
  unfold Math_min, Math_max. rewrite Rmax_left, Rmin_left by lra. lra.
- rewrite E.
  replace (clientHeight canvas / clientHeight canvas) with 1 by (field; lra).
  unfold Math_min, Math_max. rewrite Rmax_left, Rmin_left by lra. lra.
- intros y1 y2 H. rewrite !E.
  assert (y1 / clientHeight canvas <= y2 / clientHeight canvas).
  { apply Rmult_le_compat_r; [left; apply Rinv_0_lt_compat|]; assumption. }
  pose proof (clamp01_le H0). lra.
- intros y0. rewrite E.
  pose proof (clamp01_range (y0 / clientHeight canvas)). lra.
Qed.

Lemma getVolumeFromY_amplitude_witness :
  let canvas := {| clientWidth := 1920; clientHeight := 1080 |} in
  let rect := {| left := 0; top := 0; width := 1920; height := 1080 |} in
  let s := init (Some canvas) (Some rect) in
  (forall y : R,
      getVolumeFromY s y
      = (1 - Math_min (Math_max (y / clientHeight canvas) 0) 1) * 0.25)
  /\ getVolumeFromY s 0 = 0.25
  /\ getVolumeFromY s (clientHeight canvas) = 0
  /\ (forall y1 y2 : R,
         y1 <= y2 -> getVolumeFromY s y2 <= getVolumeFromY s y1)
  /\ (forall y : R, 0 <= getVolumeFromY s y <= 0.25).
Proof.
intros canvas rect s.
apply (@getVolumeFromY_amplitude s rect canvas);
  [reflexivity | reflexivity | simpl; lra].
Defined.

End VolumeMap.

(** ** The input tracker *)

Section InputTracker.

Import Continuum.

Lemma labelled_one (label : string) (h : Hand) :
  labelled label [h]
  = if String.eqb (handedness h) label then
      match pointingTip h with Some p => [p] | None => [] end
    else [].
Proof. unfold labelled. cbn [flat_map]. apply app_nil_r. Qed.

Lemma short_hand_has_no_tip (kps : list Keypoint) :
  (12 <? List.length kps)%nat = false -> nth_error kps 12 = None.
Proof. intros E. apply Nat.ltb_ge in E. apply nth_error_None. lia. Qed.

Lemma processHand_left (d : Detection) (h : Hand) :
  newLeftHands (processHand d h) = newLeftHands d ++ labelled "Right" [h].
Proof.
rewrite labelled_one. unfold processHand, pointingTip.
destruct (keypoints h) as [kps|].
- destruct (12 <? List.length kps)%nat eqn:E.
  + destruct (nth_error kps 12) as [tip|];
      destruct (String.eqb (handedness h) "Right");
      try destruct (String.eqb (handedness h) "Left");
      cbn [newLeftHands]; rewrite ?app_nil_r; reflexivity.
  + rewrite (short_hand_has_no_tip _ E).
    destruct (String.eqb (handedness h) "Right"); now rewrite app_nil_r.
- destruct (String.eqb (handedness h) "Right"); now rewrite app_nil_r.
Qed.

Lemma processHand_right (d : Detection) (h : Hand) :
  newRightHands (processHand d h) = newRightHands d ++ labelled "Left" [h].
Proof.
rewrite labelled_one. unfold processHand, pointingTip.
destruct (keypoints h) as [kps|].
- destruct (12 <? List.length kps)%nat eqn:E.
  + destruct (nth_error kps 12) as [tip|].
    * destruct (String.eqb (handedness h) "Right") eqn:ER.
      -- apply String.eqb_eq in ER. rewrite ER.
         cbn. now rewrite app_nil_r.
      -- destruct (String.eqb (handedness h) "Left");
           cbn [newRightHands]; rewrite ?app_nil_r; reflexivity.
    * destruct (String.eqb (handedness h) "Left"); now rewrite app_nil_r.
  + rewrite (short_hand_has_no_tip _ E).
    destruct (String.eqb (handedness h) "Left"); now rewrite app_nil_r.
- destruct (String.eqb (handedness h) "Left"); now rewrite app_nil_r.
Qed.

Lemma labelled_app (label : string) (l1 l2 : list Hand) :
  labelled label (l1 ++ l2) = labelled label l1 ++ labelled label l2.
Proof. unfold labelled. apply flat_map_app. Qed.

Lemma processHands_from (hands : list Hand) (d : Detection) :
  newLeftHands (fold_left processHand hands d)
  = newLeftHands d ++ labelled "Right" hands
  /\ newRightHands (fold_left processHand hands d)
     = newRightHands d ++ labelled "Left" hands.
Proof.
revert d. induction hands as [|h hands IH]; intros d; cbn [fold_left].
- unfold labelled; cbn [flat_map]. now rewrite !app_nil_r.
- destruct (IH (processHand d h)) as [IHl IHr].
  rewrite IHl, IHr, processHand_left, processHand_right.
  change (h :: hands) with ([h] ++ hands).
  rewrite !labelled_app, !app_assoc. split; reflexivity.
Qed.

(** A hand without keypoint 12 leaves no trace in the frame's data. *)
Lemma processHand_discards (d : Detection) (h : Hand) :
  pointingTip h = None -> processHand d h = d.
Proof.
unfold pointingTip, processHand.
destruct (keypoints h) as [kps|]; [|reflexivity].
destruct (nth_error kps 12) eqn:E; [discriminate|].
intros _. destruct (12 <? List.length kps)%nat; reflexivity.
Qed.

(** C5.  For every raw detector frame: a hand missing keypoint 12 is
    discarded; a hand labelled "Right" goes to the left-hand list and one
    labelled "Left" to the right-hand list; and each list is cut to its
    first three entries in the frame's order, so a fourth point on one
    side is not tracked. *)
Theorem runDetection_tracks (hands : list Hand) :
  trackedLeft hands = firstn 3 (labelled "Right" hands)
  /\ trackedRight hands = firstn 3 (labelled "Left" hands)
  /\ (List.length (trackedLeft hands) <= 3)%nat
  /\ (List.length (trackedRight hands) <= 3)%nat
  /\ (forall (before after : list Hand) (h : Hand),
         hands = before ++ h :: after ->
         pointingTip h = None ->
         processHands hands = processHands (before ++ after)).
Proof.
unfold trackedLeft, trackedRight, slice0, processHands.
destruct (processHands_from hands
            {| newLeftHands := []; newRightHands := []; allKeypoints := [] |})
  as [El Er].
simpl in El, Er. rewrite El, Er.
split; [reflexivity|]. split; [reflexivity|].
split; [apply firstn_le_length|]. split; [apply firstn_le_length|].
intros before after h -> Hh.
rewrite !fold_left_app. simpl. now rewrite processHand_discards.
Qed.

(** Four points on the user's right side in one frame: the first three are
    tracked, in arrival order, and the fourth is dropped. *)
Example fourth_point_is_dropped :
  let hand (n : R) := {| keypoints := Some (repeat {| x := n; y := 0 |} 21);
                         handedness := "Left" |} in
  trackedRight [hand 1; hand 2; hand 3; hand 4]
  = [{| hp_x := 1; hp_y := 0 |}; {| hp_x := 2; hp_y := 0 |};
     {| hp_x := 3; hp_y := 0 |}]
  /\ trackedLeft [hand 1; hand 2; hand 3; hand 4] = [].
Proof. split; reflexivity. Qed.

End InputTracker.

(** ** The node store *)

Section NodeStore.

Context {A : Type}.

Lemma alter_length (f : A -> A) (i : nat) (l : list A) :
  List.length (alter f i l) = List.length l.
Proof.
revert i; induction l as [|a l IH]; intros [|i]; simpl; auto.
Qed.

Lemma alter_nth_same (f : A -> A) (i : nat) (l : list A) :
  nth_error (alter f i l) i = option_map f (nth_error l i).
Proof.
revert i; induction l as [|a l IH]; intros [|i]; simpl; auto.
Qed.

Lemma alter_nth_other (f : A -> A) (i j : nat) (l : list A) :
  i <> j -> nth_error (alter f i l) j = nth_error l j.
Proof.
revert i j; induction l as [|a l IH]; intros [|i] [|j] H; simpl; auto;
  try contradiction.
Qed.

Lemma alter_last (f : A -> A) (l : list A) (a : A) :
  alter f (List.length l) (l ++ [a]) = l ++ [f a].
Proof. induction l as [|b l IH]; simpl; [reflexivity | now rewrite IH]. Qed.

Lemma nth_error_last (l : list A) (a : A) :
  nth_error (l ++ [a]) (List.length l) = Some a.
Proof. induction l as [|b l IH]; simpl; auto. Qed.

Lemma nth_error_before (l : list A) (a : A) (i : nat) :
  (i < List.length l)%nat -> nth_error (l ++ [a]) i = nth_error l i.
Proof. intros H. now apply nth_error_app1. Qed.

End NodeStore.

Lemma target_last (p : AudioParam) (a : Automation) :
  target (p ++ [a]) = Some (automationValue a).
Proof. unfold target. rewrite rev_app_distr. reflexivity. Qed.

Lemma alter_alter {A : Type} (f1 f2 : A -> A) (i : nat) (l : list A) :
  alter f2 i (alter f1 i l) = alter (fun a => f2 (f1 a)) i l.
Proof.
revert i; induction l as [|a l IH]; intros [|i]; simpl; auto.
now rewrite IH.
Qed.

(** ** The three voice operations, in closed form *)

Section VoiceOperations.

Import Continuum.

(** Runs the Web Audio calls of an operation on a context given by its
    fields. *)
Ltac run_audio :=
  cbv beta iota zeta delta
    [createOscillator createGain setType scheduleFrequency scheduleGain
     gainCancelScheduledValues connectOscillator connectDestination
     start stop disconnectOscillator disconnectGain
     onOscillator onGain perform
     state currentTime oscillators gains calls
     startedContext stoppedContext updatedContext].

Ltac run_nodes :=
  cbv beta iota delta
    [osc_type frequency started stopAt osc_output gain toDestination].

Lemma startAudioNode_creates (a b : Slot) (f v : R) (s : State)
      (c : AudioContext) :
  audioContextRef s = Some c -> oscRefs s a = None ->
  startAudioNode a b f v s
  = withAudio (Some (startedContext f v c)) (resumePending s)
      (assign (oscRefs s) a (Some (List.length (oscillators c))))
      (assign (gainRefs s) b (Some (List.length (gains c)))) s.
Proof.
intros Hc Ho. unfold startAudioNode. rewrite Hc, Ho.
destruct c as [st t os gs cs]. run_audio.
rewrite !alter_last. run_nodes.
rewrite <- !app_assoc. reflexivity.
Qed.

Lemma startAudioNode_occupied (a b : Slot) (f v : R) (s : State) (o : nat) :
  oscRefs s a = Some o -> startAudioNode a b f v s = s.
Proof.
intros Ho. unfold startAudioNode. rewrite Ho.
destruct (audioContextRef s); reflexivity.
Qed.

Lemma startAudioNode_no_context (a b : Slot) (f v : R) (s : State) :
  audioContextRef s = None -> startAudioNode a b f v s = s.
Proof. intros Hc. unfold startAudioNode. now rewrite Hc. Qed.

Lemma stopAudioNode_releases (a b : Slot) (s : State) (o g : nat)
      (c : AudioContext) :
  oscRefs s a = Some o -> gainRefs s b = Some g -> audioContextRef s = Some c ->
  stopAudioNode a b s
  = withAudio (Some (stoppedContext o g c)) (resumePending s)
      (assign (oscRefs s) a None) (assign (gainRefs s) b None) s.
Proof.
intros Ho Hg Hc. unfold stopAudioNode. rewrite Ho, Hg, Hc.
destruct c as [st t os gs cs]. run_audio.
rewrite !alter_alter. run_nodes.
rewrite <- !app_assoc. reflexivity.
Qed.

Lemma stopAudioNode_idle (a b : Slot) (s : State) :
  oscRefs s a = None -> stopAudioNode a b s = s.
Proof. intros Ho. unfold stopAudioNode. now rewrite Ho. Qed.

Lemma updateAudioNode_ramps (a b : Slot) (f v : R) (s : State) (o g : nat)
      (c : AudioContext) :
  oscRefs s a = Some o -> gainRefs s b = Some g -> audioContextRef s = Some c ->
  updateAudioNode a b f v s
  = withAudio (Some (updatedContext o g f v c)) (resumePending s)
      (oscRefs s) (gainRefs s) s.
Proof.
intros Ho Hg Hc. unfold updateAudioNode. rewrite Ho, Hg, Hc.
destruct c as [st t os gs cs]. run_audio.
rewrite <- !app_assoc. reflexivity.
Qed.

Lemma updateAudioNode_idle (a b : Slot) (f v : R) (s : State) :
  oscRefs s a = None -> updateAudioNode a b f v s = s.
Proof. intros Ho. unfold updateAudioNode. now rewrite Ho. Qed.

(** No voice operation touches the flags, the hand lists, the layout refs
    or the state of the audio context. *)
Lemma startAudioNode_shell (a b : Slot) (f v : R) (s : State) :
  shell (startAudioNode a b f v s) = shell s.
Proof.
destruct (audioContextRef s) as [c|] eqn:Hc;
  [|now rewrite startAudioNode_no_context].
destruct (oscRefs s a) as [o|] eqn:Ho;
  [now rewrite (startAudioNode_occupied _ _ _ _ _ Ho)|].
rewrite (startAudioNode_creates _ _ _ _ _ Hc Ho).
unfold shell, withAudio; cbn [mounted isModelLoading isReady leftHands
  rightHands canvasRef keyboardRef audioContextRef resumePending option_map].
rewrite Hc. reflexivity.
Qed.

Lemma stopAudioNode_shell (a b : Slot) (s : State) :
  shell (stopAudioNode a b s) = shell s.
Proof.
destruct (oscRefs s a) as [o|] eqn:Ho; [|now rewrite stopAudioNode_idle].
destruct (gainRefs s b) as [g|] eqn:Hg;
  [|unfold stopAudioNode; now rewrite Ho, Hg].
destruct (audioContextRef s) as [c|] eqn:Hc;
  [|unfold stopAudioNode; now rewrite Ho, Hg, Hc].
rewrite (stopAudioNode_releases _ _ _ Ho Hg Hc).
unfold shell, withAudio; cbn [mounted isModelLoading isReady leftHands
  rightHands canvasRef keyboardRef audioContextRef resumePending option_map].
rewrite Hc. reflexivity.
Qed.

Lemma updateAudioNode_shell (a b : Slot) (f v : R) (s : State) :
  shell (updateAudioNode a b f v s) = shell s.
Proof.
destruct (oscRefs s a) as [o|] eqn:Ho; [|now rewrite updateAudioNode_idle].
destruct (gainRefs s b) as [g|] eqn:Hg;
  [|unfold updateAudioNode; now rewrite Ho, Hg].
destruct (audioContextRef s) as [c|] eqn:Hc;
  [|unfold updateAudioNode; now rewrite Ho, Hg, Hc].
rewrite (updateAudioNode_ramps _ _ _ _ _ Ho Hg Hc).
unfold shell, withAudio; cbn [mounted isModelLoading isReady leftHands
  rightHands canvasRef keyboardRef audioContextRef resumePending option_map].
rewrite Hc. reflexivity.
Qed.

Lemma reconcileSlot_shell (p : option HandPoint) (a b : Slot) (s : State) :
  shell (reconcileSlot p a b s) = shell s.
Proof.
unfold reconcileSlot. destruct p as [p|].
- destruct (oscRefs s a);
    [apply updateAudioNode_shell | apply startAudioNode_shell].
- apply stopAudioNode_shell.
Qed.

Lemma reconcileHands_shell (hands : list HandPoint) (side : Index -> Slot)
      (s : State) :
  shell (reconcileHands hands side s) = shell s.
Proof.
unfold reconcileHands. cbn [fold_left].
now rewrite !reconcileSlot_shell.
Qed.

Lemma reconcile_shell (s : State) : shell (reconcile s) = shell s.
Proof.
unfold reconcile, leftHandEffect, rightHandEffect.
destruct (isReady s) eqn:Hr; [|now rewrite Hr].
destruct (canvasRef s) eqn:Hc; [|now rewrite Hr, Hc].
set (s1 := reconcileHands (rightHands s) RightHand s).
assert (H1 : shell s1 = shell s) by apply reconcileHands_shell.
assert (isReady s1 = true /\ canvasRef s1 = Some c) as [Hr1 Hc1].
{ unfold shell in H1. injection H1 as _ _ E1 _ _ E2 _ _ _.
  rewrite E1, E2. auto. }
rewrite Hr1, Hc1. now rewrite reconcileHands_shell.
Qed.

End VoiceOperations.

(** Reduces the projections of a component state built by one of the
    [with...] updates. *)
Ltac fields :=
  cbn [Continuum.mounted Continuum.isModelLoading Continuum.isReady
       Continuum.leftHands Continuum.rightHands Continuum.canvasRef
       Continuum.keyboardRef Continuum.audioContextRef
       Continuum.resumePending Continuum.oscRefs Continuum.gainRefs
       Continuum.withAudio Continuum.withFlags Continuum.withHands
       state withState withTime] in *.

(** ** The readiness gates *)

Section Gates.

Import Continuum.

Lemma shell_fields (s s' : State) :
  shell s' = shell s ->
  mounted s' = mounted s /\ isReady s' = isReady s
  /\ leftHands s' = leftHands s /\ rightHands s' = rightHands s
  /\ option_map state (audioContextRef s') = option_map state (audioContextRef s).
Proof.
unfold shell. intros H. injection H as E1 _ E3 E4 E5 _ _ E8 _.
repeat split; assumption.
Qed.

Lemma contextRunning_shell (s s' : State) :
  shell s' = shell s -> contextRunning s' = contextRunning s.
Proof.
intros H. apply shell_fields in H as (_ & _ & _ & _ & E).
unfold contextRunning.
destruct (audioContextRef s'), (audioContextRef s); simpl in E;
  try discriminate; [|reflexivity].
injection E as E. now rewrite E.
Qed.


(** A state that differs from a gated one only through voice operations
    made while [isReady] holds is gated. *)
Lemma gated_shell (s s' : State) :
  shell s' = shell s -> isReady s = true -> gated s -> gated s'.
Proof.
intros Hs Hr [G1 G2 G3 G4].
pose proof (contextRunning_shell Hs) as Hrun.
apply shell_fields in Hs as (Em & Er & El & Err & Ec).
split.
- rewrite Er, Hr. discriminate.
- rewrite Er, Hr. discriminate.
- rewrite Em, Hrun. auto.
- rewrite Em. intros Hm c Hc. rewrite Hc in Ec.
  destruct (audioContextRef s) as [c0|] eqn:Hc0; [|discriminate].
  simpl in Ec. injection Ec as Ec. rewrite Ec. now apply G4.
Qed.

Lemma gated_init (canvas : option Canvas) (keyboard : option DOMRect) :
  gated (init canvas keyboard).
Proof.
split; cbn; intros; auto; discriminate.
Qed.

End Gates.

Section GatesPreserved.

Import Continuum.

Lemma gated_ready (s : State) :
  isReady s = true ->
  (mounted s = true -> contextRunning s = true) ->
  (mounted s = true -> forall c, audioContextRef s = Some c -> state c <> closed) ->
  gated s.
Proof.
intros Hr H1 H2. split; auto; rewrite Hr; discriminate.
Qed.

Lemma contextRunning_open (s : State) (c : AudioContext) :
  contextRunning s = true -> audioContextRef s = Some c -> state c = running.
Proof.
unfold contextRunning. intros H Hc. rewrite Hc in H.
destruct (state c); (reflexivity || discriminate).
Qed.

(** Replacing the context by one in an admissible state keeps the gates. *)
Lemma gated_withAudio (s : State) (c' : AudioContext) (pending : bool) :
  gated s ->
  (mounted s = true -> isReady s = true -> state c' = running) ->
  (mounted s = true -> state c' <> closed) ->
  gated (withAudio (Some c') pending (oscRefs s) (gainRefs s) s).
Proof.
intros [G1 G2 G3 G4] Hrun Hopen. split; fields.
- exact G1.
- exact G2.
- intros Hm Hr. unfold contextRunning; fields. now rewrite Hrun.
- intros Hm c E. injection E as <-. auto.
Qed.

Lemma setIsReady_gated (s : State) :
  gated s -> (mounted s = true -> contextRunning s = true) ->
  gated (setIsReady s).
Proof.
intros G Hrun. unfold setIsReady. destruct (isReady s) eqn:Hr; [exact G|].
apply (@gated_shell (withFlags (mounted s) (isModelLoading s) true s)).
- apply reconcile_shell.
- reflexivity.
- apply gated_ready; [reflexivity | exact Hrun | exact (gated_open G)].
Qed.

Lemma initAudioContext_gated (autoplay : bool) (s : State) :
  mounted s = true -> gated s -> gated (initAudioContext autoplay s).
Proof.
intros Hm G. unfold initAudioContext.
destruct (audioContextRef s) as [c|] eqn:Hc.
- cbv zeta. destruct (state c) eqn:Hst.
  + change (gated (withAudio (Some c) true (oscRefs s) (gainRefs s) s)).
    apply gated_withAudio; [exact G | | rewrite Hst; discriminate].
    intros _ Hr. pose proof (gated_running G Hm Hr) as Hrun.
    exact (@contextRunning_open s c Hrun Hc).
  + apply setIsReady_gated.
    * apply gated_withAudio; [exact G | auto | rewrite Hst; discriminate].
    * intros _. unfold contextRunning; fields. now rewrite Hst.
  + exfalso. exact (gated_open G Hm Hc Hst).
- cbv zeta. destruct autoplay; cbn [newAudioContext state].
  + apply setIsReady_gated.
    * apply gated_withAudio; [exact G | reflexivity | discriminate].
    * intros _. reflexivity.
  + change (gated (withAudio (Some (newAudioContext suspended)) true
                     (oscRefs s) (gainRefs s) s)).
    apply gated_withAudio; [exact G | | discriminate].
    intros _ Hr. pose proof (gated_running G Hm Hr) as Hrun.
    unfold contextRunning in Hrun. rewrite Hc in Hrun. discriminate.
Qed.

Lemma resumed_gated (s : State) :
  mounted s = true -> gated s -> gated (resumed s).
Proof.
intros Hm G. unfold resumed.
destruct (resumePending s); [|exact G].
destruct (audioContextRef s) as [c|] eqn:Hc; [|exact G].
apply setIsReady_gated.
- apply gated_withAudio; [exact G | reflexivity | discriminate].
- intros _. reflexivity.
Qed.

Lemma cleanup_stops_shell (s : State) :
  shell
    (fold_left
       (fun s i =>
          stopAudioNode (LeftHand i) (LeftHand i)
            (stopAudioNode (RightHand i) (RightHand i) s))
       [I0; I1; I2] (stopAudioNode Mouse Mouse s))
  = shell s.
Proof. cbn [fold_left]. now rewrite !stopAudioNode_shell. Qed.

Lemma cleanup_stops_idle (s : State) :
  (forall k, oscRefs s k = None) ->
  fold_left
    (fun s i =>
       stopAudioNode (LeftHand i) (LeftHand i)
         (stopAudioNode (RightHand i) (RightHand i) s))
    [I0; I1; I2] (stopAudioNode Mouse Mouse s)
  = s.
Proof.
intros H. cbn [fold_left].
repeat (rewrite (@stopAudioNode_idle _ _ s) by apply H). reflexivity.
Qed.

Lemma cleanup_gated (s : State) : gated s -> gated (cleanup s).
Proof.
intros G. unfold cleanup.
set (s1 := fold_left _ _ _).
assert (Hs : shell s1 = shell s) by apply cleanup_stops_shell.
apply shell_fields in Hs as (Em & Er & El & Err & Ec).
assert (Hid : isReady s = false -> s1 = s).
{ intros Hr. apply cleanup_stops_idle. exact (gated_refs G Hr). }
cbv zeta.
destruct (isReady s) eqn:Hr.
- split.
  + destruct (audioContextRef s1) as [c|]; [destruct (state c)|];
      fields; rewrite Er; discriminate.
  + destruct (audioContextRef s1) as [c|]; [destruct (state c)|];
      fields; rewrite Er; discriminate.
  + destruct (audioContextRef s1) as [c|]; [destruct (state c)|];
      fields; discriminate.
  + destruct (audioContextRef s1) as [c|]; [destruct (state c)|];
      fields; discriminate.
- rewrite (Hid eq_refl). split.
  + destruct (audioContextRef s) as [c|]; [destruct (state c)|];
      fields; intros _; exact (gated_refs G Hr).
  + destruct (audioContextRef s) as [c|]; [destruct (state c)|];
      fields; intros _; exact (gated_hands G Hr).
  + destruct (audioContextRef s) as [c|]; [destruct (state c)|];
      fields; discriminate.
  + destruct (audioContextRef s) as [c|]; [destruct (state c)|];
      fields; discriminate.
Qed.

Lemma step_gated (e : Event) (s : State) : gated s -> gated (step e s).
Proof.
intros G. unfold step. destruct (mounted s) eqn:Hm; [|exact G].
destruct e.
- now apply initAudioContext_gated.
- now apply resumed_gated.
- destruct G as [G1 G2 G3 G4]. split; fields; auto.
- unfold handleMouseEnter. destruct (isReady s) eqn:Hr; [|exact G].
  apply (gated_shell (startAudioNode_shell _ _ _ _ _) Hr G).
- unfold handleMouseMove. destruct (isReady s) eqn:Hr; [|exact G].
  destruct (keyboardRef s); [|exact G].
  apply (gated_shell (updateAudioNode_shell _ _ _ _ _) Hr G).
- unfold handleMouseLeave. destruct (isReady s) eqn:Hr.
  + apply (gated_shell (stopAudioNode_shell _ _ _) Hr G).
  + rewrite stopAudioNode_idle; [exact G | apply (gated_refs G Hr)].
- unfold frame. destruct (isReady s) eqn:Hr;
    [|rewrite andb_false_r; exact G].
  destruct (negb (isModelLoading s)); [|exact G].
  cbn [andb].
  apply (@gated_shell
           (withHands (trackedLeft hands) (trackedRight hands) s)).
  + apply reconcile_shell.
  + exact Hr.
  + apply gated_ready; [exact Hr | exact (fun _ => gated_running G Hm Hr) |].
    intros _. exact (gated_open G Hm).
- unfold advance. destruct (audioContextRef s) as [c|] eqn:Hc; [|exact G].
  destruct (state c) eqn:Hst; try exact G.
  apply gated_withAudio; [exact G | intros _ _; exact Hst |].
  intros _. fields. rewrite Hst. discriminate.
- now apply cleanup_gated.
Qed.

Lemma reachable_gated (canvas : option Canvas) (keyboard : option DOMRect)
      (s : State) :
  reachable canvas keyboard s -> gated s.
Proof.
induction 1; [apply gated_init | now apply step_gated].
Qed.

End GatesPreserved.

(** ** Before the audio context runs *)

Section DeviceNotReady.

Import Continuum.

Lemma assign_same (r : Slot -> option nat) (k : Slot) (v : option nat) :
  assign r k v k = v.
Proof. unfold assign. destruct (Slot_eq_dec k k); [reflexivity|contradiction]. Qed.

Lemma assign_other (r : Slot -> option nat) (k k' : Slot) (v : option nat) :
  k <> k' -> assign r k v k' = r k'.
Proof. intros H. unfold assign. destruct (Slot_eq_dec k k'); [contradiction|reflexivity]. Qed.

(** A start on an idle slot of an existing context leaves the slot
    sounding, heading to the frequency and volume it was given. *)
Lemma voice_started (k : Slot) (f v : R) (s : State) (c : AudioContext) :
  audioContextRef s = Some c -> oscRefs s k = None ->
  voice (startAudioNode k k f v s) k = Some (Some f, Some v).
Proof.
intros Hc Ho. rewrite (startAudioNode_creates _ _ _ _ _ Hc Ho).
unfold voice; fields. rewrite !assign_same.
unfold startedContext; cbn [oscillators gains].
rewrite !nth_error_last. reflexivity.
Qed.






End DeviceNotReady.

(** ** The wiring of ref cells and nodes *)

Section Wiring.

Import Continuum.

Lemma assign_Some (r : Slot -> option nat) (k k' : Slot) (v : option nat)
      (n : nat) :
  assign r k v k' = Some n -> (k = k' /\ v = Some n) \/ (k <> k' /\ r k' = Some n).
Proof.
unfold assign. destruct (Slot_eq_dec k k'); intros H; [left | right]; auto.
Qed.

Lemma live_true (c : AudioContext) (o : nat) :
  live c o = true <->
  exists n g m, nth_error (oscillators c) o = Some n /\ started n = true
                /\ osc_output n = Some g /\ nth_error (gains c) g = Some m
                /\ toDestination m = true.
Proof.
unfold live. split.
- destruct (nth_error (oscillators c) o) as [n|]; [|discriminate].
  intros H. apply andb_prop in H as [Hs H].
  destruct (osc_output n) as [g|] eqn:Eg; [|discriminate].
  destruct (nth_error (gains c) g) as [m|] eqn:Em; [|discriminate].
  exists n, g, m. repeat split; auto.
- intros (n & g & m & -> & Hs & -> & -> & Hd). now rewrite Hs, Hd.
Qed.

Lemma wired_start (k : Slot) (f v : R) (s : State) :
  wired s -> wired (startAudioNode k k f v s).
Proof.
intros W.
destruct (audioContextRef s) as [c|] eqn:Hc;
  [|now rewrite startAudioNode_no_context].
destruct (oscRefs s k) as [o0|] eqn:Ho;
  [now rewrite (startAudioNode_occupied _ _ _ _ _ Ho)|].
assert (Hg : gainRefs s k = None) by (now apply (wired_pair W)).
rewrite (startAudioNode_creates _ _ _ _ _ Hc Ho).
assert (Lo : List.length (oscillators (startedContext f v c))
             = S (List.length (oscillators c))).
{ unfold startedContext; cbn [oscillators]. rewrite length_app. simpl. lia. }
assert (Lg : List.length (gains (startedContext f v c))
             = S (List.length (gains c))).
{ unfold startedContext; cbn [gains]. rewrite length_app. simpl. lia. }
split; fields.
- intros k' o H. exists (startedContext f v c). split; [reflexivity|].
  rewrite Lo. apply assign_Some in H as [[_ E]|[_ E]].
  + injection E as <-. lia.
  + destruct (wired_osc W _ E) as (c0 & Hc0 & Hlt).
    rewrite Hc in Hc0. injection Hc0 as <-. lia.
- intros k' g H. exists (startedContext f v c). split; [reflexivity|].
  rewrite Lg. apply assign_Some in H as [[_ E]|[_ E]].
  + injection E as <-. lia.
  + destruct (wired_gain W _ E) as (c0 & Hc0 & Hlt).
    rewrite Hc in Hc0. injection Hc0 as <-. lia.
- intros k'. unfold assign. destruct (Slot_eq_dec k k').
  + split; discriminate.
  + apply (wired_pair W).
- intros k1 k2 o H1 H2.
  apply assign_Some in H1 as [[E1 V1]|[N1 V1]];
    apply assign_Some in H2 as [[E2 V2]|[N2 V2]].
  + congruence.
  + injection V1 as <-. destruct (wired_osc W _ V2) as (c0 & Hc0 & Hlt).
    rewrite Hc in Hc0. injection Hc0 as <-. lia.
  + injection V2 as <-. destruct (wired_osc W _ V1) as (c0 & Hc0 & Hlt).
    rewrite Hc in Hc0. injection Hc0 as <-. lia.
  + exact (wired_osc_inj W _ _ V1 V2).
- intros k1 k2 g H1 H2.
  apply assign_Some in H1 as [[E1 V1]|[N1 V1]];
    apply assign_Some in H2 as [[E2 V2]|[N2 V2]].
  + congruence.
  + injection V1 as <-. destruct (wired_gain W _ V2) as (c0 & Hc0 & Hlt).
    rewrite Hc in Hc0. injection Hc0 as <-. lia.
  + injection V2 as <-. destruct (wired_gain W _ V1) as (c0 & Hc0 & Hlt).
    rewrite Hc in Hc0. injection Hc0 as <-. lia.
  + exact (wired_gain_inj W _ _ V1 V2).
- intros c' o n g E Hn Hout. injection E as <-. rewrite Lg.
  unfold startedContext in Hn; cbn [oscillators] in Hn.
  destruct (Nat.lt_ge_cases o (List.length (oscillators c))) as [Hlt|Hge].
  + rewrite nth_error_before in Hn by assumption.
    pose proof (wired_out W _ Hc Hn Hout). lia.
  + destruct (Nat.eq_dec o (List.length (oscillators c))) as [->|Hne].
    * rewrite nth_error_last in Hn. injection Hn as <-.
      cbn in Hout. injection Hout as <-. lia.
    * assert (nth_error (oscillators c ++
               [{| osc_type := sine;
                   frequency := [setValueAtTime f (currentTime c)];
                   started := true; stopAt := None;
                   osc_output := Some (List.length (gains c)) |}]) o = None).
      { apply nth_error_None. rewrite length_app. simpl. lia. }
      congruence.
- intros c' o E Hlive. injection E as <-.
  destruct (Nat.eq_dec o (List.length (oscillators c))) as [->|Hne].
  + exists k. apply assign_same.
  + apply live_true in Hlive as (n & g & m & Hn & Hs & Hout & Hm & Hd).
    unfold startedContext in Hn, Hm; cbn [oscillators gains] in Hn, Hm.
    assert (Hlt : (o < List.length (oscillators c))%nat).
    { assert (X : nth_error (oscillators c ++
                 [{| osc_type := sine;
                     frequency := [setValueAtTime f (currentTime c)];
                     started := true; stopAt := None;
                     osc_output := Some (List.length (gains c)) |}]) o <> None)
        by congruence.
      apply nth_error_Some in X. rewrite length_app in X. simpl in X. lia. }
    rewrite nth_error_before in Hn by assumption.
    pose proof (wired_out W _ Hc Hn Hout) as Hgl.
    rewrite nth_error_before in Hm by assumption.
    destruct (wired_live W o Hc) as [k0 Hk0].
    { apply live_true. exists n, g, m. repeat split; auto. }
    exists k0. rewrite assign_other; [assumption|]. congruence.
Qed.

(** Altering one oscillator and one gain node, without starting or
    connecting anything, adds no live oscillator and no connection. *)
Lemma altered_nodes (c c' : AudioContext) (o g : nat)
      (fo : OscillatorNode -> OscillatorNode) (fg : GainNode -> GainNode) :
  oscillators c' = alter fo o (oscillators c) ->
  gains c' = alter fg g (gains c) ->
  (forall n, started (fo n) = started n) ->
  (forall n, osc_output (fo n) = osc_output n \/ osc_output (fo n) = None) ->
  (forall m, toDestination (fg m) = true -> toDestination m = true) ->
  List.length (oscillators c') = List.length (oscillators c)
  /\ List.length (gains c') = List.length (gains c)
  /\ (forall x n' g',
         nth_error (oscillators c') x = Some n' -> osc_output n' = Some g' ->
         exists n, nth_error (oscillators c) x = Some n
                   /\ started n = started n' /\ osc_output n = Some g')
  /\ (forall x, live c' x = true -> live c x = true).
Proof.
intros Eo Eg Hs Hout Hd.
assert (Hnodes : forall x n' g',
           nth_error (oscillators c') x = Some n' -> osc_output n' = Some g' ->
           exists n, nth_error (oscillators c) x = Some n
                     /\ started n = started n' /\ osc_output n = Some g').
{ intros x0 n' g' Hn Ho. rewrite Eo in Hn.
  destruct (Nat.eq_dec o x0) as [<-|Hne].
  - rewrite alter_nth_same in Hn.
    destruct (nth_error (oscillators c) o) as [n|]; [|discriminate].
    simpl in Hn. injection Hn as <-. exists n. split; [reflexivity|].
    split; [symmetry; apply Hs|].
    destruct (Hout n) as [E|E]; congruence.
  - rewrite alter_nth_other in Hn by assumption.
    exists n'. auto. }
split; [rewrite Eo; apply alter_length|].
split; [rewrite Eg; apply alter_length|].
split; [exact Hnodes|].
intros x0 Hl. apply live_true in Hl as (n' & g' & m' & Hn & Hst & Ho & Hm & Hdest).
destruct (Hnodes _ _ _ Hn Ho) as (n & Hn0 & Hs0 & Ho0).
apply live_true. rewrite Eg in Hm.
destruct (Nat.eq_dec g g') as [<-|Hne].
- rewrite alter_nth_same in Hm.
  destruct (nth_error (gains c) g) as [m|] eqn:Em; [|discriminate].
  simpl in Hm. injection Hm as <-.
  exists n, g, m. repeat split; auto. congruence.
- rewrite alter_nth_other in Hm by assumption.
  exists n, g', m'. repeat split; auto. congruence.
Qed.

Lemma wired_update (k : Slot) (f v : R) (s : State) :
  wired s -> wired (updateAudioNode k k f v s).
Proof.
intros W.
destruct (oscRefs s k) as [o|] eqn:Ho; [|now rewrite updateAudioNode_idle].
destruct (gainRefs s k) as [g|] eqn:Hg;
  [|unfold updateAudioNode; now rewrite Ho, Hg].
destruct (audioContextRef s) as [c|] eqn:Hc;
  [|unfold updateAudioNode; now rewrite Ho, Hg, Hc].
rewrite (updateAudioNode_ramps _ _ _ _ _ Ho Hg Hc).
destruct (@altered_nodes c (updatedContext o g f v c) o g _ _
            eq_refl eq_refl) as (Lo & Lg & Hnodes & Hlive);
  [reflexivity | left; reflexivity | auto |].
split; fields.
- intros k' o' H. exists (updatedContext o g f v c). split; [reflexivity|].
  rewrite Lo. destruct (wired_osc W _ H) as (c0 & Hc0 & Hlt). congruence.
- intros k' g' H. exists (updatedContext o g f v c). split; [reflexivity|].
  rewrite Lg. destruct (wired_gain W _ H) as (c0 & Hc0 & Hlt). congruence.
- apply (wired_pair W).
- apply (wired_osc_inj W).
- apply (wired_gain_inj W).
- intros c' x0 n' g' E Hn Hout. injection E as <-. rewrite Lg.
  destruct (Hnodes _ _ _ Hn Hout) as (n & Hn0 & _ & Ho0).
  exact (wired_out W _ Hc Hn0 Ho0).
- intros c' x0 E Hl. injection E as <-.
  exact (wired_live W x0 Hc (Hlive _ Hl)).
Qed.

Lemma wired_stop (k : Slot) (s : State) :
  wired s -> wired (stopAudioNode k k s).
Proof.
intros W.
destruct (oscRefs s k) as [o|] eqn:Ho; [|now rewrite stopAudioNode_idle].
destruct (gainRefs s k) as [g|] eqn:Hg;
  [|unfold stopAudioNode; now rewrite Ho, Hg].
destruct (audioContextRef s) as [c|] eqn:Hc;
  [|unfold stopAudioNode; now rewrite Ho, Hg, Hc].
rewrite (stopAudioNode_releases _ _ _ Ho Hg Hc).
destruct (@altered_nodes c (stoppedContext o g c) o g _ _
            eq_refl eq_refl) as (Lo & Lg & Hnodes & Hlive);
  [reflexivity | right; reflexivity | discriminate |].
split; fields.
- intros k' o' H. exists (stoppedContext o g c). split; [reflexivity|].
  rewrite Lo. apply assign_Some in H as [[_ E]|[_ E]]; [discriminate|].
  destruct (wired_osc W _ E) as (c0 & Hc0 & Hlt). congruence.
- intros k' g' H. exists (stoppedContext o g c). split; [reflexivity|].
  rewrite Lg. apply assign_Some in H as [[_ E]|[_ E]]; [discriminate|].
  destruct (wired_gain W _ E) as (c0 & Hc0 & Hlt). congruence.
- intros k'. unfold assign. destruct (Slot_eq_dec k k').
  + split; reflexivity.
  + apply (wired_pair W).
- intros k1 k2 o' H1 H2.
  apply assign_Some in H1 as [[_ V1]|[_ V1]]; [discriminate|].
  apply assign_Some in H2 as [[_ V2]|[_ V2]]; [discriminate|].
  exact (wired_osc_inj W _ _ V1 V2).
- intros k1 k2 g' H1 H2.
  apply assign_Some in H1 as [[_ V1]|[_ V1]]; [discriminate|].
  apply assign_Some in H2 as [[_ V2]|[_ V2]]; [discriminate|].
  exact (wired_gain_inj W _ _ V1 V2).
- intros c' x0 n' g' E Hn Hout. injection E as <-. rewrite Lg.
  destruct (Hnodes _ _ _ Hn Hout) as (n & Hn0 & _ & Ho0).
  exact (wired_out W _ Hc Hn0 Ho0).
- intros c' x0 E Hl. injection E as <-.
  destruct (wired_live W x0 Hc (Hlive _ Hl)) as [k0 Hk0].
  exists k0. rewrite assign_other; [assumption|].
  intros <-. rewrite Ho in Hk0. injection Hk0 as <-.
  apply live_true in Hl as (n' & g' & m' & Hn & _ & Hout & _).
  unfold stoppedContext in Hn; cbn [oscillators] in Hn.
  rewrite alter_nth_same in Hn.
  destruct (nth_error (oscillators c) o); [|discriminate].
  simpl in Hn. injection Hn as <-. discriminate.
Qed.

Lemma wired_sameNodes (s s' : State) : wired s -> sameNodes s s' -> wired s'.
Proof.
intros W (Ho & Hg & Hn).
assert (Hctx : forall c', audioContextRef s' = Some c' ->
          exists c, audioContextRef s = Some c
                    /\ oscillators c' = oscillators c /\ gains c' = gains c).
{ intros c' E. rewrite E in Hn.
  destruct (audioContextRef s) as [c|]; [|contradiction]. exists c. tauto. }
assert (Hctx' : forall c, audioContextRef s = Some c ->
          exists c', audioContextRef s' = Some c'
                     /\ oscillators c' = oscillators c /\ gains c' = gains c).
{ intros c E. rewrite E in Hn.
  destruct (audioContextRef s') as [c'|]; [|contradiction]. exists c'. tauto. }
split.
- intros k o H. rewrite Ho in H.
  destruct (wired_osc W _ H) as (c & Hc & Hlt).
  destruct (Hctx' _ Hc) as (c' & Hc' & Eo & _). exists c'. now rewrite Eo.
- intros k g H. rewrite Hg in H.
  destruct (wired_gain W _ H) as (c & Hc & Hlt).
  destruct (Hctx' _ Hc) as (c' & Hc' & _ & Eg). exists c'. now rewrite Eg.
- intros k. rewrite Ho, Hg. apply (wired_pair W).
- intros k k' o. rewrite !Ho. apply (wired_osc_inj W).
- intros k k' g. rewrite !Hg. apply (wired_gain_inj W).
- intros c' o n g Hc' Hn' Hout.
  destruct (Hctx _ Hc') as (c & Hc & Eo & Eg). rewrite Eo in Hn'. rewrite Eg.
  exact (wired_out W _ Hc Hn' Hout).
- intros c' o Hc' Hl.
  destruct (Hctx _ Hc') as (c & Hc & Eo & Eg).
  destruct (wired_live W o Hc) as [k Hk].
  { unfold live in *. now rewrite <- Eo, <- Eg. }
  exists k. now rewrite Ho.
Qed.

Lemma wired_fresh (s : State) (st : AudioContextState) (pending : bool) :
  wired s -> audioContextRef s = None ->
  wired (withAudio (Some (newAudioContext st)) pending
           (oscRefs s) (gainRefs s) s).
Proof.
intros W Hc.
assert (Ho : forall k, oscRefs s k = None).
{ intros k. destruct (oscRefs s k) as [o|] eqn:E; [|reflexivity].
  destruct (wired_osc W _ E) as (c & Hc' & _). congruence. }
assert (Hg : forall k, gainRefs s k = None).
{ intros k. now apply (wired_pair W). }
split; fields.
- intros k o H. rewrite Ho in H. discriminate.
- intros k g H. rewrite Hg in H. discriminate.
- apply (wired_pair W).
- intros k k' o H. rewrite Ho in H. discriminate.
- intros k k' g H. rewrite Hg in H. discriminate.
- intros c o n g E Hn. injection E as <-. cbn in Hn.
  destruct o; discriminate.
- intros c o E Hl. injection E as <-. unfold live in Hl. cbn in Hl.
  destruct o; discriminate.
Qed.

Lemma wired_init (canvas : option Canvas) (keyboard : option DOMRect) :
  wired (init canvas keyboard).
Proof.
split; cbn; try discriminate.
- tauto.
Qed.

Lemma wired_reconcileSlot (p : option HandPoint) (k : Slot) (s : State) :
  wired s -> wired (reconcileSlot p k k s).
Proof.
intros W. unfold reconcileSlot. destruct p as [p|].
- destruct (oscRefs s k); [now apply wired_update | now apply wired_start].
- now apply wired_stop.
Qed.

Lemma wired_reconcileHands (hands : list HandPoint) (side : Index -> Slot)
      (s : State) :
  wired s -> wired (reconcileHands hands side s).
Proof.
intros W. unfold reconcileHands. cbn [fold_left].
now repeat apply wired_reconcileSlot.
Qed.

Lemma wired_reconcile (s : State) : wired s -> wired (reconcile s).
Proof.
intros W. unfold reconcile.
assert (W1 : wired (rightHandEffect s)).
{ unfold rightHandEffect. destruct (isReady s); [|exact W].
  destruct (canvasRef s); [|exact W]. now apply wired_reconcileHands. }
unfold leftHandEffect. destruct (isReady (rightHandEffect s)); [|exact W1].
destruct (canvasRef (rightHandEffect s)); [|exact W1].
now apply wired_reconcileHands.
Qed.

Ltac same_nodes :=
  unfold sameNodes; fields;
  repeat match goal with
         | H : audioContextRef _ = _ |- _ => rewrite H
         end;
  repeat split; auto;
  try match goal with
      | |- match audioContextRef ?s with _ => _ end =>
          destruct (audioContextRef s); auto
      end.

Lemma wired_setIsReady (s : State) : wired s -> wired (setIsReady s).
Proof.
intros W. unfold setIsReady. destruct (isReady s); [exact W|].
apply wired_reconcile. apply (wired_sameNodes W).
same_nodes.
Qed.

Lemma wired_initAudioContext (autoplay : bool) (s : State) :
  wired s -> wired (initAudioContext autoplay s).
Proof.
intros W. unfold initAudioContext.
destruct (audioContextRef s) as [c|] eqn:Hc; cbv zeta.
- assert (W0 : wired (withAudio (Some c) (resumePending s)
                        (oscRefs s) (gainRefs s) s)).
  { apply (wired_sameNodes W). same_nodes. }
  destruct (state c); try (now apply wired_setIsReady).
  apply (wired_sameNodes W). same_nodes.
- destruct autoplay; cbn [newAudioContext state].
  + apply wired_setIsReady. now apply wired_fresh.
  + apply (@wired_fresh s suspended true W Hc).
Qed.

Lemma wired_resumed (s : State) : wired s -> wired (resumed s).
Proof.
intros W. unfold resumed. destruct (resumePending s); [|exact W].
destruct (audioContextRef s) as [c|] eqn:Hc; [|exact W].
apply wired_setIsReady. apply (wired_sameNodes W). same_nodes.
Qed.

Lemma wired_frame (hands : list Hand) (s : State) :
  wired s -> wired (frame hands s).
Proof.
intros W. unfold frame.
destruct (negb (isModelLoading s) && isReady s); [|exact W].
apply wired_reconcile. apply (wired_sameNodes W). same_nodes.
Qed.

Lemma wired_advance (dt : R) (s : State) : wired s -> wired (advance dt s).
Proof.
intros W. unfold advance.
destruct (audioContextRef s) as [c|] eqn:Hc; [|exact W].
destruct (state c); try exact W.
apply (wired_sameNodes W). same_nodes.
Qed.

(** Closing the context, the last but one step of the cleanup. *)
Lemma wired_close (s : State) :
  wired s ->
  wired match audioContextRef s with
        | Some c =>
            match state c with
            | closed => s
            | _ => withAudio (Some (withState closed c)) (resumePending s)
                     (oscRefs s) (gainRefs s) s
            end
        | None => s
        end.
Proof.
intros W. destruct (audioContextRef s) as [c|] eqn:Hc; [|exact W].
destruct (state c); try exact W; apply (wired_sameNodes W); same_nodes.
Qed.

Lemma wired_withFlags (m l r : bool) (s : State) :
  wired s -> wired (withFlags m l r s).
Proof. intros W. apply (wired_sameNodes W). same_nodes. Qed.

Lemma wired_cleanup (s : State) : wired s -> wired (cleanup s).
Proof.
intros W. unfold cleanup.
apply wired_withFlags, wired_close.
cbn [fold_left]. now repeat apply wired_stop.
Qed.

Lemma wired_step (e : Event) (s : State) : wired s -> wired (step e s).
Proof.
intros W. unfold step. destruct (mounted s); [|exact W].
destruct e.
- now apply wired_initAudioContext.
- now apply wired_resumed.
- now apply wired_withFlags.
- unfold handleMouseEnter. destruct (isReady s); [|exact W].
  now apply wired_start.
- unfold handleMouseMove. destruct (isReady s); [|exact W].
  destruct (keyboardRef s); [|exact W]. now apply wired_update.
- now apply wired_stop.
- now apply wired_frame.
- now apply wired_advance.
- now apply wired_cleanup.
Qed.

Lemma reachable_wired (canvas : option Canvas) (keyboard : option DOMRect)
      (s : State) :
  reachable canvas keyboard s -> wired s.
Proof.
induction 1; [apply wired_init | now apply wired_step].
Qed.

End Wiring.

(** ** One voice per slot *)

Section VoiceBound.

Import Continuum.

Lemma slotOscillators_length (s : State) :
  (List.length (slotOscillators s) <= 7)%nat.
Proof.
unfold slotOscillators, allSlots. cbn [flat_map].
rewrite !length_app.
repeat match goal with
       | |- context [oscRefs s ?k] => destruct (oscRefs s k)
       end; simpl; lia.
Qed.

Lemma slotOscillators_In (s : State) (k : Slot) (o : nat) :
  oscRefs s k = Some o -> In o (slotOscillators s).
Proof.
intros H. unfold slotOscillators. apply in_flat_map. exists k. split.
- destruct k as [|[]|[]]; simpl; tauto.
- rewrite H. now left.
Qed.

Lemma liveOscillators_NoDup (c : AudioContext) : NoDup (liveOscillators c).
Proof. unfold liveOscillators. apply NoDup_filter, seq_NoDup. Qed.

Lemma liveOscillators_live (c : AudioContext) (o : nat) :
  In o (liveOscillators c) -> live c o = true.
Proof. unfold liveOscillators. intros H. now apply filter_In in H. Qed.

(** C9.  A start on a slot whose oscillator ref is already set does
    nothing in interactive-continuum.tsx, and in utils/audio.ts it only
    schedules a frequency on the existing oscillator: neither creates a
    node.  So in every reachable state each live oscillator is the one
    named by some slot, and at most 7 oscillators are live. *)
Theorem one_voice_per_slot (canvas : option Canvas)
        (keyboard : option DOMRect) (s : State) (a : Audio.App) :
  reachable canvas keyboard s ->
  (forall (k k' : Slot) (o : nat) (f v : R),
      oscRefs s k = Some o -> startAudioNode k k' f v s = s)
  /\ (forall (osc : nat) (f : R),
         Audio.oscRef a = Some osc ->
         let a' := Audio.startOscillator f a in
         Audio.oscRef a' = Some osc
         /\ Audio.gainRef a' = Audio.gainRef a
         /\ List.length (oscillators (Audio.ctx a'))
            = List.length (oscillators (Audio.ctx a))
         /\ List.length (gains (Audio.ctx a'))
            = List.length (gains (Audio.ctx a))
         /\ calls (Audio.ctx a')
            = calls (Audio.ctx a)
              ++ [(currentTime (Audio.ctx a),
                   FrequencyCall osc
                     (setValueAtTime f (currentTime (Audio.ctx a))))])
  /\ (forall o : nat,
         In o (liveVoices s) -> exists k, oscRefs s k = Some o)
  /\ NoDup (liveVoices s)
  /\ (List.length (liveVoices s) <= 7)%nat.
Proof.
intros Hreach. pose proof (reachable_wired Hreach) as W.
assert (Hnamed : forall o, In o (liveVoices s) ->
                           exists k, oscRefs s k = Some o).
{ intros o Hin. unfold liveVoices in Hin.
  destruct (audioContextRef s) as [c|] eqn:Hc; [|contradiction].
  exact (wired_live W o Hc (liveOscillators_live _ _ Hin)). }
assert (Hnodup : NoDup (liveVoices s)).
{ unfold liveVoices. destruct (audioContextRef s);
    [apply liveOscillators_NoDup | constructor]. }
split; [|split; [|split; [|split]]].
- intros k k' o f v Ho. exact (startAudioNode_occupied _ _ _ _ _ Ho).
- intros osc f Ho a'. subst a'. unfold Audio.startOscillator. rewrite Ho.
  cbn [Audio.oscRef Audio.gainRef Audio.ctx].
  unfold scheduleFrequency, onOscillator, perform.
  cbn [oscillators gains calls]. rewrite alter_length. auto.
- exact Hnamed.
- exact Hnodup.
- apply Nat.le_trans with (List.length (slotOscillators s));
    [|apply slotOscillators_length].
  apply NoDup_incl_length; [exact Hnodup|].
  intros o Hin. destruct (Hnamed o Hin) as [k Hk].
  exact (slotOscillators_In _ _ Hk).
Qed.

End VoiceBound.

(** ** The voices after a reconciliation *)

Section Reconciliation.

Import Continuum.

Lemma voice_idle (s : State) (k : Slot) : oscRefs s k = None -> voice s k = None.
Proof. intros H. unfold voice. now rewrite H. Qed.

Lemma voice_Some_ref (s : State) (k : Slot) :
  voice s k <> None -> oscRefs s k <> None.
Proof. intros H E. apply H. now apply voice_idle. Qed.

Lemma layout_shell (s s' : State) :
  shell s' = shell s ->
  (forall x, getFrequencyFromX s' x = getFrequencyFromX s x)
  /\ (forall y, getVolumeFromY s' y = getVolumeFromY s y)
  /\ (audioContextRef s' = None <-> audioContextRef s = None).
Proof.
unfold shell. intros H. injection H as _ _ _ _ _ Ec Ek Ea _.
unfold getFrequencyFromX, getVolumeFromY. rewrite Ec, Ek.
repeat split; try reflexivity.
- intros E. rewrite E in Ea. destruct (audioContextRef s); [discriminate|reflexivity].
- intros E. rewrite E in Ea. destruct (audioContextRef s'); [discriminate|reflexivity].
Qed.

























Lemma withHands_same (s : State) :
  shell (withHands (leftHands s) (rightHands s) s) = shell s.
Proof. reflexivity. Qed.





End Reconciliation.

(** ** Stopping a voice *)

Section VoiceStop.

Import Continuum.

Lemma one_voice_per_slot_witness :
  let s := step (MouseEnter 100 50) (step (Click true) (init None None)) in
  let a := {| Audio.ctx := newAudioContext running; Audio.oscRef := None;
              Audio.gainRef := None; Audio.timeouts := [] |} in
  reachable None None s
  /\ (forall (k k' : Slot) (o : nat) (f v : R),
         oscRefs s k = Some o -> startAudioNode k k' f v s = s)
  /\ (forall (osc : nat) (f : R),
         Audio.oscRef a = Some osc ->
         let a' := Audio.startOscillator f a in
         Audio.oscRef a' = Some osc
         /\ Audio.gainRef a' = Audio.gainRef a
         /\ List.length (oscillators (Audio.ctx a'))
            = List.length (oscillators (Audio.ctx a))
         /\ List.length (gains (Audio.ctx a'))
            = List.length (gains (Audio.ctx a))
         /\ calls (Audio.ctx a')
            = calls (Audio.ctx a)
              ++ [(currentTime (Audio.ctx a),
                   FrequencyCall osc
                     (setValueAtTime f (currentTime (Audio.ctx a))))])
  /\ (forall o : nat,
         In o (liveVoices s) -> exists k, oscRefs s k = Some o)
  /\ NoDup (liveVoices s)
  /\ (List.length (liveVoices s) <= 7)%nat.
Proof.
intros s a.
assert (Hreach : reachable None None s) by (unfold s; repeat constructor).
split; [exact Hreach|].
exact (@one_voice_per_slot None None s a Hreach).
Defined.

(** C6, what interactive-continuum.tsx does.  On a sounding slot
    [stopAudioNode] cancels the scheduled gain values, ramps the gain to 0
    over 0.15 s and schedules the oscillator stop at 0.2 s, in that order;
    but it disconnects the oscillator and the gain node in the same call,
    at the clock value of the stop request, and empties both ref cells at
    once: the voice leaves the destination before the ramp has run. *)
Theorem stopAudioNode_disconnects_at_once (k : Slot) (s : State)
        (o g : nat) (c : AudioContext) :
  oscRefs s k = Some o -> gainRefs s k = Some g ->
  audioContextRef s = Some c ->
  let now := currentTime c in
  exists c',
    audioContextRef (stopAudioNode k k s) = Some c'
    /\ currentTime c' = now
    /\ calls c'
       = calls c
         ++ [(now, GainCancelScheduledValues g now);
             (now, GainCall g (linearRampToValueAtTime 0 (now + 0.15)));
             (now, Stop o (now + 0.2));
             (now, DisconnectOscillator o);
             (now, DisconnectGain g)]
    /\ live c' o = false
    /\ oscRefs (stopAudioNode k k s) k = None
    /\ gainRefs (stopAudioNode k k s) k = None.
Proof.
intros Ho Hg Hc now.
rewrite (stopAudioNode_releases _ _ _ Ho Hg Hc).
exists (stoppedContext o g c).
cbn [audioContextRef oscRefs gainRefs withAudio].
rewrite !assign_same.
repeat split.
unfold live, stoppedContext; cbn [oscillators gains].
rewrite alter_nth_same.
destruct (nth_error (oscillators c) o) as [n|]; [|reflexivity].
cbn [option_map osc_output]. apply andb_false_r.
Qed.

(** The sibling in utils/audio.ts leaves the nodes connected and the ref
    cells set, and hands the disconnection to a 200 ms timeout. *)
Lemma stopOscillator_defers_disconnect (a : Audio.App) (o g : nat) :
  Audio.oscRef a = Some o -> Audio.gainRef a = Some g ->
  let now := currentTime (Audio.ctx a) in
  let a' := Audio.stopOscillator a in
  calls (Audio.ctx a')
  = calls (Audio.ctx a)
    ++ [(now, GainCancelScheduledValues g now);
        (now, GainCall g (linearRampToValueAtTime 0 (now + 0.12)));
        (now, Stop o (now + 0.14))]
  /\ Audio.oscRef a' = Some o /\ Audio.gainRef a' = Some g
  /\ Audio.timeouts a' = Audio.timeouts a ++ [200].
Proof.
intros Ho Hg now a'. subst a' now. unfold Audio.stopOscillator.
rewrite Ho, Hg. cbn [Audio.ctx Audio.oscRef Audio.gainRef Audio.timeouts].
destruct (Audio.ctx a) as [st t os gs cs].
cbv beta iota zeta delta
  [gainCancelScheduledValues scheduleGain stop onOscillator onGain perform
   state currentTime oscillators gains calls].
rewrite <- !app_assoc. auto.
Qed.

(** There, a second stop inside the release window schedules the ramp and
    the stop again and queues a second timeout. *)
Lemma stopOscillator_twice (a : Audio.App) (o g : nat) :
  Audio.oscRef a = Some o -> Audio.gainRef a = Some g ->
  Audio.timeouts (Audio.stopOscillator (Audio.stopOscillator a))
  = Audio.timeouts a ++ [200; 200].
Proof.
intros Ho Hg. unfold Audio.stopOscillator at 2. rewrite Ho, Hg.
unfold Audio.stopOscillator.
cbn [Audio.ctx Audio.oscRef Audio.gainRef Audio.timeouts].
now rewrite <- app_assoc.
Qed.

(** Only when that timeout fires are the nodes disconnected and the ref
    cells emptied. *)
Lemma stopOscillator_timeout_disconnects (a : Audio.App) (o g : nat) :
  Audio.oscRef a = Some o -> Audio.gainRef a = Some g ->
  Audio.timeouts a = [] ->
  let a' := Audio.fireTimeout (Audio.stopOscillator a) in
  Audio.oscRef a' = None /\ Audio.gainRef a' = None
  /\ Audio.timeouts a' = []
  /\ live (Audio.ctx a') o = false.
Proof.
intros Ho Hg Ht a'. subst a'. unfold Audio.stopOscillator.
rewrite Ho, Hg, Ht.
unfold Audio.fireTimeout, Audio.disconnectCallback.
cbn [Audio.ctx Audio.oscRef Audio.gainRef Audio.timeouts app].
repeat split.
destruct (Audio.ctx a) as [st t os gs cs].
cbv beta iota zeta delta
  [gainCancelScheduledValues scheduleGain stop disconnectOscillator
   disconnectGain onOscillator onGain perform
   state currentTime oscillators gains calls live].
rewrite !alter_alter, alter_nth_same.
destruct (nth_error os o) as [n|]; [|reflexivity].
cbn [option_map osc_output started]. apply andb_false_r.
Qed.

Lemma stopAudioNode_disconnects_at_once_witness :
  let s := step (MouseEnter 100 50) (step (Click true) (init None None)) in
  exists c,
    oscRefs s Mouse = Some 0%nat /\ gainRefs s Mouse = Some 0%nat
    /\ audioContextRef s = Some c
    /\ exists c',
        audioContextRef (stopAudioNode Mouse Mouse s) = Some c'
        /\ currentTime c' = currentTime c
        /\ calls c'
           = calls c
             ++ [(currentTime c, GainCancelScheduledValues 0 (currentTime c));
                 (currentTime c,
                  GainCall 0 (linearRampToValueAtTime 0 (currentTime c + 0.15)));
                 (currentTime c, Stop 0 (currentTime c + 0.2));
                 (currentTime c, DisconnectOscillator 0);
                 (currentTime c, DisconnectGain 0)]
        /\ live c' 0 = false
        /\ oscRefs (stopAudioNode Mouse Mouse s) Mouse = None
        /\ gainRefs (stopAudioNode Mouse Mouse s) Mouse = None.
Proof.
intros s.
assert (E : s = startAudioNode Mouse Mouse
                  (getFrequencyFromX (step (Click true) (init None None)) 100)
                  (getVolumeFromY (step (Click true) (init None None)) 50)
                  (step (Click true) (init None None))) by reflexivity.
assert (Hc0 : audioContextRef (step (Click true) (init None None))
              = Some (newAudioContext running)) by reflexivity.
assert (Ho0 : oscRefs (step (Click true) (init None None)) Mouse = None)
  by reflexivity.
rewrite (startAudioNode_creates _ _ _ _ _ Hc0 Ho0) in E.
exists (startedContext
          (getFrequencyFromX (step (Click true) (init None None)) 100)
          (getVolumeFromY (step (Click true) (init None None)) 50)
          (newAudioContext running)).
assert (Ho : oscRefs s Mouse = Some 0%nat) by (rewrite E; reflexivity).
assert (Hg : gainRefs s Mouse = Some 0%nat) by (rewrite E; reflexivity).
assert (Hc : audioContextRef s
             = Some (startedContext
                       (getFrequencyFromX (step (Click true) (init None None)) 100)
                       (getVolumeFromY (step (Click true) (init None None)) 50)
                       (newAudioContext running))) by (rewrite E; reflexivity).
split; [exact Ho|]. split; [exact Hg|]. split; [exact Hc|].
exact (@stopAudioNode_disconnects_at_once Mouse s 0%nat 0%nat _ Ho Hg Hc).
Defined.

End VoiceStop.


(** ** How the voice operations compose *)

Section VoiceAlgebra.

Import Continuum.

(** X1.  A start on a slot that was just started is ignored, whatever its
    parameters; a stop after a stop does nothing more; an update after a
    stop is ignored. *)
Theorem voice_operations_compose (oscRef gainRef : Slot) (f v f' v' : R)
        (s : State) :
  startAudioNode oscRef gainRef f' v' (startAudioNode oscRef gainRef f v s)
  = startAudioNode oscRef gainRef f v s
  /\ stopAudioNode oscRef gainRef (stopAudioNode oscRef gainRef s)
     = stopAudioNode oscRef gainRef s
  /\ updateAudioNode oscRef gainRef f v (stopAudioNode oscRef gainRef s)
     = stopAudioNode oscRef gainRef s.
Proof.
split; [|split].
- destruct (audioContextRef s) as [c|] eqn:Hc.
  + destruct (oscRefs s oscRef) as [o|] eqn:Ho.
    * rewrite (startAudioNode_occupied _ _ _ _ _ Ho).
      exact (startAudioNode_occupied _ _ _ _ _ Ho).
    * rewrite (startAudioNode_creates _ _ _ _ _ Hc Ho).
      apply (@startAudioNode_occupied _ _ _ _ _ (List.length (oscillators c))).
      fields. apply assign_same.
  + rewrite (startAudioNode_no_context _ _ f v _ Hc).
    now apply startAudioNode_no_context.
- destruct (oscRefs s oscRef) as [o|] eqn:Ho.
  + destruct (gainRefs s gainRef) as [g|] eqn:Hg.
    * destruct (audioContextRef s) as [c|] eqn:Hc.
      -- rewrite (stopAudioNode_releases _ _ _ Ho Hg Hc).
         apply stopAudioNode_idle. fields. apply assign_same.
      -- assert (E : stopAudioNode oscRef gainRef s = s)
           by (unfold stopAudioNode; now rewrite Ho, Hg, Hc).
         now rewrite !E.
    * assert (E : stopAudioNode oscRef gainRef s = s)
        by (unfold stopAudioNode; now rewrite Ho, Hg).
      now rewrite !E.
  + rewrite (@stopAudioNode_idle oscRef gainRef s Ho).
    exact (@stopAudioNode_idle oscRef gainRef s Ho).
- destruct (oscRefs s oscRef) as [o|] eqn:Ho.
  + destruct (gainRefs s gainRef) as [g|] eqn:Hg.
    * destruct (audioContextRef s) as [c|] eqn:Hc.
      -- rewrite (stopAudioNode_releases _ _ _ Ho Hg Hc).
         apply updateAudioNode_idle. fields. apply assign_same.
      -- assert (E : stopAudioNode oscRef gainRef s = s)
           by (unfold stopAudioNode; now rewrite Ho, Hg, Hc).
         rewrite E. unfold updateAudioNode. now rewrite Ho, Hg, Hc.
    * assert (E : stopAudioNode oscRef gainRef s = s)
        by (unfold stopAudioNode; now rewrite Ho, Hg).
      rewrite E. unfold updateAudioNode. now rewrite Ho, Hg.
  + rewrite stopAudioNode_idle by assumption.
    now apply updateAudioNode_idle.
Qed.

End VoiceAlgebra.

(** ** Invariants of the component, in general *)

Section StepInvariant.

Import Continuum.

Variable P : State -> Prop.

Hypothesis P_start : forall k f v s, P s -> P (startAudioNode k k f v s).
Hypothesis P_update : forall k f v s, P s -> P (updateAudioNode k k f v s).
Hypothesis P_stop : forall k s, P s -> P (stopAudioNode k k s).
Hypothesis P_sameNodes : forall s s', P s -> sameNodes s s' -> P s'.
Hypothesis P_fresh :
  forall s st pending, P s -> audioContextRef s = None ->
    P (withAudio (Some (newAudioContext st)) pending (oscRefs s) (gainRefs s) s).

Ltac same_nodes :=
  unfold sameNodes; fields;
  repeat match goal with
         | H : audioContextRef _ = _ |- _ => rewrite H
         end;
  repeat split; auto;
  try match goal with
      | |- match audioContextRef ?s with _ => _ end =>
          destruct (audioContextRef s); auto
      end.

Lemma invariant_reconcile (s : State) : P s -> P (reconcile s).
Proof.
intros H.
assert (Hslot : forall p k s0, P s0 -> P (reconcileSlot p k k s0)).
{ intros p k s0 H0. unfold reconcileSlot. destruct p.
  - destruct (oscRefs s0 k); auto.
  - auto. }
assert (Hhands : forall hands side s0, P s0 -> P (reconcileHands hands side s0)).
{ intros hands side s0 H0. unfold reconcileHands. cbn [fold_left]. auto. }
unfold reconcile.
assert (H1 : P (rightHandEffect s)).
{ unfold rightHandEffect. destruct (isReady s); [|exact H].
  destruct (canvasRef s); auto. }
unfold leftHandEffect. destruct (isReady (rightHandEffect s)); [|exact H1].
destruct (canvasRef (rightHandEffect s)); auto.
Qed.

Lemma invariant_setIsReady (s : State) : P s -> P (setIsReady s).
Proof.
intros H. unfold setIsReady. destruct (isReady s); [exact H|].
apply invariant_reconcile. apply (P_sameNodes H). same_nodes.
Qed.

Lemma invariant_initAudioContext (autoplay : bool) (s : State) :
  P s -> P (initAudioContext autoplay s).
Proof.
intros H. unfold initAudioContext.
destruct (audioContextRef s) as [c|] eqn:Hc; cbv zeta.
- assert (H0 : P (withAudio (Some c) (resumePending s)
                    (oscRefs s) (gainRefs s) s)).
  { apply (P_sameNodes H). same_nodes. }
  destruct (state c); try (now apply invariant_setIsReady).
  apply (P_sameNodes H). same_nodes.
- destruct autoplay; cbn [newAudioContext state].
  + apply invariant_setIsReady. now apply P_fresh.
  + apply (P_fresh suspended true H Hc).
Qed.

Lemma invariant_cleanup (s : State) : P s -> P (cleanup s).
Proof.
intros H. unfold cleanup.
set (s1 := fold_left _ _ _).
assert (H1 : P s1) by (unfold s1; cbn [fold_left]; auto 20).
clearbody s1. cbv zeta.
apply P_sameNodes with (s := s1); [exact H1|].
destruct (audioContextRef s1) as [c|] eqn:Hc.
- destruct (state c); same_nodes.
- same_nodes.
Qed.

(** A property that the three voice operations keep, and that does not
    depend on anything but the ref cells and the nodes, holds in every
    reachable state as soon as it holds initially. *)
Lemma invariant_step (e : Event) (s : State) : P s -> P (step e s).
Proof.
intros H. unfold step. destruct (mounted s); [|exact H].
destruct e.
- now apply invariant_initAudioContext.
- unfold resumed. destruct (resumePending s); [|exact H].
  destruct (audioContextRef s) as [c|] eqn:Hc; [|exact H].
  apply invariant_setIsReady. apply (P_sameNodes H). same_nodes.
- apply (P_sameNodes H). same_nodes.
- unfold handleMouseEnter. destruct (isReady s); auto.
- unfold handleMouseMove. destruct (isReady s); [|exact H].
  destruct (keyboardRef s); auto.
- unfold handleMouseLeave. auto.
- unfold frame. destruct (negb (isModelLoading s) && isReady s); [|exact H].
  apply invariant_reconcile. apply (P_sameNodes H). same_nodes.
- unfold advance. destruct (audioContextRef s) as [c|] eqn:Hc; [|exact H].
  destruct (state c); try exact H.
  apply (P_sameNodes H). same_nodes.
- now apply invariant_cleanup.
Qed.

Lemma invariant_reachable (canvas : option Canvas)
      (keyboard : option DOMRect) (s : State) :
  P (init canvas keyboard) -> reachable canvas keyboard s -> P s.
Proof.
intros H0. induction 1; [exact H0 | now apply invariant_step].
Qed.

End StepInvariant.

(** ** Occupied slots sound *)

Section OccupiedSlots.

Import Continuum.

Lemma alter_nth_Some {A : Type} (f : A -> A) (i j : nat) (l : list A) (a : A) :
  nth_error l j = Some a ->
  nth_error (alter f i l) j = Some (if Nat.eq_dec i j then f a else a).
Proof.
intros H. destruct (Nat.eq_dec i j) as [<-|N].
- rewrite alter_nth_same, H. reflexivity.
- now rewrite alter_nth_other.
Qed.

Lemma nth_error_Some_lt {A : Type} (l : list A) (i : nat) (a : A) :
  nth_error l i = Some a -> (i < List.length l)%nat.
Proof. intros H. apply nth_error_Some. congruence. Qed.

Lemma occupiedLive_start (k : Slot) (f v : R) (s : State) :
  wired s -> occupiedLive s -> occupiedLive (startAudioNode k k f v s).
Proof.
intros W L.
destruct (audioContextRef s) as [c|] eqn:Hc;
  [|now rewrite startAudioNode_no_context].
destruct (oscRefs s k) as [o0|] eqn:Ho;
  [now rewrite (startAudioNode_occupied _ _ _ _ _ Ho)|].
rewrite (startAudioNode_creates _ _ _ _ _ Hc Ho).
intros k0 o H. fields. exists (startedContext f v c).
unfold assign in *. destruct (Slot_eq_dec k k0) as [<-|N].
- injection H as <-.
  exists (List.length (gains c)).
  unfold startedContext; cbn [oscillators gains]. rewrite !nth_error_last.
  eexists; eexists. repeat split; reflexivity.
- destruct (L _ _ H) as (c0 & g & n & m & Hc0 & Hg & Hn & Hs & Hout & Hm & Hd).
  rewrite Hc in Hc0. injection Hc0 as <-.
  exists g, n, m. unfold startedContext; cbn [oscillators gains].
  rewrite !nth_error_before by (eapply nth_error_Some_lt; eassumption).
  repeat split; assumption.
Qed.

Lemma occupiedLive_update (k : Slot) (f v : R) (s : State) :
  wired s -> occupiedLive s -> occupiedLive (updateAudioNode k k f v s).
Proof.
intros W L.
destruct (oscRefs s k) as [o|] eqn:Ho; [|now rewrite updateAudioNode_idle].
destruct (gainRefs s k) as [g|] eqn:Hg;
  [|unfold updateAudioNode; now rewrite Ho, Hg].
destruct (audioContextRef s) as [c|] eqn:Hc;
  [|unfold updateAudioNode; now rewrite Ho, Hg, Hc].
rewrite (updateAudioNode_ramps _ _ _ _ _ Ho Hg Hc).
intros k0 o0 H. fields. exists (updatedContext o g f v c).
destruct (L _ _ H) as (c0 & g0 & n & m & Hc0 & Hg0 & Hn & Hs & Hout & Hm & Hd).
rewrite Hc in Hc0. injection Hc0 as <-.
exists g0. unfold updatedContext; cbn [oscillators gains].
rewrite (@alter_nth_Some _ _ o o0 _ n Hn), (@alter_nth_Some _ _ g g0 _ m Hm).
refine (ex_intro _ _ (ex_intro _ _
          (conj eq_refl (conj Hg0 (conj eq_refl
             (conj _ (conj _ (conj eq_refl _)))))))).
- destruct (Nat.eq_dec o o0); assumption.
- destruct (Nat.eq_dec o o0); assumption.
- destruct (Nat.eq_dec g g0); assumption.
Qed.

Lemma occupiedLive_stop (k : Slot) (s : State) :
  wired s -> occupiedLive s -> occupiedLive (stopAudioNode k k s).
Proof.
intros W L.
destruct (oscRefs s k) as [o|] eqn:Ho; [|now rewrite stopAudioNode_idle].
destruct (gainRefs s k) as [g|] eqn:Hg;
  [|unfold stopAudioNode; now rewrite Ho, Hg].
destruct (audioContextRef s) as [c|] eqn:Hc;
  [|unfold stopAudioNode; now rewrite Ho, Hg, Hc].
rewrite (stopAudioNode_releases _ _ _ Ho Hg Hc).
intros k0 o0 H. fields. exists (stoppedContext o g c).
unfold assign in *. destruct (Slot_eq_dec k k0) as [<-|N]; [discriminate|].
destruct (L _ _ H) as (c0 & g0 & n & m & Hc0 & Hg0 & Hn & Hs & Hout & Hm & Hd).
rewrite Hc in Hc0. injection Hc0 as <-.
exists g0, n, m. unfold stoppedContext; cbn [oscillators gains].
assert (No : o <> o0).
{ intros <-. apply N. exact (wired_osc_inj W _ _ Ho H). }
assert (Ng : g <> g0).
{ intros <-. apply N. exact (wired_gain_inj W _ _ Hg Hg0). }
rewrite !alter_nth_other by assumption.
repeat split; assumption.
Qed.

Lemma occupiedLive_sameNodes (s s' : State) :
  occupiedLive s -> sameNodes s s' -> occupiedLive s'.
Proof.
intros L (Eo & Eg & En) k o H. rewrite Eo in H.
destruct (L _ _ H) as (c & g & n & m & Hc & Hg & Hn & Hs & Hout & Hm & Hd).
rewrite Hc in En.
destruct (audioContextRef s') as [c'|]; [|contradiction].
destruct En as [E1 E2].
exists c', g, n, m. rewrite Eg, E1, E2. repeat split; assumption.
Qed.

(** In every reachable state the ref cells are wired and every occupied
    slot sounds. *)
Lemma reachable_occupiedLive (canvas : option Canvas)
      (keyboard : option DOMRect) (s : State) :
  reachable canvas keyboard s -> wired s /\ occupiedLive s.
Proof.
apply (@invariant_reachable (fun s => wired s /\ occupiedLive s)).
- intros k f v s0 [W L]. split;
    [now apply wired_start | now apply occupiedLive_start].
- intros k f v s0 [W L]. split;
    [now apply wired_update | now apply occupiedLive_update].
- intros k s0 [W L]. split;
    [now apply wired_stop | now apply occupiedLive_stop].
- intros s0 s' [W L] E. split;
    [exact (wired_sameNodes W E) | exact (occupiedLive_sameNodes L E)].
- intros s0 st p [W L] Hc. split; [now apply wired_fresh|].
  intros k o H. fields.
  destruct (L _ _ H) as (c & _ & _ & _ & Hc' & _). congruence.
- split; [apply wired_init|]. intros k o H. discriminate.
Qed.

Lemma slotOscillators_NoDup (s : State) : wired s -> NoDup (slotOscillators s).
Proof.
intros W. unfold slotOscillators.
assert (Hgen : forall l : list Slot, NoDup l ->
          NoDup (flat_map (fun k => match oscRefs s k with
                                    | Some o => [o] | None => [] end) l)).
{ induction l as [|k l IH]; intros Hl; cbn [flat_map]; [constructor|].
  inversion Hl as [|? ? Hnot Hl']; subst.
  destruct (oscRefs s k) as [o|] eqn:Ho; cbn [app]; [|now apply IH].
  constructor; [|now apply IH].
  intros Hin. apply in_flat_map in Hin as (k' & Hk' & Ho').
  destruct (oscRefs s k') as [o'|] eqn:E; [|contradiction].
  destruct Ho' as [->|[]].
  apply Hnot. now rewrite (wired_osc_inj W _ _ Ho E). }
apply Hgen. unfold allSlots.
repeat constructor; simpl; intuition discriminate.
Qed.

Lemma slotOscillators_named (s : State) (o : nat) :
  In o (slotOscillators s) -> exists k, oscRefs s k = Some o.
Proof.
unfold slotOscillators. intros H.
apply in_flat_map in H as (k & _ & Hk). exists k.
destruct (oscRefs s k) as [o'|]; [|contradiction].
destruct Hk as [->|[]]. reflexivity.
Qed.

(** X2.  In every reachable state the live oscillators are exactly the
    ones the slots name: an occupied slot always sounds, a sounding
    oscillator always belongs to a slot, and the number of live voices is
    the number of occupied slots. *)
Theorem live_voices_are_the_occupied_slots (canvas : option Canvas)
        (keyboard : option DOMRect) (s : State) :
  reachable canvas keyboard s ->
  (forall o : nat, In o (liveVoices s) <-> exists k, oscRefs s k = Some o)
  /\ List.length (liveVoices s) = List.length (slotOscillators s).
Proof.
intros Hreach. destruct (reachable_occupiedLive Hreach) as [W L].
assert (Hiff : forall o : nat,
           In o (liveVoices s) <-> exists k, oscRefs s k = Some o).
{ intros o. split.
  - unfold liveVoices. intros Hin.
    destruct (audioContextRef s) as [c|] eqn:Hc; [|contradiction].
    exact (wired_live W o Hc (liveOscillators_live _ _ Hin)).
  - intros [k Hk].
    destruct (L _ _ Hk) as (c & g & n & m & Hc & Hg & Hn & Hs & Hout & Hm & Hd).
    unfold liveVoices. rewrite Hc. unfold liveOscillators.
    apply filter_In. split.
    + apply in_seq. pose proof (nth_error_Some_lt _ _ Hn). lia.
    + apply live_true. exists n, g, m. repeat split; assumption. }
split; [exact Hiff|].
assert (Hnd : NoDup (liveVoices s)).
{ unfold liveVoices. destruct (audioContextRef s);
    [apply liveOscillators_NoDup | constructor]. }
apply Nat.le_antisymm.
- apply NoDup_incl_length; [exact Hnd|].
  intros o Hin. apply Hiff in Hin as [k Hk].
  exact (slotOscillators_In _ _ Hk).
- apply NoDup_incl_length; [now apply slotOscillators_NoDup|].
  intros o Hin. apply Hiff. now apply slotOscillators_named.
Qed.

Lemma live_voices_are_the_occupied_slots_witness :
  let s := step (MouseEnter 100 50) (step (Click true) (init None None)) in
  reachable None None s
  /\ (forall o : nat, In o (liveVoices s) <-> exists k, oscRefs s k = Some o)
  /\ List.length (liveVoices s) = List.length (slotOscillators s).
Proof.
intros s.
assert (Hreach : reachable None None s) by (unfold s; repeat constructor).
split; [exact Hreach|].
exact (@live_voices_are_the_occupied_slots None None s Hreach).
Defined.

End OccupiedSlots.

(** ** Start then stop, and the teardown *)

Section Release.

Import Continuum.

Lemma nth_error_snoc {A : Type} (l : list A) (a : A) (i : nat) :
  nth_error (l ++ [a]) i
  = if Nat.ltb i (List.length l) then nth_error l i
    else if Nat.eqb i (List.length l) then Some a else None.
Proof.
destruct (Nat.ltb i (List.length l)) eqn:E1.
- apply Nat.ltb_lt in E1. now apply nth_error_app1.
- apply Nat.ltb_ge in E1. destruct (Nat.eqb i (List.length l)) eqn:E2.
  + apply Nat.eqb_eq in E2. subst. apply nth_error_last.
  + apply Nat.eqb_neq in E2. apply nth_error_None.
    rewrite length_app. simpl. lia.
Qed.

(** Starting a voice and stopping it at once leaves the same oscillators
    live as before. *)
Lemma live_started_stopped (f v : R) (c : AudioContext) (o : nat) :
  live (stoppedContext (List.length (oscillators c)) (List.length (gains c))
          (startedContext f v c)) o
  = live c o.
Proof.
unfold live, stoppedContext, startedContext; cbn [oscillators gains].
rewrite !alter_last. cbn [osc_type frequency started stopAt osc_output].
rewrite nth_error_snoc.
destruct (Nat.ltb o (List.length (oscillators c))) eqn:E1.
- destruct (nth_error (oscillators c) o) as [n|]; [|reflexivity].
  destruct (osc_output n) as [g|]; [|reflexivity].
  rewrite nth_error_snoc.
  destruct (Nat.ltb g (List.length (gains c))) eqn:E2; [reflexivity|].
  apply Nat.ltb_ge in E2.
  assert (N : nth_error (gains c) g = None) by (now apply nth_error_None).
  rewrite N. destruct (Nat.eqb g (List.length (gains c))); reflexivity.
- apply Nat.ltb_ge in E1.
  assert (N : nth_error (oscillators c) o = None) by (now apply nth_error_None).
  rewrite N. destruct (Nat.eqb o (List.length (oscillators c)));
    [apply andb_false_r | reflexivity].
Qed.

(** X3.  On an idle slot of an existing context, a start followed by a
    stop empties both ref cells again and leaves exactly the oscillators
    live that were live before; the oscillator and the gain node created by
    the start stay in the context, disconnected. *)
Theorem start_then_stop (oscRef gainRef : Slot) (f v : R) (s : State)
        (c : AudioContext) :
  audioContextRef s = Some c -> oscRefs s oscRef = None ->
  let s' := stopAudioNode oscRef gainRef (startAudioNode oscRef gainRef f v s) in
  oscRefs s' oscRef = None /\ gainRefs s' gainRef = None
  /\ nodeCount s' = (S (List.length (oscillators c)), S (List.length (gains c)))
  /\ (forall o : nat, In o (liveVoices s') <-> In o (liveVoices s)).
Proof.
intros Hc Ho s'. subst s'.
rewrite (startAudioNode_creates _ _ _ _ _ Hc Ho).
rewrite (@stopAudioNode_releases oscRef gainRef _
           (List.length (oscillators c)) (List.length (gains c))
           (startedContext f v c));
  [| fields; apply assign_same | fields; apply assign_same | reflexivity].
fields. rewrite !assign_same.
split; [reflexivity|]. split; [reflexivity|]. split.
- unfold nodeCount; fields.
  unfold stoppedContext, startedContext; cbn [oscillators gains].
  rewrite !alter_length, !length_app. simpl. f_equal; lia.
- intros o. unfold liveVoices; fields. rewrite Hc.
  unfold liveOscillators. rewrite !filter_In, live_started_stopped, !in_seq.
  split; intros [Hr Hl]; (split; [|exact Hl]).
  + unfold live in Hl.
    destruct (nth_error (oscillators c) o) eqn:E; [|discriminate].
    pose proof (nth_error_Some_lt _ _ E). lia.
  + unfold stoppedContext, startedContext; cbn [oscillators].
    rewrite alter_length, length_app. simpl. lia.
Qed.

Lemma start_then_stop_witness :
  let s := step (Click true) (init None None) in
  let s' := stopAudioNode Mouse Mouse (startAudioNode Mouse Mouse 440 0.25 s) in
  audioContextRef s = Some (newAudioContext running)
  /\ oscRefs s Mouse = None
  /\ oscRefs s' Mouse = None /\ gainRefs s' Mouse = None
  /\ nodeCount s'
     = (S (List.length (oscillators (newAudioContext running))),
        S (List.length (gains (newAudioContext running))))
  /\ (forall o : nat, In o (liveVoices s') <-> In o (liveVoices s)).
Proof.
intros s s'.
assert (Hc : audioContextRef s = Some (newAudioContext running)) by reflexivity.
assert (Ho : oscRefs s Mouse = None) by reflexivity.
split; [exact Hc|]. split; [exact Ho|].
exact (@start_then_stop Mouse Mouse 440 0.25 s _ Hc Ho).
Defined.

Lemma stop_clears (k : Slot) (s : State) :
  wired s -> oscRefs (stopAudioNode k k s) k = None.
Proof.
intros W.
destruct (oscRefs s k) as [o|] eqn:Ho;
  [|now rewrite stopAudioNode_idle].
destruct (gainRefs s k) as [g|] eqn:Hg.
2:{ apply (wired_pair W) in Hg. congruence. }
destruct (wired_osc W _ Ho) as (c & Hc & _).
rewrite (stopAudioNode_releases _ _ _ Ho Hg Hc). fields. apply assign_same.
Qed.

Lemma stop_keeps_clear (k k0 : Slot) (s : State) :
  oscRefs s k0 = None -> oscRefs (stopAudioNode k k s) k0 = None.
Proof.
intros H. unfold stopAudioNode.
destruct (oscRefs s k) as [o|]; [|exact H].
destruct (gainRefs s k) as [g|]; [|exact H].
destruct (audioContextRef s) as [c|]; [|exact H].
fields. unfold assign. destruct (Slot_eq_dec k k0); [reflexivity|exact H].
Qed.

Lemma stop_state (k : Slot) (s : State) :
  option_map state (audioContextRef (stopAudioNode k k s))
  = option_map state (audioContextRef s).
Proof.
pose proof (stopAudioNode_shell k k s) as H.
now apply shell_fields in H as (_ & _ & _ & _ & E).
Qed.

(** X4.  The cleanup of a mounted component, from any reachable state,
    empties every ref cell, leaves no oscillator live, leaves the context
    (if there is one) closed, and no later event changes anything. *)
Theorem cleanup_silences_everything (canvas : option Canvas)
        (keyboard : option DOMRect) (s : State) :
  reachable canvas keyboard s -> mounted s = true ->
  let s' := step Unmount s in
  (forall k, oscRefs s' k = None /\ gainRefs s' k = None)
  /\ liveVoices s' = []
  /\ (forall c', audioContextRef s' = Some c' -> state c' = closed)
  /\ (audioContextRef s' = None <-> audioContextRef s = None)
  /\ (forall e, step e s' = s').
Proof.
intros Hreach Hm s'.
pose proof (reachable_wired Hreach) as W.
assert (W' : wired s') by (unfold s'; now apply wired_step).
assert (E : s' = cleanup s) by (unfold s', step; now rewrite Hm).
set (s1 := fold_left
             (fun s i =>
                stopAudioNode (LeftHand i) (LeftHand i)
                  (stopAudioNode (RightHand i) (RightHand i) s))
             [I0; I1; I2] (stopAudioNode Mouse Mouse s)).
assert (W1 : forall k, oscRefs s1 k = None).
{ unfold s1. cbn [fold_left]. intros k.
  assert (Wm : wired (stopAudioNode Mouse Mouse s)) by now apply wired_stop.
  assert (Wr0 := wired_stop (RightHand I0) Wm).
  assert (Wl0 := wired_stop (LeftHand I0) Wr0).
  assert (Wr1 := wired_stop (RightHand I1) Wl0).
  assert (Wl1 := wired_stop (LeftHand I1) Wr1).
  assert (Wr2 := wired_stop (RightHand I2) Wl1).
  destruct k as [|[]|[]];
    repeat first [ apply stop_clears; assumption | apply stop_keeps_clear ]. }
assert (S1 : option_map state (audioContextRef s1)
             = option_map state (audioContextRef s)).
{ unfold s1. cbn [fold_left]. now rewrite !stop_state. }
assert (Hrefs : forall k, oscRefs s' k = None).
{ intros k. rewrite E. unfold cleanup. fold s1. cbv zeta.
  destruct (audioContextRef s1) as [c|]; [destruct (state c)|];
    fields; apply W1. }
assert (Hctx : (forall c', audioContextRef s' = Some c' -> state c' = closed)
               /\ (audioContextRef s' = None <-> audioContextRef s = None)).
{ rewrite E. unfold cleanup. fold s1. cbv zeta.
  destruct (audioContextRef s1) as [c|] eqn:Hc1.
  - destruct (audioContextRef s) as [c0|]; [|discriminate].
    destruct (state c) eqn:Hst; fields; rewrite ?Hc1; split;
      try (intros c' Hc'; injection Hc' as <-; auto);
      split; discriminate.
  - destruct (audioContextRef s) as [c0|]; [discriminate|].
    fields. rewrite Hc1. split; [discriminate | tauto]. }
split; [|split; [|split; [|split]]].
- intros k. split; [apply Hrefs|]. apply (wired_pair W'), Hrefs.
- unfold liveVoices. destruct (audioContextRef s') as [c'|] eqn:Hc'; [|reflexivity].
  destruct (liveOscillators c') as [|o l] eqn:El; [reflexivity|].
  assert (Hin : In o (liveOscillators c')) by (rewrite El; now left).
  destruct (wired_live W' o Hc' (liveOscillators_live _ _ Hin)) as [k Hk].
  rewrite Hrefs in Hk. discriminate.
- apply Hctx.
- apply Hctx.
- intros e. unfold step.
  assert (Hm' : mounted s' = false).
  { rewrite E. unfold cleanup. reflexivity. }
  now rewrite Hm'.
Qed.

Lemma cleanup_silences_everything_witness :
  let s := step (MouseEnter 100 50) (step (Click true) (init None None)) in
  let s' := step Unmount s in
  reachable None None s /\ mounted s = true
  /\ (forall k, oscRefs s' k = None /\ gainRefs s' k = None)
  /\ liveVoices s' = []
  /\ (forall c', audioContextRef s' = Some c' -> state c' = closed)
  /\ (audioContextRef s' = None <-> audioContextRef s = None)
  /\ (forall e, step e s' = s').
Proof.
intros s s'.
assert (Hreach : reachable None None s) by (unfold s; repeat constructor).
assert (Hm : mounted s = true).
{ pose proof (startAudioNode_shell Mouse Mouse
                (getFrequencyFromX (step (Click true) (init None None)) 100)
                (getVolumeFromY (step (Click true) (init None None)) 50)
                (step (Click true) (init None None))) as H.
  apply shell_fields in H as (Em & _). exact Em. }
split; [exact Hreach|]. split; [exact Hm|].
exact (@cleanup_silences_everything None None s Hreach Hm).
Defined.

End Release.

(** ** What a frame leaves sounding *)

Section FrameVoices.

Import Continuum.




End FrameVoices.

(** ** The frame's drawn hands against its tracked points *)

Section DrawnAndTracked.

Import Continuum.

Lemma processHand_all (d : Detection) (h : Hand) :
  allKeypoints (processHand d h) = allKeypoints d ++ drawable [h].
Proof.
unfold drawable, processHand. cbn [flat_map]. rewrite app_nil_r.
destruct (keypoints h) as [kps|]; [|now rewrite app_nil_r].
destruct (12 <? List.length kps)%nat eqn:E; [|now rewrite app_nil_r].
destruct (nth_error kps 12) as [tip|] eqn:N.
- destruct (String.eqb (handedness h) "Right");
    [|destruct (String.eqb (handedness h) "Left")]; reflexivity.
- apply nth_error_None in N. apply Nat.ltb_lt in E. lia.
Qed.

Lemma processHands_all (hands : list Hand) (d : Detection) :
  allKeypoints (fold_left processHand hands d)
  = allKeypoints d ++ drawable hands.
Proof.
revert d. induction hands as [|h hands IH]; intros d; cbn [fold_left].
- unfold drawable. cbn [flat_map]. now rewrite app_nil_r.
- rewrite IH, processHand_all. rewrite <- app_assoc. f_equal.
  unfold drawable. cbn [flat_map]. now rewrite app_nil_r.
Qed.

Lemma labelled_drawable_length (hands : list Hand) :
  (List.length (labelled "Right" hands) + List.length (labelled "Left" hands)
   <= List.length (drawable hands) <= List.length hands)%nat.
Proof.
induction hands as [|h hands IH].
- simpl. lia.
- change (h :: hands) with ([h] ++ hands).
  rewrite !labelled_app. unfold drawable in *. rewrite flat_map_app.
  rewrite !length_app. rewrite !labelled_one.
  cbn [flat_map List.length]. rewrite app_nil_r.
  assert (Hone :
    (List.length (if String.eqb (handedness h) "Right"
                  then match pointingTip h with Some p => [p] | None => [] end
                  else [])
     + List.length (if String.eqb (handedness h) "Left"
                    then match pointingTip h with Some p => [p] | None => [] end
                    else [])
     <= List.length match keypoints h with
                    | Some kps => if (12 <? List.length kps)%nat then [kps] else []
                    | None => []
                    end <= 1)%nat).
  { unfold pointingTip. destruct (keypoints h) as [kps|].
    - destruct (12 <? List.length kps)%nat eqn:E.
      + destruct (String.eqb (handedness h) "Right") eqn:ER.
        * apply String.eqb_eq in ER. rewrite ER. cbn [String.eqb Ascii.eqb].
          destruct (nth_error kps 12); simpl; lia.
        * destruct (String.eqb (handedness h) "Left");
            destruct (nth_error kps 12); simpl; lia.
      + rewrite (short_hand_has_no_tip _ E).
        destruct (String.eqb (handedness h) "Right"),
                 (String.eqb (handedness h) "Left"); simpl; lia.
    - destruct (String.eqb (handedness h) "Right"),
               (String.eqb (handedness h) "Left"); simpl; lia. }
  lia.
Qed.

(** X6.  Whatever the detector returns, the hands handed to the drawing are
    exactly those with more than 12 keypoints, in frame order and whatever
    their label; the tracked points of both sides together are never more
    than the drawn hands, and these never more than the detected hands. *)
Theorem tracked_drawn_detected (hands : list Hand) :
  allKeypoints (processHands hands) = drawable hands
  /\ Forall (fun kps => (12 < List.length kps)%nat)
       (allKeypoints (processHands hands))
  /\ (List.length (trackedLeft hands) + List.length (trackedRight hands)
      <= List.length (allKeypoints (processHands hands))
      <= List.length hands)%nat.
Proof.
assert (E : allKeypoints (processHands hands) = drawable hands).
{ unfold processHands. now rewrite processHands_all. }
split; [exact E|]. split.
- rewrite E. unfold drawable. apply Forall_forall. intros kps Hin.
  apply in_flat_map in Hin as (h & _ & Hk).
  destruct (keypoints h) as [kps'|]; [|contradiction].
  destruct (12 <? List.length kps')%nat eqn:El; [|contradiction].
  destruct Hk as [<-|[]]. now apply Nat.ltb_lt.
- rewrite E. unfold trackedLeft, trackedRight, slice0, processHands.
  destruct (processHands_from hands
              {| newLeftHands := []; newRightHands := []; allKeypoints := [] |})
    as [El Er].
  cbn [newLeftHands newRightHands app] in El, Er. rewrite El, Er.
  pose proof (labelled_drawable_length hands) as [H1 H2].
  pose proof (firstn_le_length 3 (labelled "Right" hands)).
  pose proof (firstn_le_length 3 (labelled "Left" hands)).
  rewrite !length_firstn. lia.
Qed.

End DrawnAndTracked.

(** ** Key boundaries of the pitch map *)

Section KeyBoundaries.

Lemma clampX_inside (x width : R) : 0 <= x <= width -> clampX x width = x.
Proof.
intros [H0 H1]. unfold clampX.
destruct (Rlt_dec x 0); [lra|]. destruct (Rgt_dec x width); [lra|reflexivity].
Qed.

Lemma pitchAt_key_edge (k : Z) :
  (0 <= k <= 47)%Z -> pitchAt (IZR k) = Audio.getFrequency (25 + IZR k).
Proof.
intros Hk. unfold pitchAt. rewrite ZfloorZ, Z.min_l by lia.
assert (0 <= IZR k) by (apply IZR_le; lia).
pose proof (audio_getFrequency_playable (n:=25 + IZR k) ltac:(lra)).
pose proof (ratio_ge_1 (n:=25 + IZR k) ltac:(lra)).
replace (IZR k - IZR k) with 0 by lra.
rewrite Rpower_O by lra. ring.
Qed.

Lemma pitchAt_key_middle (k : Z) :
  (0 <= k <= 47)%Z ->
  pitchAt (IZR k + / 2)
  = sqrt (Audio.getFrequency (25 + IZR k)
          * Audio.getFrequency (25 + IZR k + 1)).
Proof.
intros Hk. unfold pitchAt.
assert (Ef : Zfloor (IZR k + / 2) = k) by (apply Zfloor_eq; lra).
rewrite Ef, Z.min_l by lia.
assert (0 <= IZR k) by (apply IZR_le; lia).
pose proof (audio_getFrequency_playable (n:=25 + IZR k) ltac:(lra)) as Hg.
pose proof (ratio_ge_1 (n:=25 + IZR k) ltac:(lra)) as Hr.
set (g := Audio.getFrequency (25 + IZR k)) in *.
set (g' := Audio.getFrequency (25 + IZR k + 1)) in *.
replace (IZR k + / 2 - IZR k) with (/ 2) by lra.
rewrite Rpower_sqrt by lra.
replace (g * g') with (g * g * (g' / g)) by (field; lra).
rewrite sqrt_mult by nra.
rewrite sqrt_square by lra. reflexivity.
Qed.

(** X7.  On a keyboard at least one pixel wide, [mapXToFreq] is, up to
    the tolerance, [getFrequency(25 + k)] at the left edge of key [k] (and
    [getFrequency(73)] at the right end of the keyboard), and the geometric
    mean of the frequencies of key [k] and of the next key halfway through
    key [k]. *)
Theorem mapXToFreq_at_keys (width : R) (k : Z) :
  1 <= width -> (0 <= k <= 48)%Z ->
  (exists f : R,
      Audio.mapXToFreq (IZR k * (width / 48)) width = Finite f
      /\ within f (Audio.getFrequency (Audio.START_NOTE + IZR k)))
  /\ ((k <= 47)%Z ->
      exists f : R,
        Audio.mapXToFreq ((IZR k + / 2) * (width / 48)) width = Finite f
        /\ within f
             (sqrt (Audio.getFrequency (Audio.START_NOTE + IZR k)
                    * Audio.getFrequency (Audio.START_NOTE + IZR k + 1)))).
Proof.
intros H1 [Hk0 Hk1]. assert (Hw : 0 < width) by lra. unfold Audio.START_NOTE.
assert (H0 : 0 <= IZR k) by (apply IZR_le; lia).
assert (H48 : IZR k <= 48) by (apply IZR_le; lia).
pose proof (audio_getFrequency_playable (n:=25 + IZR k) ltac:(lra)) as Hg.
split.
- exists (Audio.getFrequency (25 + IZR k)).
  split; [|apply within_refl; lra].
  rewrite mapXToFreq_pitchAt by assumption.
  rewrite clampX_inside by nra.
  replace (IZR k * (width / 48) / (width / 48)) with (IZR k) by (field; lra).
  f_equal. destruct (Z.eq_dec k 48) as [->|N].
  + rewrite pitchAt_48. f_equal. lra.
  + apply pitchAt_key_edge. lia.
- intros Hk. assert (H47 : IZR k <= 47) by (apply IZR_le; lia).
  pose proof (audio_getFrequency_playable (n:=25 + IZR k + 1) ltac:(lra))
    as Hg'.
  exists (sqrt (Audio.getFrequency (25 + IZR k)
                * Audio.getFrequency (25 + IZR k + 1))).
  split.
  + rewrite mapXToFreq_pitchAt by assumption.
    rewrite clampX_inside by nra.
    replace ((IZR k + / 2) * (width / 48) / (width / 48)) with (IZR k + / 2)
      by (field; lra).
    f_equal. apply pitchAt_key_middle. lia.
  + apply within_refl, sqrt_lt_R0, Rmult_lt_0_compat; lra.
Qed.

Lemma mapXToFreq_at_keys_witness :
  1 <= 960 /\ (0 <= 24 <= 48)%Z
  /\ (exists f : R,
         Audio.mapXToFreq (IZR 24 * (960 / 48)) 960 = Finite f
         /\ within f (Audio.getFrequency (Audio.START_NOTE + IZR 24)))
  /\ ((24 <= 47)%Z ->
      exists f : R,
        Audio.mapXToFreq ((IZR 24 + / 2) * (960 / 48)) 960 = Finite f
        /\ within f
             (sqrt (Audio.getFrequency (Audio.START_NOTE + IZR 24)
                    * Audio.getFrequency (Audio.START_NOTE + IZR 24 + 1)))).
Proof.
split; [lra|]. split; [lia|].
apply (@mapXToFreq_at_keys 960 24); [lra | lia].
Defined.

End KeyBoundaries.

(** ** Exponential interpolation over any keyboard *)

Section Interpolation.

Variable g : R -> R.

Hypothesis g_le : forall m n : R, 0 <= m -> m <= n -> g m <= g n.
Hypothesis g_pos : 0 < g 0.

Lemma key_pos (k : R) : 0 <= k -> 0 < g k.
Proof. intros H. pose proof (g_le (m:=0) (n:=k) ltac:(lra) H). lra. Qed.

Lemma key_ratio (k : R) : 0 <= k -> 1 <= g (k + 1) / g k.
Proof.
intros H. pose proof (key_pos H).
pose proof (g_le (m:=k) (n:=k + 1) H ltac:(lra)).
apply Rmult_le_reg_r with (g k); [assumption|].
unfold Rdiv. rewrite Rmult_assoc, Rinv_l by lra. lra.
Qed.

Lemma floor_nonneg (u : R) : 0 <= u -> 0 <= IZR (Zfloor u).
Proof. intros H. apply IZR_le, Zfloor_lub. simpl. lra. Qed.

Lemma interpolate_bounds (u : R) :
  0 <= u ->
  g (IZR (Zfloor u)) <= interpolate g u <= g (IZR (Zfloor u) + 1).
Proof.
intros Hu. unfold interpolate.
pose proof (Zfloor_bound u) as [Hl Hh].
pose proof (floor_nonneg Hu) as Hk.
pose proof (key_pos Hk) as Hg. pose proof (key_ratio Hk) as Hr.
set (k := IZR (Zfloor u)) in *.
pose proof (Rle_Rpower (g (k + 1) / g k) 0 (u - k) Hr ltac:(lra)) as H1.
pose proof (Rle_Rpower (g (k + 1) / g k) (u - k) 1 Hr ltac:(lra)) as H2.
rewrite Rpower_O in H1 by lra. rewrite Rpower_1 in H2 by lra.
split.
- replace (g k) with (g k * 1) at 1 by ring. apply Rmult_le_compat_l; lra.
- replace (g (k + 1)) with (g k * (g (k + 1) / g k)) at 2 by (field; lra).
  apply Rmult_le_compat_l; lra.
Qed.

Lemma interpolate_le (u u' : R) :
  0 <= u -> u <= u' -> interpolate g u <= interpolate g u'.
Proof.
intros Hu Huu.
assert (Hu' : 0 <= u') by lra.
pose proof (interpolate_bounds Hu) as [_ Hb].
pose proof (interpolate_bounds Hu') as [Hb' _].
pose proof (Zfloor_le _ _ Huu) as Hff.
destruct (Z.eq_dec (Zfloor u) (Zfloor u')) as [E|N].
- unfold interpolate. rewrite <- E.
  pose proof (floor_nonneg Hu) as Hk.
  pose proof (key_pos Hk). pose proof (key_ratio Hk).
  apply Rmult_le_compat_l; [lra|]. apply Rle_Rpower; lra.
- apply Rle_trans with (g (IZR (Zfloor u) + 1)); [exact Hb|].
  apply Rle_trans with (g (IZR (Zfloor u'))); [|exact Hb'].
  pose proof (floor_nonneg Hu).
  apply g_le; [lra|]. rewrite <- plus_IZR. apply IZR_le. lia.
Qed.

Lemma interpolate_key (k : Z) : (0 <= k)%Z -> interpolate g (IZR k) = g (IZR k).
Proof.
intros Hk. unfold interpolate. rewrite ZfloorZ.
assert (H : 0 <= IZR k) by (apply IZR_le; assumption).
pose proof (key_pos H). pose proof (key_ratio H).
replace (IZR k - IZR k) with 0 by lra.
rewrite Rpower_O by lra. ring.
Qed.

(** Strictly inside a key the interpolation uses that key, and lies
    strictly between its frequency and the next one's. *)
Lemma interpolate_inside (k : Z) (u : R) :
  (0 <= k)%Z -> insideKey k u -> g (IZR k) < g (IZR k + 1) ->
  interpolate g u
  = g (IZR k) * Rpower (g (IZR k + 1) / g (IZR k)) (u - IZR k)
  /\ g (IZR k) < interpolate g u < g (IZR k + 1).
Proof.
intros Hk [Hl Hh] Hlt. unfold edgeMargin in *.
assert (Ef : Zfloor u = k) by (apply Zfloor_eq; lra).
assert (H0 : 0 <= IZR k) by (now apply IZR_le).
pose proof (key_pos H0) as Hg.
assert (E : interpolate g u
            = g (IZR k) * Rpower (g (IZR k + 1) / g (IZR k)) (u - IZR k)).
{ unfold interpolate. now rewrite Ef. }
split; [exact E|]. rewrite E.
set (r := g (IZR k + 1) / g (IZR k)).
assert (Hr : 1 < r).
{ unfold r. apply Rmult_lt_reg_r with (g (IZR k)); [assumption|].
  unfold Rdiv. rewrite Rmult_assoc, Rinv_l by lra. lra. }
pose proof (Rpower_lt r 0 (u - IZR k) Hr ltac:(lra)) as P0.
pose proof (Rpower_lt r (u - IZR k) 1 Hr ltac:(lra)) as P1.
rewrite Rpower_O in P0 by lra. rewrite Rpower_1 in P1 by lra.
split.
- apply Rle_lt_trans with (g (IZR k) * 1); [lra|].
  apply Rmult_lt_compat_l; assumption.
- apply Rlt_le_trans with (g (IZR k) * r).
  + apply Rmult_lt_compat_l; assumption.
  + unfold r. right. field. lra.
Qed.

(** A position inside a higher key sounds higher than one inside a lower
    key. *)
Lemma interpolate_keys_lt (k1 k2 : Z) (u1 u2 : R) :
  (0 <= k1 < k2)%Z -> insideKey k1 u1 -> insideKey k2 u2 ->
  g (IZR k1) < g (IZR k1 + 1) -> g (IZR k2) < g (IZR k2 + 1) ->
  interpolate g u1 < interpolate g u2.
Proof.
intros [H0 H12] I1 I2 L1 L2.
destruct (@interpolate_inside k1 u1 H0 I1 L1) as [_ [_ Hb1]].
destruct (@interpolate_inside k2 u2 ltac:(lia) I2 L2) as [_ [Hb2 _]].
apply Rlt_le_trans with (1 := Hb1). apply Rle_trans with (g (IZR k2)); [|lra].
apply g_le.
- apply IZR_le in H0. lra.
- rewrite <- plus_IZR. apply IZR_le. lia.
Qed.

End Interpolation.

(** ** The pitch of a hand and of the pointer *)

Section ContinuumPitch.

Import Continuum.

Lemma equalTemperament_37 : equalTemperament 37 = 220.
Proof.
pose proof (equalTemperament_octave 37) as H.
replace (37 + 12) with 49 in H by lra.
rewrite equalTemperament_49 in H. lra.
Qed.

Lemma equalTemperament_73 : equalTemperament 73 = 1760.
Proof.
replace 73 with (49 + 12 * INR 2) by (simpl; lra).
rewrite equalTemperament_octaves_up. lra.
Qed.

Lemma continuumKey_0 : continuumKey 0 = 220.
Proof.
unfold continuumKey, START_NOTE, transpose.
replace (1 + 36 + 0) with 37 by lra.
rewrite lib_getFrequency_round, equalTemperament_37.
apply (@roundTo_int 3 220). lia.
Qed.

Lemma continuumKey_36 : continuumKey 36 = 1760.
Proof.
unfold continuumKey, START_NOTE, transpose.
replace (1 + 36 + 36) with 73 by lra.
rewrite lib_getFrequency_round, equalTemperament_73.
apply (@roundTo_int 3 1760). lia.
Qed.

Lemma continuumKey_le (m n : R) :
  0 <= m -> m <= n -> continuumKey m <= continuumKey n.
Proof.
intros _ H. unfold continuumKey. apply lib_getFrequency_le. lra.
Qed.

Lemma continuumKey_pos : 0 < continuumKey 0.
Proof. rewrite continuumKey_0. lra. Qed.

Lemma continuum_interpolate_key (k : Z) :
  (0 <= k)%Z -> interpolate continuumKey (IZR k) = continuumKey (IZR k).
Proof. exact (@interpolate_key continuumKey continuumKey_le continuumKey_pos k). Qed.

Lemma continuum_interpolate_le (u u' : R) :
  0 <= u -> u <= u' ->
  interpolate continuumKey u <= interpolate continuumKey u'.
Proof.
exact (@interpolate_le continuumKey continuumKey_le continuumKey_pos u u').
Qed.

(** The pitch over the keyboard of 36 keys: between 220 Hz and 1760 Hz,
    never decreasing from left to right. *)
Lemma continuum_interpolate_range (u : R) :
  0 <= u <= 36 -> 220 <= interpolate continuumKey u <= 1760.
Proof.
intros [H0 H36].
rewrite <- continuumKey_0, <- continuumKey_36.
rewrite <- (@continuum_interpolate_key 0) by lia.
rewrite <- (@continuum_interpolate_key 36) by lia.
split; apply continuum_interpolate_le; simpl; lra.
Qed.

(** The remainder by a positive key width, in key widths. *)
Lemma rem_in_key (a b : R) :
  0 < b -> 0 <= a -> rem a b / b = a / b - IZR (Zfloor (a / b)).
Proof.
intros Hb Ha. unfold rem, trunc.
assert (Hq : 0 <= a / b).
{ apply Rmult_le_pos; [assumption | left; now apply Rinv_0_lt_compat]. }
destruct (Rle_dec 0 (a / b)) as [_|N]; [|contradiction].
field. lra.
Qed.

(** [getFrequencyFromX] for a hand at or left of the right canvas edge,
    the keyboard starting at the left of the viewport. *)
Lemma getFrequencyFromX_interpolate (s : State) (rect : DOMRect)
      (canvas : Canvas) (x0 : R) :
  keyboardRef s = Some rect -> canvasRef s = Some canvas ->
  left rect = 0 -> 0 < width rect -> 0 < clientWidth canvas ->
  x0 <= clientWidth canvas ->
  getFrequencyFromX s x0
  = interpolate continuumKey
      (36 * ((clientWidth canvas - x0) / clientWidth canvas)).
Proof.
intros Hk Hc Hl Hw HC Hx.
unfold getFrequencyFromX. rewrite Hk, Hc, Hl. cbv zeta.
set (C := clientWidth canvas) in *. set (W := width rect) in *.
assert (Hrel : 0 <= (C - x0) / C).
{ apply Rmult_le_pos; [lra | left; now apply Rinv_0_lt_compat]. }
unfold END_NOTE, START_NOTE, transpose.
replace (36 + 36 - (1 + 36) + 1) with 36 by lra.
rewrite rem_in_key; [| lra | nra].
replace ((0 + (C - x0) / C * W) / (W / 36)) with (36 * ((C - x0) / C))
  by (field; lra).
replace ((C - x0) / C * 36) with (36 * ((C - x0) / C)) by ring.
unfold interpolate, continuumKey, Math_floor, Math_pow, START_NOTE, transpose.
set (k := IZR (Zfloor (36 * ((C - x0) / C)))).
replace (1 + 36 + (k + 1)) with (1 + 36 + k + 1) by ring.
reflexivity.
Qed.

Lemma continuumKey_lt (k : Z) :
  (0 <= k)%Z -> continuumKey (IZR k) < continuumKey (IZR k + 1).
Proof.
intros Hk. unfold continuumKey, START_NOTE, transpose.
destruct (@getFrequency_step (37 + k) ltac:(lia)) as [_ H].
rewrite plus_IZR in H.
replace (1 + 36 + IZR k) with (IZR 37 + IZR k) by (simpl; lra).
replace (1 + 36 + (IZR k + 1)) with (IZR 37 + IZR k + 1) by (simpl; lra).
exact H.
Qed.

(** Inside key [k] of the 36 keys, away from its edges. *)
Lemma continuum_inside (k : Z) (u : R) :
  (0 <= k <= 35)%Z -> insideKey k u ->
  interpolate continuumKey u
  = interpolation (Lib.getFrequency (START_NOTE + IZR k))
      (Lib.getFrequency (START_NOTE + IZR k + 1)) (u - IZR k)
  /\ Lib.getFrequency (START_NOTE + IZR k) < interpolate continuumKey u
     < Lib.getFrequency (START_NOTE + IZR k + 1)
  /\ 220 <= interpolate continuumKey u <= 1760.
Proof.
intros [Hk0 Hk1] Hin.
destruct (@interpolate_inside continuumKey continuumKey_le continuumKey_pos
            k u Hk0 Hin (continuumKey_lt Hk0)) as [E Hb].
replace (START_NOTE + IZR k + 1) with (START_NOTE + (IZR k + 1)) by ring.
split; [exact E|]. split; [exact Hb|].
apply continuum_interpolate_range.
destruct Hin as [Hl Hh]. unfold edgeMargin in *.
apply IZR_le in Hk0, Hk1. lra.
Qed.

(** X8.  With the keyboard at the left of the viewport, both at least one
    pixel wide, [getFrequencyFromX] mirrors the canvas onto the 36 keys:
    for a hand whose mirrored position lies inside key [k], at least the
    margin away from the key's edges, the result is, up to the tolerance,
    the interpolation between [getFrequency(37 + k)] and
    [getFrequency(38 + k)] at that position, it lies strictly between these
    two and hence between 220 Hz and 1760 Hz; and a hand inside a key
    further left on the canvas sounds higher than one inside a key further
    right. *)
Theorem hand_pitch_map (s : State) (rect : DOMRect) (canvas : Canvas) :
  keyboardRef s = Some rect -> canvasRef s = Some canvas ->
  left rect = 0 -> 1 <= width rect -> 1 <= clientWidth canvas ->
  (forall (x0 : R) (k : Z),
      (0 <= k <= 35)%Z ->
      insideKey k (36 * ((clientWidth canvas - x0) / clientWidth canvas)) ->
      within (getFrequencyFromX s x0)
        (interpolation (Lib.getFrequency (START_NOTE + IZR k))
           (Lib.getFrequency (START_NOTE + IZR k + 1))
           (36 * ((clientWidth canvas - x0) / clientWidth canvas) - IZR k))
      /\ Lib.getFrequency (START_NOTE + IZR k) < getFrequencyFromX s x0
         < Lib.getFrequency (START_NOTE + IZR k + 1)
      /\ 220 <= getFrequencyFromX s x0 <= 1760)
  /\ (forall (x1 x2 : R) (k1 k2 : Z),
         (0 <= k1 < k2)%Z -> (k2 <= 35)%Z ->
         insideKey k1 (36 * ((clientWidth canvas - x1) / clientWidth canvas)) ->
         insideKey k2 (36 * ((clientWidth canvas - x2) / clientWidth canvas)) ->
         x2 < x1 /\ getFrequencyFromX s x1 < getFrequencyFromX s x2).
Proof.
intros Hk Hc Hl Hw1 HC1.
assert (Hw : 0 < width rect) by lra.
assert (HC : 0 < clientWidth canvas) by lra.
set (C := clientWidth canvas) in *.
assert (Hx : forall x0 k, (0 <= k)%Z -> insideKey k (36 * ((C - x0) / C)) ->
          x0 <= C).
{ intros x0 k Hk0 [Hl0 _]. unfold edgeMargin in Hl0. apply IZR_le in Hk0.
  assert (Hq : 0 <= (C - x0) / C) by lra.
  apply Rmult_le_compat_r with (r := C) in Hq; [|lra].
  unfold Rdiv in Hq. rewrite Rmult_assoc, Rinv_l in Hq by lra. lra. }
split.
- intros x0 k Hk01 Hin.
  rewrite (getFrequencyFromX_interpolate _ Hk Hc Hl Hw HC)
    by (fold C; apply (Hx x0 k); [lia | exact Hin]).
  fold C. destruct (continuum_inside Hk01 Hin) as (E & Hb & Hr).
  split; [|split; [exact Hb | exact Hr]].
  rewrite <- E. apply within_refl. lra.
- intros x1 x2 k1 k2 H12 H35 I1 I2.
  split.
  + destruct I1 as [_ Hh1]. destruct I2 as [Hl2 _]. unfold edgeMargin in *.
    assert (Hkk : IZR k1 + 1 <= IZR k2)
      by (rewrite <- plus_IZR; apply IZR_le; lia).
    assert (Hq : (C - x1) / C < (C - x2) / C) by lra.
    apply Rmult_lt_compat_r with (r := C) in Hq; [|lra].
    unfold Rdiv in Hq. rewrite !Rmult_assoc, Rinv_l in Hq by lra. lra.
  + rewrite !(getFrequencyFromX_interpolate _ Hk Hc Hl Hw HC)
      by (fold C; first [apply (Hx x1 k1) | apply (Hx x2 k2)];
          first [lia | assumption]).
    fold C.
    apply (@interpolate_keys_lt continuumKey continuumKey_le continuumKey_pos
             k1 k2); try assumption; apply continuumKey_lt; lia.
Qed.

Lemma hand_pitch_map_witness :
  let canvas := {| clientWidth := 1920; clientHeight := 1080 |} in
  let rect := {| left := 0; top := 0; width := 1920; height := 1080 |} in
  let s := init (Some canvas) (Some rect) in
  (keyboardRef s = Some rect /\ canvasRef s = Some canvas
   /\ left rect = 0 /\ 1 <= width rect /\ 1 <= clientWidth canvas)
  /\ (forall (x0 : R) (k : Z),
         (0 <= k <= 35)%Z ->
         insideKey k (36 * ((clientWidth canvas - x0) / clientWidth canvas)) ->
         within (getFrequencyFromX s x0)
           (interpolation (Lib.getFrequency (START_NOTE + IZR k))
              (Lib.getFrequency (START_NOTE + IZR k + 1))
              (36 * ((clientWidth canvas - x0) / clientWidth canvas)
               - IZR k))
         /\ Lib.getFrequency (START_NOTE + IZR k) < getFrequencyFromX s x0
            < Lib.getFrequency (START_NOTE + IZR k + 1)
         /\ 220 <= getFrequencyFromX s x0 <= 1760)
  /\ (forall (x1 x2 : R) (k1 k2 : Z),
         (0 <= k1 < k2)%Z -> (k2 <= 35)%Z ->
         insideKey k1
           (36 * ((clientWidth canvas - x1) / clientWidth canvas)) ->
         insideKey k2
           (36 * ((clientWidth canvas - x2) / clientWidth canvas)) ->
         x2 < x1 /\ getFrequencyFromX s x1 < getFrequencyFromX s x2).
Proof.
intros canvas rect s.
assert (Hk : keyboardRef s = Some rect) by reflexivity.
assert (Hc : canvasRef s = Some canvas) by reflexivity.
assert (Hl : left rect = 0) by reflexivity.
assert (Hw : 1 <= width rect) by (simpl; lra).
assert (HC : 1 <= clientWidth canvas) by (simpl; lra).
split; [repeat split; assumption|].
exact (@hand_pitch_map s rect canvas Hk Hc Hl Hw HC).
Defined.

End ContinuumPitch.

Section PointerPitch.

Import Continuum.

Lemma voice_updated (k : Slot) (f v : R) (s : State) (o : nat) :
  wired s -> oscRefs s k = Some o ->
  voice (updateAudioNode k k f v s) k = Some (Some f, Some v).
Proof.
intros W Ho.
destruct (gainRefs s k) as [g|] eqn:Hg.
2:{ apply (wired_pair W) in Hg. congruence. }
destruct (wired_osc W _ Ho) as (c & Hc & Hlo).
destruct (wired_gain W _ Hg) as (c' & Hc' & Hlg).
rewrite Hc in Hc'. injection Hc' as <-.
rewrite (updateAudioNode_ramps _ _ _ _ _ Ho Hg Hc).
unfold voice; fields. rewrite Ho, Hg.
unfold updatedContext; cbn [oscillators gains].
rewrite !alter_nth_same.
destruct (nth_error (oscillators c) o) as [n|] eqn:En.
2:{ apply nth_error_None in En. lia. }
destruct (nth_error (gains c) g) as [m|] eqn:Em.
2:{ apply nth_error_None in Em. lia. }
cbn [option_map frequency gain]. now rewrite !target_last.
Qed.

(** [handleMouseMove] is an update of the pointer slot to [pointerPitch]. *)
Lemma handleMouseMove_update (s : State) (rect : DOMRect) (cx cy : R) :
  isReady s = true -> keyboardRef s = Some rect -> 0 < width rect ->
  left rect <= cx ->
  handleMouseMove cx cy s
  = updateAudioNode Mouse Mouse (pointerPitch rect cx) (getVolumeFromY s cy) s.
Proof.
intros Hr Hk Hw Hx. unfold handleMouseMove. rewrite Hr, Hk. cbv zeta.
f_equal. unfold END_NOTE, START_NOTE, transpose.
replace (36 + 36 - (1 + 36) + 1) with 36 by lra.
rewrite rem_in_key; [| lra | lra].
unfold pointerPitch, interpolate, continuumKey, Math_floor, Math_pow,
  START_NOTE, transpose.
set (k := IZR (Zfloor ((cx - left rect) / (width rect / 36)))).
replace (1 + 36 + (k + 1)) with (1 + 36 + k + 1) by ring.
reflexivity.
Qed.

(** X9.  While the pointer voice sounds, on a keyboard at least one pixel
    wide, a pointer move to a position inside key [k], at least the margin
    away from the key's edges, retargets the voice to the volume of its
    height and, up to the tolerance, to the interpolation between
    [getFrequency(37 + k)] and [getFrequency(38 + k)] at that position; the
    new pitch lies strictly between these two, hence between 220 Hz and
    1760 Hz, and a move into a key further right retargets to a higher
    pitch.  With the keyboard at the left of the viewport the pitch
    [getFrequencyFromX] gives a hand is, up to the tolerance, what a
    pointer move to the mirrored position plays. *)
Theorem pointer_pitch_map (canvas0 : option Canvas)
        (keyboard0 : option DOMRect) (s : State) (rect : DOMRect) (o : nat) :
  reachable canvas0 keyboard0 s ->
  isReady s = true -> keyboardRef s = Some rect -> 1 <= width rect ->
  oscRefs s Mouse = Some o ->
  (forall (cx cy : R) (k : Z),
      (0 <= k <= 35)%Z ->
      insideKey k ((cx - left rect) / (width rect / 36)) ->
      exists f : R,
        voice (handleMouseMove cx cy s) Mouse
        = Some (Some f, Some (getVolumeFromY s cy))
        /\ within f
             (interpolation (Lib.getFrequency (START_NOTE + IZR k))
                (Lib.getFrequency (START_NOTE + IZR k + 1))
                ((cx - left rect) / (width rect / 36) - IZR k))
        /\ Lib.getFrequency (START_NOTE + IZR k) < f
           < Lib.getFrequency (START_NOTE + IZR k + 1)
        /\ 220 <= f <= 1760)
  /\ (forall (cx1 cx2 cy : R) (k1 k2 : Z),
         (0 <= k1 < k2)%Z -> (k2 <= 35)%Z ->
         insideKey k1 ((cx1 - left rect) / (width rect / 36)) ->
         insideKey k2 ((cx2 - left rect) / (width rect / 36)) ->
         exists f1 f2 : R,
           voice (handleMouseMove cx1 cy s) Mouse
           = Some (Some f1, Some (getVolumeFromY s cy))
           /\ voice (handleMouseMove cx2 cy s) Mouse
              = Some (Some f2, Some (getVolumeFromY s cy))
           /\ f1 < f2)
  /\ (forall (canvas : Canvas) (x0 cy : R) (k : Z),
         canvasRef s = Some canvas -> left rect = 0 ->
         1 <= clientWidth canvas -> (0 <= k <= 35)%Z ->
         insideKey k
           (36 * ((clientWidth canvas - x0) / clientWidth canvas)) ->
         exists f : R,
           voice (handleMouseMove
                    (width rect
                     * ((clientWidth canvas - x0) / clientWidth canvas))
                    cy s) Mouse
           = Some (Some f, Some (getVolumeFromY s cy))
           /\ within (getFrequencyFromX s x0) f).
Proof.
intros Hreach Hr Hk Hw1 Ho.
assert (Hw : 0 < width rect) by lra.
pose proof (reachable_wired Hreach) as W.
assert (Hmove : forall cx cy k, (0 <= k)%Z ->
          insideKey k ((cx - left rect) / (width rect / 36)) ->
          voice (handleMouseMove cx cy s) Mouse
          = Some (Some (pointerPitch rect cx), Some (getVolumeFromY s cy))).
{ intros cx cy k Hk0 [Hl _]. unfold edgeMargin in Hl. apply IZR_le in Hk0.
  assert (Hx : left rect <= cx).
  { assert (Hq : 0 <= (cx - left rect) / (width rect / 36)) by lra.
    apply Rmult_le_compat_r with (r := width rect / 36) in Hq; [|lra].
    unfold Rdiv at 2 in Hq. rewrite Rmult_assoc, Rinv_l in Hq by lra. lra. }
  rewrite (handleMouseMove_update _ _ Hr Hk Hw Hx).
  exact (voice_updated _ _ _ W Ho). }
split; [|split].
- intros cx cy k Hk01 Hin. exists (pointerPitch rect cx).
  split; [apply (Hmove cx cy k); [lia | exact Hin]|].
  unfold pointerPitch.
  destruct (continuum_inside Hk01 Hin) as (E & Hb & Hrange).
  split; [|split; [exact Hb | exact Hrange]].
  rewrite <- E. apply within_refl. lra.
- intros cx1 cx2 cy k1 k2 H12 H35 I1 I2.
  exists (pointerPitch rect cx1), (pointerPitch rect cx2).
  split; [apply (Hmove cx1 cy k1); [lia | exact I1]|].
  split; [apply (Hmove cx2 cy k2); [lia | exact I2]|].
  unfold pointerPitch.
  apply (@interpolate_keys_lt continuumKey continuumKey_le continuumKey_pos
           k1 k2); try assumption; apply continuumKey_lt; lia.
- intros canvas x0 cy k Hc Hl HC1 Hk01 Hin.
  assert (HC : 0 < clientWidth canvas) by lra.
  set (C := clientWidth canvas) in *.
  set (cx := width rect * ((C - x0) / C)).
  assert (Eu : (cx - left rect) / (width rect / 36) = 36 * ((C - x0) / C)).
  { unfold cx. rewrite Hl. field. lra. }
  exists (pointerPitch rect cx).
  split; [apply (Hmove cx cy k); [lia | rewrite Eu; exact Hin]|].
  assert (Hx : x0 <= C).
  { destruct Hin as [Hl0 _]. unfold edgeMargin in Hl0.
    destruct Hk01 as [Hk0 _]. apply IZR_le in Hk0.
    assert (Hq : 0 <= (C - x0) / C) by lra.
    apply Rmult_le_compat_r with (r := C) in Hq; [|lra].
    unfold Rdiv in Hq. rewrite Rmult_assoc, Rinv_l in Hq by lra. lra. }
  rewrite (getFrequencyFromX_interpolate _ Hk Hc Hl Hw HC Hx). fold C.
  unfold pointerPitch. rewrite Eu.
  destruct (continuum_inside Hk01 Hin) as (_ & _ & Hrange).
  apply within_refl. lra.
Qed.

Lemma pointer_pitch_map_witness :
  let canvas := {| clientWidth := 1920; clientHeight := 1080 |} in
  let rect := {| left := 0; top := 0; width := 1920; height := 1080 |} in
  let s := step (MouseEnter 100 50)
             (step (Click true) (init (Some canvas) (Some rect))) in
  (reachable (Some canvas) (Some rect) s
   /\ isReady s = true /\ keyboardRef s = Some rect /\ 1 <= width rect
   /\ oscRefs s Mouse = Some 0%nat)
  /\ (forall (cx cy : R) (k : Z),
         (0 <= k <= 35)%Z ->
         insideKey k ((cx - left rect) / (width rect / 36)) ->
         exists f : R,
           voice (handleMouseMove cx cy s) Mouse
           = Some (Some f, Some (getVolumeFromY s cy))
           /\ within f
                (interpolation (Lib.getFrequency (START_NOTE + IZR k))
                   (Lib.getFrequency (START_NOTE + IZR k + 1))
                   ((cx - left rect) / (width rect / 36) - IZR k))
           /\ Lib.getFrequency (START_NOTE + IZR k) < f
              < Lib.getFrequency (START_NOTE + IZR k + 1)
           /\ 220 <= f <= 1760)
  /\ (forall (cx1 cx2 cy : R) (k1 k2 : Z),
         (0 <= k1 < k2)%Z -> (k2 <= 35)%Z ->
         insideKey k1 ((cx1 - left rect) / (width rect / 36)) ->
         insideKey k2 ((cx2 - left rect) / (width rect / 36)) ->
         exists f1 f2 : R,
           voice (handleMouseMove cx1 cy s) Mouse
           = Some (Some f1, Some (getVolumeFromY s cy))
           /\ voice (handleMouseMove cx2 cy s) Mouse
              = Some (Some f2, Some (getVolumeFromY s cy))
           /\ f1 < f2)
  /\ (forall (canvas1 : Canvas) (x0 cy : R) (k : Z),
         canvasRef s = Some canvas1 -> left rect = 0 ->
         1 <= clientWidth canvas1 -> (0 <= k <= 35)%Z ->
         insideKey k
           (36 * ((clientWidth canvas1 - x0) / clientWidth canvas1)) ->
         exists f : R,
           voice (handleMouseMove
                    (width rect
                     * ((clientWidth canvas1 - x0) / clientWidth canvas1))
                    cy s) Mouse
           = Some (Some f, Some (getVolumeFromY s cy))
           /\ within (getFrequencyFromX s x0) f).
Proof.
intros canvas rect s.
assert (Hreach : reachable (Some canvas) (Some rect) s)
  by (unfold s; repeat constructor).
assert (Hr : isReady s = true) by reflexivity.
assert (Hk : keyboardRef s = Some rect) by reflexivity.
assert (Hw : 1 <= width rect) by (simpl; lra).
assert (Ho : oscRefs s Mouse = Some 0%nat) by reflexivity.
split; [repeat split; assumption|].
exact (@pointer_pitch_map (Some canvas) (Some rect) s rect 0%nat
         Hreach Hr Hk Hw Ho).
Defined.

End PointerPitch.

(** ** utils/audio.ts: the life of an oscillator *)

Section OscillatorLife.

Ltac run_app_once :=
  cbv beta iota zeta delta
    [Audio.startOscillator Audio.stopOscillator Audio.fireTimeout
     Audio.disconnectCallback
     Audio.ctx Audio.oscRef Audio.gainRef Audio.timeouts
     createOscillator createGain setType scheduleFrequency scheduleGain
     gainCancelScheduledValues connectOscillator connectDestination
     start stop disconnectOscillator disconnectGain
     onOscillator onGain perform
     state currentTime oscillators gains calls] in *.

Ltac run_app := run_app_once; cbn [app] in *; run_app_once.

Ltac run_stores :=
  rewrite ?alter_alter, ?alter_last, ?alter_alter, ?alter_last;
  cbv beta iota delta
    [osc_type frequency started stopAt osc_output gain toDestination].

(** X10.  [startOscillator] on empty ref cells creates one oscillator and
    one gain node, fills both cells and leaves the oscillator live, its
    gain heading to 0.15; [stopOscillator] then leaves it connected and
    the cells filled; only the timeout empties the cells and disconnects
    it. *)
Theorem oscillator_life (f : R) (a : Audio.App) :
  Audio.oscRef a = None -> Audio.timeouts a = [] ->
  let osc := List.length (oscillators (Audio.ctx a)) in
  let gainNode := List.length (gains (Audio.ctx a)) in
  let a1 := Audio.startOscillator f a in
  let a2 := Audio.stopOscillator a1 in
  let a3 := Audio.fireTimeout a2 in
  (Audio.oscRef a1 = Some osc /\ Audio.gainRef a1 = Some gainNode
   /\ live (Audio.ctx a1) osc = true
   /\ option_map (fun n => target (gain n))
        (nth_error (gains (Audio.ctx a1)) gainNode) = Some (Some 0.15))
  /\ (Audio.oscRef a2 = Some osc /\ Audio.gainRef a2 = Some gainNode
      /\ live (Audio.ctx a2) osc = true /\ Audio.timeouts a2 = [200])
  /\ (Audio.oscRef a3 = None /\ Audio.gainRef a3 = None
      /\ live (Audio.ctx a3) osc = false /\ Audio.timeouts a3 = []).
Proof.
destruct a as [[st t os gs cs] o g ts]. cbn [Audio.oscRef Audio.timeouts].
intros -> ->. cbv zeta. run_app.
repeat split.
- unfold live; cbn [oscillators gains]. rewrite ?alter_alter, ?alter_last.
  rewrite nth_error_last. run_stores. rewrite ?nth_error_last. reflexivity.
- rewrite ?alter_alter, ?alter_last. rewrite nth_error_last. reflexivity.
- unfold live; cbn [oscillators gains]. rewrite ?alter_alter, ?alter_last.
  rewrite nth_error_last. run_stores. rewrite ?nth_error_last. reflexivity.
- unfold live; cbn [oscillators gains]. rewrite ?alter_alter, ?alter_last.
  rewrite nth_error_last. run_stores. rewrite ?nth_error_last. reflexivity.
Qed.

Lemma oscillator_life_witness :
  let a := {| Audio.ctx := newAudioContext running; Audio.oscRef := None;
              Audio.gainRef := None; Audio.timeouts := [] |} in
  let osc := List.length (oscillators (Audio.ctx a)) in
  let gainNode := List.length (gains (Audio.ctx a)) in
  let a1 := Audio.startOscillator 440 a in
  let a2 := Audio.stopOscillator a1 in
  let a3 := Audio.fireTimeout a2 in
  Audio.oscRef a = None /\ Audio.timeouts a = []
  /\ (Audio.oscRef a1 = Some osc /\ Audio.gainRef a1 = Some gainNode
      /\ live (Audio.ctx a1) osc = true
      /\ option_map (fun n => target (gain n))
           (nth_error (gains (Audio.ctx a1)) gainNode) = Some (Some 0.15))
  /\ (Audio.oscRef a2 = Some osc /\ Audio.gainRef a2 = Some gainNode
      /\ live (Audio.ctx a2) osc = true /\ Audio.timeouts a2 = [200])
  /\ (Audio.oscRef a3 = None /\ Audio.gainRef a3 = None
      /\ live (Audio.ctx a3) osc = false /\ Audio.timeouts a3 = []).
Proof.
intros a osc gainNode a1 a2 a3.
split; [reflexivity|]. split; [reflexivity|].
exact (@oscillator_life 440 a eq_refl eq_refl).
Defined.

(** X11.  While a voice sounds with no timeout pending, a stop followed by
    a start before the timeout creates nothing: the start only sets the
    frequency of the oscillator that is about to stop, and when the timeout
    fires the cells are empty and that oscillator is disconnected.  The
    start request is lost. *)
Theorem start_in_release_window_is_lost (f : R) (a : Audio.App) (o g : nat) :
  Audio.oscRef a = Some o -> Audio.gainRef a = Some g ->
  Audio.timeouts a = [] ->
  let a2 := Audio.startOscillator f (Audio.stopOscillator a) in
  let a3 := Audio.fireTimeout a2 in
  List.length (oscillators (Audio.ctx a3))
  = List.length (oscillators (Audio.ctx a))
  /\ List.length (gains (Audio.ctx a3)) = List.length (gains (Audio.ctx a))
  /\ Audio.oscRef a2 = Some o
  /\ Audio.oscRef a3 = None /\ Audio.gainRef a3 = None
  /\ live (Audio.ctx a3) o = false.
Proof.
destruct a as [[st t os gs cs] o0 g0 ts].
cbn [Audio.oscRef Audio.gainRef Audio.timeouts].
intros -> -> ->. cbv zeta. run_app.
rewrite !alter_length. repeat split.
unfold live; cbn [oscillators gains]. rewrite ?alter_alter.
rewrite alter_nth_same.
destruct (nth_error os o) as [n|]; [|reflexivity].
cbn [option_map]. run_stores. apply andb_false_r.
Qed.

Lemma start_in_release_window_is_lost_witness :
  let a := Audio.startOscillator 440
             {| Audio.ctx := newAudioContext running; Audio.oscRef := None;
                Audio.gainRef := None; Audio.timeouts := [] |} in
  let a2 := Audio.startOscillator 880 (Audio.stopOscillator a) in
  let a3 := Audio.fireTimeout a2 in
  Audio.oscRef a = Some 0%nat /\ Audio.gainRef a = Some 0%nat
  /\ Audio.timeouts a = []
  /\ List.length (oscillators (Audio.ctx a3))
     = List.length (oscillators (Audio.ctx a))
  /\ List.length (gains (Audio.ctx a3)) = List.length (gains (Audio.ctx a))
  /\ Audio.oscRef a2 = Some 0%nat
  /\ Audio.oscRef a3 = None /\ Audio.gainRef a3 = None
  /\ live (Audio.ctx a3) 0 = false.
Proof.
intros a a2 a3.
split; [reflexivity|]. split; [reflexivity|]. split; [reflexivity|].
exact (@start_in_release_window_is_lost 880 a 0%nat 0%nat
         eq_refl eq_refl eq_refl).
Defined.

Lemma alter_snoc_at {A : Type} (f : A -> A) (l l' : list A) (a : A) :
  List.length l' = List.length l ->
  alter f (List.length l) (l' ++ [a]) = l' ++ [f a].
Proof. intros <-. apply alter_last. Qed.

Lemma nth_error_snoc_at {A : Type} (l l' : list A) (a : A) :
  List.length l' = List.length l ->
  nth_error (l' ++ [a]) (List.length l) = Some a.
Proof. intros <-. apply nth_error_last. Qed.

Ltac run_fresh :=
  repeat first
    [ rewrite alter_alter
    | rewrite alter_snoc_at by (rewrite ?alter_length; reflexivity)
    | rewrite nth_error_snoc_at by (rewrite ?alter_length; reflexivity) ];
  cbv beta iota delta
    [osc_type frequency started stopAt osc_output gain toDestination].

(** X12.  While a voice sounds with no timeout pending, two stops queue
    two timeouts.  After the first has fired, a start creates a new, live
    oscillator; the second timeout then empties the cells again and
    disconnects that new oscillator. *)
Theorem stale_timeout_silences_new_voice (f : R) (a : Audio.App) (o g : nat) :
  Audio.oscRef a = Some o -> Audio.gainRef a = Some g ->
  Audio.timeouts a = [] ->
  let osc := List.length (oscillators (Audio.ctx a)) in
  let a2 := Audio.fireTimeout (Audio.stopOscillator (Audio.stopOscillator a)) in
  let a3 := Audio.startOscillator f a2 in
  let a4 := Audio.fireTimeout a3 in
  (Audio.oscRef a2 = None /\ Audio.timeouts a2 = [200])
  /\ (Audio.oscRef a3 = Some osc /\ live (Audio.ctx a3) osc = true)
  /\ (Audio.oscRef a4 = None /\ Audio.gainRef a4 = None
      /\ live (Audio.ctx a4) osc = false /\ Audio.timeouts a4 = []).
Proof.
destruct a as [[st t os gs cs] o0 g0 ts].
cbn [Audio.oscRef Audio.gainRef Audio.timeouts].
intros -> -> ->. cbv zeta. run_app.
rewrite !alter_length. repeat split.
- unfold live; cbn [oscillators gains]. run_fresh. run_fresh. reflexivity.
- unfold live; cbn [oscillators gains]. run_fresh. apply andb_false_r.
Qed.

Lemma stale_timeout_silences_new_voice_witness :
  let a := Audio.startOscillator 440
             {| Audio.ctx := newAudioContext running; Audio.oscRef := None;
                Audio.gainRef := None; Audio.timeouts := [] |} in
  let a2 := Audio.fireTimeout (Audio.stopOscillator (Audio.stopOscillator a)) in
  let a3 := Audio.startOscillator 880 a2 in
  let a4 := Audio.fireTimeout a3 in
  (Audio.oscRef a = Some 0%nat /\ Audio.gainRef a = Some 0%nat
   /\ Audio.timeouts a = [])
  /\ (Audio.oscRef a2 = None /\ Audio.timeouts a2 = [200])
  /\ (Audio.oscRef a3 = Some 1%nat /\ live (Audio.ctx a3) 1 = true)
  /\ (Audio.oscRef a4 = None /\ Audio.gainRef a4 = None
      /\ live (Audio.ctx a4) 1 = false /\ Audio.timeouts a4 = []).
Proof.
intros a a2 a3 a4.
split; [repeat split|].
exact (@stale_timeout_silences_new_voice 880 a 0%nat 0%nat
         eq_refl eq_refl eq_refl).
Defined.

End OscillatorLife.

(** ** The skeleton overlay *)

Section Overlay.

Import Canvas2D.

Lemma forEach_ok {A : Type} (f : A -> Run) (l : list A) :
  snd (forEach f l) = true <-> Forall (fun a => snd (f a) = true) l.
Proof.
induction l as [|a l IH]; cbn [forEach].
- split; [constructor | reflexivity].
- destruct (f a) as [cs ok] eqn:E. destruct ok.
  + destruct (forEach f l) as [cs' ok']. cbn [snd] in *. split.
    * intros H. constructor; [now rewrite E | now apply IH].
    * intros H. inversion H; subst. now apply IH.
  + cbn [snd]. split; [discriminate|].
    intros H. inversion H as [|? ? H1 _]; subst. now rewrite E in H1.
Qed.

Lemma forEach_calls {A : Type} (f : A -> Run) (l : list A) :
  snd (forEach f l) = true ->
  fst (forEach f l) = flat_map (fun a => fst (f a)) l.
Proof.
induction l as [|a l IH]; cbn [forEach flat_map]; [reflexivity|].
destruct (f a) as [cs ok]. destruct ok; [|discriminate].
destruct (forEach f l) as [cs' ok']. cbn [fst snd] in *.
intros H. now rewrite IH.
Qed.

Lemma forEach_throws {A : Type} (f : A -> Run) (good rest : list A)
    (bad : A) :
  Forall (fun a => snd (f a) = true) good -> snd (f bad) = false ->
  forEach f (good ++ bad :: rest)
  = (fst (forEach f good) ++ fst (f bad), false).
Proof.
intros Hg Hb. induction good as [|a good IH]; cbn [forEach app].
- destruct (f bad) as [cs ok]. cbn [snd fst] in *. now subst.
- inversion Hg as [|? ? Ha Hg']; subst.
  destruct (f a) as [cs ok]. cbn [snd] in Ha. subst ok.
  rewrite (IH Hg').
  assert (Hok := proj2 (forEach_ok f good) Hg').
  destruct (forEach f good) as [cs' ok']. cbn [fst snd] in *.
  now rewrite app_assoc.
Qed.

Lemma drawConnection_ok (hand : list Continuum.Keypoint) (i j : nat) :
  snd (drawConnection hand (i, j)) = true
  <-> (i < List.length hand /\ j < List.length hand)%nat.
Proof.
unfold drawConnection.
destruct (nth_error hand i) as [p|] eqn:Ei;
  [destruct (nth_error hand j) as [q|] eqn:Ej|]; cbn [snd].
- split; [intros _|reflexivity].
  split; apply nth_error_Some; congruence.
- split; [discriminate|]. intros [_ H].
  apply nth_error_Some in H. congruence.
- split; [discriminate|]. intros [H _].
  apply nth_error_Some in H. congruence.
Qed.

Lemma connections_ok (hand : list Continuum.Keypoint) :
  snd (forEach (drawConnection hand) connections) = true
  <-> (21 <= List.length hand)%nat.
Proof.
rewrite forEach_ok. split.
- intros H. rewrite Forall_forall in H.
  assert (Hin : In (19, 20)%nat connections).
  { unfold connections. repeat (first [now left | right]). }
  apply H in Hin. apply drawConnection_ok in Hin. lia.
- intros H. unfold connections.
  repeat (constructor; [apply drawConnection_ok; lia|]). constructor.
Qed.

Lemma drawHand_ok (hand : list Continuum.Keypoint) :
  snd (drawHand hand) = true <-> (21 <= List.length hand)%nat.
Proof.
rewrite <- connections_ok. unfold drawHand.
destruct (forEach (drawConnection hand) connections) as [cs ok].
destruct ok; cbn [snd]; tauto.
Qed.

Lemma count_app (p : DrawCall -> bool) (l1 l2 : list DrawCall) :
  count p (l1 ++ l2) = (count p l1 + count p l2)%nat.
Proof. unfold count. now rewrite filter_app, length_app. Qed.

Lemma count_flat_map {A : Type} (p : DrawCall -> bool)
    (f : A -> list DrawCall) (n : nat) (l : list A) :
  (forall a, In a l -> count p (f a) = n) ->
  count p (flat_map f l) = (n * List.length l)%nat.
Proof.
induction l as [|a l IH]; intros H; cbn [flat_map List.length].
- unfold count. cbn. lia.
- rewrite count_app, IH, H by (intros; apply H; now right) || now left. lia.
Qed.

Lemma count_drawConnection (hand : list Continuum.Keypoint)
    (c : nat * nat) :
  snd (drawConnection hand c) = true ->
  count isStroke (fst (drawConnection hand c)) = 1%nat
  /\ count isFill (fst (drawConnection hand c)) = 0%nat
  /\ count isOrange (fst (drawConnection hand c)) = 0%nat.
Proof.
destruct c as [i j]. unfold drawConnection.
destruct (nth_error hand i) as [k|]; [|discriminate].
destruct (nth_error hand j) as [q|]; [|discriminate].
intros _. repeat split.
Qed.

Lemma count_drawConnection_thrown (hand : list Continuum.Keypoint)
    (c : nat * nat) :
  snd (drawConnection hand c) = false ->
  count isStroke (fst (drawConnection hand c)) = 0%nat
  /\ count isFill (fst (drawConnection hand c)) = 0%nat.
Proof.
destruct c as [i j]. unfold drawConnection.
destruct (nth_error hand i) as [k|]; [|split; reflexivity].
destruct (nth_error hand j) as [q|]; [discriminate|split; reflexivity].
Qed.

Lemma count_connections (hand : list Continuum.Keypoint) :
  snd (forEach (drawConnection hand) connections) = true ->
  count isStroke (fst (forEach (drawConnection hand) connections)) = 21%nat
  /\ count isFill (fst (forEach (drawConnection hand) connections)) = 0%nat
  /\ count isOrange (fst (forEach (drawConnection hand) connections))
     = 0%nat.
Proof.
intros H. rewrite (forEach_calls _ _ H).
apply forEach_ok in H. rewrite Forall_forall in H.
repeat split.
- rewrite (@count_flat_map _ isStroke _ 1%nat); [reflexivity|].
  intros c Hc. now apply count_drawConnection, H.
- rewrite (@count_flat_map _ isFill _ 0%nat); [reflexivity|].
  intros c Hc. now apply count_drawConnection, H.
- rewrite (@count_flat_map _ isOrange _ 0%nat); [reflexivity|].
  intros c Hc. now apply count_drawConnection, H.
Qed.

Lemma count_thrown_connections (hand : list Continuum.Keypoint)
    (cs : list (nat * nat)) :
  count isFill (fst (forEach (drawConnection hand) cs)) = 0%nat
  /\ (count isStroke (fst (forEach (drawConnection hand) cs))
      <= List.length cs)%nat
  /\ (snd (forEach (drawConnection hand) cs) = false ->
      (count isStroke (fst (forEach (drawConnection hand) cs))
       < List.length cs)%nat).
Proof.
induction cs as [|c cs IH]; cbn [forEach List.length].
- repeat split; [apply Nat.le_0_l | discriminate].
- pose proof (@count_drawConnection hand c) as Hok.
  pose proof (@count_drawConnection_thrown hand c) as Hko.
  destruct (drawConnection hand c) as [l ok]. cbn [fst snd] in *.
  destruct ok.
  + destruct (Hok eq_refl) as (H1 & H2 & _).
    destruct (forEach (drawConnection hand) cs) as [l' ok'].
    cbn [fst snd] in *. rewrite !count_app, H1, H2.
    destruct IH as (I1 & I2 & I3). repeat split; try lia.
    intros E. specialize (I3 E). lia.
  + destruct (Hko eq_refl) as (H1 & H2). cbn [fst snd].
    rewrite H1, H2. repeat split; lia.
Qed.

Lemma count_drawKeypoints (i : nat) (hand : list Continuum.Keypoint) :
  count isStroke (drawKeypoints i hand) = 0%nat
  /\ count isFill (drawKeypoints i hand) = List.length hand
  /\ count isOrange (drawKeypoints i hand)
     = (if ((i <=? 12) && (12 <? i + List.length hand))%nat then 1 else 0)%nat.
Proof.
revert i. induction hand as [|k hand IH]; intros i.
- cbn [drawKeypoints List.length]. repeat split.
  destruct (i <=? 12)%nat eqn:E1; [|reflexivity].
  destruct (12 <? i + 0)%nat eqn:E2; [|reflexivity].
  apply Nat.leb_le in E1. apply Nat.ltb_lt in E2. lia.
- cbn [drawKeypoints List.length]. rewrite !count_app.
  destruct (IH (S i)) as (-> & -> & ->). repeat split.
  unfold drawKeypoint, count. cbn [filter isOrange].
  destruct (Nat.eqb i 12) eqn:E.
  + apply Nat.eqb_eq in E. subst i.
    replace (String.eqb "orange" "orange") with true by reflexivity.
    replace (13 <=? 12)%nat with false by reflexivity. reflexivity.
  + apply Nat.eqb_neq in E.
    replace (String.eqb "yellow" "orange") with false by reflexivity.
    cbn [List.length Nat.add].
    destruct (i <=? 12)%nat eqn:E1, (S i <=? 12)%nat eqn:E2;
      destruct (12 <? i + S (List.length hand))%nat eqn:E3,
               (12 <? S (i + List.length hand))%nat eqn:E4;
      cbn [andb]; try reflexivity; exfalso;
      repeat match goal with
      | H : (_ <=? _)%nat = true |- _ => apply Nat.leb_le in H
      | H : (_ <=? _)%nat = false |- _ => apply Nat.leb_gt in H
      | H : (_ <? _)%nat = true |- _ => apply Nat.ltb_lt in H
      | H : (_ <? _)%nat = false |- _ => apply Nat.ltb_ge in H
      end; lia.
Qed.

Lemma count_drawHand (hand : list Continuum.Keypoint) :
  (21 <= List.length hand)%nat ->
  count isStroke (fst (drawHand hand)) = 21%nat
  /\ count isFill (fst (drawHand hand)) = List.length hand
  /\ count isOrange (fst (drawHand hand)) = 1%nat.
Proof.
intros H. pose proof (proj2 (connections_ok hand) H) as Hok.
pose proof (count_connections hand Hok) as (H1 & H2 & H3).
pose proof (count_drawKeypoints 0 hand) as (K1 & K2 & K3).
unfold drawHand.
destruct (forEach (drawConnection hand) connections) as [cs ok].
cbn [snd fst] in *. subst ok. cbn [fst].
change (SetStrokeStyle "white" :: SetLineWidth 3 :: cs ++ drawKeypoints 0 hand)
  with ([SetStrokeStyle "white"; SetLineWidth 3]
          ++ cs ++ drawKeypoints 0 hand).
rewrite !count_app, H1, H2, H3, K1, K2, K3.
replace ((0 <=? 12) && (12 <? 0 + List.length hand))%nat with true.
- repeat split.
- symmetry. apply andb_true_iff. split; [reflexivity|].
  apply Nat.ltb_lt. lia.
Qed.

Lemma count_drawHands (hands : list (list Continuum.Keypoint)) :
  Forall (fun h => (21 <= List.length h)%nat) hands ->
  count isStroke (fst (drawHands hands)) = (21 * List.length hands)%nat
  /\ count isFill (fst (drawHands hands)) = List.length (List.concat hands)
  /\ count isOrange (fst (drawHands hands)) = List.length hands.
Proof.
intros H. unfold drawHands.
assert (Hok : snd (forEach drawHand hands) = true).
{ apply forEach_ok. eapply Forall_impl; [|exact H].
  intros h. apply drawHand_ok. }
rewrite (forEach_calls _ _ Hok). clear Hok.
induction H as [|h hands Hh H IH]; [repeat split|].
cbn [flat_map List.concat List.length]. rewrite !count_app, !length_app.
destruct IH as (-> & -> & ->).
destruct (@count_drawHand h Hh) as (-> & -> & ->). repeat split; lia.
Qed.

(** X13.  [drawHands] runs to its end exactly when every hand has at least
    21 keypoints; it then strokes 21 line segments for each hand, fills one
    dot for each keypoint, and sets the orange fill once for each hand. *)
Theorem drawHands_completes (hands : list (list Continuum.Keypoint)) :
  (snd (drawHands hands) = true
   <-> Forall (fun h => (21 <= List.length h)%nat) hands)
  /\ (snd (drawHands hands) = true ->
      count isStroke (fst (drawHands hands)) = (21 * List.length hands)%nat
      /\ count isFill (fst (drawHands hands)) = List.length (List.concat hands)
      /\ count isOrange (fst (drawHands hands)) = List.length hands).
Proof.
assert (E : snd (drawHands hands) = true
            <-> Forall (fun h => (21 <= List.length h)%nat) hands).
{ unfold drawHands. rewrite forEach_ok. split; intros H;
    (eapply Forall_impl; [|exact H]); intros h; apply drawHand_ok. }
split; [exact E|].
intros H. now apply count_drawHands, E.
Qed.

(** X14.  At the first hand with fewer than 21 keypoints [drawHands]
    throws: the hands before it are drawn in full, of the short hand fewer
    than 21 line segments and none of its dots, and nothing of the hands
    after it. *)
Theorem drawHands_stops_at_short_hand
    (good rest : list (list Continuum.Keypoint))
    (bad : list Continuum.Keypoint) :
  Forall (fun h => (21 <= List.length h)%nat) good ->
  (List.length bad < 21)%nat ->
  drawHands (good ++ bad :: rest)
  = (fst (drawHands good) ++ fst (drawHand bad), false)
  /\ snd (drawHands good) = true
  /\ count isFill (fst (drawHand bad)) = 0%nat
  /\ (count isStroke (fst (drawHand bad)) < 21)%nat.
Proof.
intros Hg Hb.
assert (Hbad : snd (drawHand bad) = false).
{ destruct (snd (drawHand bad)) eqn:E; [|reflexivity].
  apply drawHand_ok in E. lia. }
assert (Hgood : Forall (fun h => snd (drawHand h) = true) good).
{ eapply Forall_impl; [|exact Hg]. intros h. apply drawHand_ok. }
pose proof (count_thrown_connections bad connections) as (Hf & _ & Hs).
split; [|split].
- unfold drawHands. now apply forEach_throws.
- unfold drawHands. now apply forEach_ok.
- unfold drawHand in *.
  destruct (forEach (drawConnection bad) connections) as [cs ok].
  destruct ok; [discriminate|]. cbn [fst snd] in *.
  split; [exact Hf | exact (Hs eq_refl)].
Qed.

Lemma drawHands_stops_at_short_hand_witness :
  let bad := repeat {| Continuum.x := 0; Continuum.y := 0 |} 13 in
  Forall (fun h : list Continuum.Keypoint => (21 <= List.length h)%nat) []
  /\ (List.length bad < 21)%nat
  /\ drawHands ([] ++ bad :: [])
     = (fst (drawHands []) ++ fst (drawHand bad), false)
  /\ snd (drawHands []) = true
  /\ count isFill (fst (drawHand bad)) = 0%nat
  /\ (count isStroke (fst (drawHand bad)) < 21)%nat.
Proof.
intros bad.
assert (Hg : Forall
               (fun h : list Continuum.Keypoint => (21 <= List.length h)%nat)
               []) by constructor.
assert (Hb : (List.length bad < 21)%nat) by (cbn; lia).
split; [exact Hg|]. split; [exact Hb|].
exact (@drawHands_stops_at_short_hand [] [] bad Hg Hb).
Defined.

(** X15.  The drawing step of [runDetection] runs to its end exactly when
    every detected hand with more than 12 keypoints has at least 21: a
    hand of 13 to 20 keypoints is tracked and makes the drawing throw. *)
Theorem drawDetection_completes (hands : list Continuum.Hand) :
  snd (drawDetection hands) = true
  <-> (forall h kps, In h hands -> Continuum.keypoints h = Some kps ->
         (12 < List.length kps)%nat -> (21 <= List.length kps)%nat).
Proof.
unfold drawDetection.
replace (Continuum.allKeypoints (Continuum.processHands hands))
  with (drawable hands)
  by (unfold Continuum.processHands; now rewrite processHands_all).
unfold drawHands. rewrite forEach_ok, Forall_forall. unfold drawable. split.
- intros H h kps Hin Hk Hl. apply drawHand_ok, H.
  apply in_flat_map. exists h. split; [exact Hin|].
  rewrite Hk. apply Nat.ltb_lt in Hl. rewrite Hl. now left.
- intros H kps Hin. apply in_flat_map in Hin as (h & Hin & Hk).
  destruct (Continuum.keypoints h) as [kps'|] eqn:E; [|contradiction].
  destruct (12 <? List.length kps')%nat eqn:El; [|contradiction].
  destruct Hk as [<-|[]]. apply drawHand_ok. apply (H h kps' Hin E).
  now apply Nat.ltb_lt.
Qed.

End Overlay.

(** ** The animation loop *)

Section AnimationLoop.

Import AnimationFrame.

Ltac hook :=
  cbv beta iota zeta delta
    [requestAnimationFrame cancelAnimationFrame call setTime animate effect
     AnimationFrame.cleanup withDeps clearPending
     frameRef timeRef deps AnimationFrame.mounted nextHandle pending called
     fst snd] in *.

Lemma tidy_init : tidy init.
Proof. split; [reflexivity | discriminate]. Qed.

Lemma cleanup_pending (h : Hook) :
  tidy h -> pending (AnimationFrame.cleanup h) = [].
Proof.
intros [Hp _]. destruct h as [f t d m n p c]. hook.
destruct d as [[[|] cb]|]; subst p; cbn [filter fst]; try reflexivity.
now rewrite Nat.eqb_refl.
Qed.

Lemma frame_looping (time : R) (h : Hook) (callback : Callback) :
  deps h = Some (true, callback) ->
  pending h = [(frameRef h, callback)] ->
  AnimationFrame.frame time h
  = animate callback time (clearPending h).
Proof.
intros _ Hp. unfold AnimationFrame.frame. rewrite Hp. reflexivity.
Qed.

Lemma frame_idle (time : R) (h : Hook) :
  pending h = [] -> AnimationFrame.frame time h = h.
Proof.
intros Hp. unfold AnimationFrame.frame. rewrite Hp. cbn [fold_left].
destruct h as [f t d m n p c]. hook. now subst.
Qed.

Lemma tidy_render (shouldAnimate : bool) (callback : Callback) (h : Hook) :
  tidy h -> tidy (render shouldAnimate callback h).
Proof.
intros T. pose proof (@cleanup_pending h T) as Hc. pose proof T as [Hp Hm].
unfold render. destruct (mounted h) eqn:Em; [|exact T].
destruct (deps h) as [[sa' cb']|] eqn:Ed.
- destruct (Bool.eqb shouldAnimate sa' && Nat.eqb callback cb');
    [exact T|].
  destruct h as [f t d m n p c]. hook. rewrite Hc.
  destruct shouldAnimate; split; try reflexivity; discriminate.
- destruct h as [f t d m n p c]. hook. subst p.
  destruct shouldAnimate; split; try reflexivity; discriminate.
Qed.

Lemma tidy_frame (time : R) (h : Hook) : tidy h -> tidy (frame time h).
Proof.
intros T. destruct (deps h) as [[[|] cb]|] eqn:Ed.
- destruct T as [Hp Hm]. rewrite Ed in Hp. rewrite (@frame_looping time h cb Ed Hp).
  destruct h as [f t d m n p c]. hook. subst d.
  destruct t; hook; split; try reflexivity; exact Hm.
- rewrite frame_idle; [exact T|]. destruct T as [Hp _]. now rewrite Ed in Hp.
- rewrite frame_idle; [exact T|]. destruct T as [Hp _]. now rewrite Ed in Hp.
Qed.

Lemma tidy_unmount (h : Hook) : tidy h -> tidy (unmount h).
Proof.
intros T. pose proof (@cleanup_pending h T) as Hc. pose proof T as [Hp Hm].
unfold unmount. destruct (mounted h) eqn:Em; [|exact T].
destruct (deps h) as [d|] eqn:Ed.
- destruct h as [f t d' m n p c]. hook. rewrite Hc. split; reflexivity.
- destruct h as [f t d' m n p c]. hook. subst. split; reflexivity.
Qed.

Lemma tidy_step (e : Event) (h : Hook) : tidy h -> tidy (step e h).
Proof.
destruct e; cbn [step];
  [apply tidy_render | apply tidy_frame | apply tidy_unmount].
Qed.

Lemma tidy_run (events : list Event) (h : Hook) :
  tidy h -> tidy (run events h).
Proof.
revert h. induction events as [|e events IH]; intros h T; [exact T|].
apply (IH (step e h)), tidy_step, T.
Qed.

Lemma run_app (events events' : list Event) (h : Hook) :
  run (events ++ events') h = run events' (run events h).
Proof. unfold run. apply fold_left_app. Qed.

Lemma unmounted_step (e : Event) (h : Hook) :
  tidy h -> mounted h = false -> step e h = h.
Proof.
intros [Hp Hm] Em. specialize (Hm Em). rewrite Hm in Hp.
destruct e; cbn [step].
- unfold render. now rewrite Em.
- now apply frame_idle.
- unfold unmount. now rewrite Em.
Qed.

Lemma unmounted_run (events : list Event) (h : Hook) :
  tidy h -> mounted h = false -> run events h = h.
Proof.
intros T Em. induction events as [|e events IH]; [reflexivity|].
unfold run in *. cbn [fold_left]. now rewrite unmounted_step.
Qed.

Lemma unmount_unmounted (h : Hook) : mounted (unmount h) = false.
Proof.
unfold unmount. destruct (mounted h) eqn:Em; [|exact Em].
destruct (deps h); reflexivity.
Qed.

Lemma render_deps (shouldAnimate : bool) (callback : Callback) (h : Hook) :
  mounted h = true ->
  deps (render shouldAnimate callback h) = Some (shouldAnimate, callback).
Proof.
intros Em. unfold render. rewrite Em.
destruct (deps h) as [[sa' cb']|] eqn:Ed; [|reflexivity].
destruct (Bool.eqb shouldAnimate sa') eqn:E1;
  [destruct (Nat.eqb callback cb') eqn:E2|]; cbn [andb]; try reflexivity.
apply Bool.eqb_prop in E1. apply Nat.eqb_eq in E2. now subst.
Qed.

(** X16.  After any run of renders, frames and an unmount the browser holds
    at most one requested frame.  While mounted, a render with
    [shouldAnimate] leaves exactly one, under the handle in [frameRef] and
    for the callback of that render, and a render without it leaves none;
    a frame keeps the loop going; after the unmount nothing is requested
    any more. *)
Theorem animation_loop (events : list Event) :
  let h := run events init in
  (List.length (pending h) <= 1)%nat
  /\ (mounted h = true ->
      forall callback,
        looping (render true callback h)
        /\ deps (render true callback h) = Some (true, callback)
        /\ pending (render false callback h) = [])
  /\ (forall time, looping h ->
        looping (frame time h) /\ deps (frame time h) = deps h)
  /\ (forall events', pending (run events' (unmount h)) = []).
Proof.
intros h. assert (T : tidy h) by apply tidy_run, tidy_init.
split; [|split; [|split]].
- destruct T as [-> _]. destruct (deps h) as [[[|] cb]|]; cbn; lia.
- intros Em cb.
  pose proof (@render_deps true cb h Em) as D1.
  pose proof (@render_deps false cb h Em) as D2.
  destruct (@tidy_render true cb h T) as [P1 _].
  destruct (@tidy_render false cb h T) as [P2 _].
  rewrite D1 in P1. rewrite D2 in P2.
  split; [|split]; [exists cb; now split | exact D1 | exact P2].
- intros time (cb & Hd & Hp).
  pose proof (@tidy_frame time h T) as [P _].
  assert (D : deps (frame time h) = deps h).
  { rewrite (@frame_looping time h cb Hd Hp).
    destruct h as [f t d m n p c]. hook. now destruct t. }
  rewrite D, Hd in P. split; [|exact D].
  exists cb. rewrite D. now split.
- intros events'.
  pose proof (@tidy_unmount h T) as T'.
  rewrite (@unmounted_run events' (unmount h) T' (unmount_unmounted h)).
  destruct T' as [-> Hm]. now rewrite (Hm (unmount_unmounted h)).
Qed.

Lemma deltasFrom_app (prev : option R) (a b : list (Callback * R)) :
  deltasFrom prev (a ++ b)
  = deltasFrom prev a ++ deltasFrom (lastTime prev a) b.
Proof.
revert prev. induction a as [|[cb t] a IH]; intros prev; [reflexivity|].
cbn [app deltasFrom]. rewrite IH, <- app_assoc. reflexivity.
Qed.

Lemma lastTime_app (prev : option R) (a b : list (Callback * R)) :
  lastTime prev (a ++ b) = lastTime (lastTime prev a) b.
Proof. unfold lastTime. apply fold_left_app. Qed.

Lemma total_app (a b : list (Callback * R)) :
  total (a ++ b) = total a + total b.
Proof.
induction a as [|c a IH]; cbn [app total fold_right].
- unfold total. cbn [fold_right]. lra.
- unfold total in *. cbn [fold_right]. rewrite IH. lra.
Qed.

Lemma total_deltasFrom (p : R) (frames : list (Callback * R)) :
  exists last,
    lastTime (Some p) frames = Some last
    /\ 20 * total (deltasFrom (Some p) frames) = last - p.
Proof.
revert p. induction frames as [|[cb t] frames IH]; intros q.
- exists q. split; [reflexivity|]. unfold total. cbn [deltasFrom fold_right].
  lra.
- destruct (IH t) as (last & Hl & Ht). exists last. split; [exact Hl|].
  cbn [deltasFrom]. rewrite total_app.
  unfold total in *. cbn [fold_right snd]. lra.
Qed.

Lemma render_called (shouldAnimate : bool) (callback : Callback) (h : Hook) :
  called (render shouldAnimate callback h) = called h
  /\ timeRef (render shouldAnimate callback h) = timeRef h.
Proof.
unfold render. destruct (mounted h); [|now split].
destruct (deps h) as [[sa' cb']|].
- destruct (Bool.eqb shouldAnimate sa' && Nat.eqb callback cb');
    [now split|].
  destruct h as [f t d m n p c]. destruct shouldAnimate; now split.
- destruct h as [f t d m n p c]. destruct shouldAnimate; now split.
Qed.

Lemma unmount_called (h : Hook) :
  called (unmount h) = called h /\ timeRef (unmount h) = timeRef h.
Proof.
unfold unmount. destruct (mounted h); [|now split].
destruct (deps h) as [d0|]; destruct h as [f t d m n p c]; now split.
Qed.

Lemma step_called (e : Event) (h : Hook) :
  tidy h ->
  called (step e h)
  = called h ++ deltasFrom (timeRef h) (ranFrames [e] h)
  /\ timeRef (step e h) = lastTime (timeRef h) (ranFrames [e] h).
Proof.
intros T. cbn [ranFrames]. rewrite app_nil_r. destruct e; cbn [step].
- cbn [deltasFrom lastTime fold_left]. rewrite app_nil_r.
  apply render_called.
- pose proof T as [Hp _].
  destruct (deps h) as [[[|] cb]|] eqn:Ed.
  + rewrite (@frame_looping time h cb Ed Hp). rewrite Hp.
    cbn [map snd deltasFrom lastTime fold_left]. rewrite app_nil_r.
    destruct h as [f t d m n p0 c]. hook.
    destruct t; rewrite ?app_nil_r; now split.
  + rewrite (@frame_idle time h Hp), Hp.
    cbn [map deltasFrom lastTime fold_left]. now rewrite app_nil_r.
  + rewrite (@frame_idle time h Hp), Hp.
    cbn [map deltasFrom lastTime fold_left]. now rewrite app_nil_r.
- cbn [deltasFrom lastTime fold_left]. rewrite app_nil_r.
  apply unmount_called.
Qed.

Lemma ranFrames_cons (e : Event) (events : list Event) (h : Hook) :
  ranFrames (e :: events) h = ranFrames [e] h ++ ranFrames events (step e h).
Proof. cbn [ranFrames]. now rewrite app_nil_r. Qed.

Lemma run_called (events : list Event) (h : Hook) :
  tidy h ->
  called (run events h)
  = called h ++ deltasFrom (timeRef h) (ranFrames events h)
  /\ timeRef (run events h) = lastTime (timeRef h) (ranFrames events h).
Proof.
revert h. induction events as [|e events IH]; intros h T.
- cbn [run fold_left ranFrames deltasFrom lastTime]. now rewrite app_nil_r.
- destruct (IH (step e h) (tidy_step e T)) as [Hc Ht].
  destruct (@step_called e h T) as [Sc St].
  rewrite ranFrames_cons, deltasFrom_app, lastTime_app.
  change (run (e :: events) h) with (run events (step e h)).
  rewrite Hc, Ht, Sc, St, <- app_assoc. now split.
Qed.

(** X17.  Over any run of renders, frames and an unmount the callback is
    invoked once for each frame in which [animate] ran but the first, with
    the time since the frame before over 20, and twenty times the sum of
    what it is told is the time between the first and the last of those
    frames.  A pause does not reset the clock: a frame during the pause
    runs nothing, and the first frame after it reports the time since the
    last frame before it. *)
Theorem callback_deltas (events : list Event) :
  let h := run events init in
  let frames := ranFrames events init in
  called h = deltasFrom None frames
  /\ timeRef h = lastTime None frames
  /\ match frames with
     | [] => called h = [] /\ timeRef h = None
     | (_, first) :: _ =>
         exists last,
           timeRef h = Some last /\ 20 * total (called h) = last - first
     end
  /\ (forall prev callback callback' time time',
        mounted h = true -> timeRef h = Some prev ->
        called (run [Render false callback; Frame time';
                     Render true callback'; Frame time] h)
        = called h ++ [(callback', (time - prev) / 20)]).
Proof.
intros h frames. assert (T : tidy h) by apply tidy_run, tidy_init.
destruct (@run_called events init tidy_init) as [Hc Ht].
cbn [called timeRef init app] in Hc, Ht. fold h frames in Hc, Ht.
split; [exact Hc|]. split; [exact Ht|]. split.
- rewrite Hc, Ht. destruct frames as [|[cb first] rest]; [now split|].
  cbn [deltasFrom app]. destruct (total_deltasFrom first rest) as (l & Hl & E).
  exists l. split; [exact Hl | exact E].
- intros prev cb cb' time time' Em Hprev.
  destruct (@run_called [Render false cb; Frame time'; Render true cb';
                         Frame time] h T) as [Rc _].
  rewrite Rc, Hprev. f_equal. cbn [ranFrames step app].
  pose proof (@tidy_render false cb h T) as T1.
  pose proof (@render_deps false cb h Em) as D1.
  pose proof T1 as [P1 _]. rewrite D1 in P1.
  assert (M1 : mounted (render false cb h) = true).
  { destruct (mounted (render false cb h)) eqn:E; [reflexivity|].
    destruct T1 as [_ Hm]. rewrite (Hm E) in D1. discriminate. }
  set (h1 := render false cb h) in *.
  pose proof (@tidy_render true cb' h1 T1) as [P2 _].
  rewrite (@render_deps true cb' h1 M1) in P2.
  rewrite P1, (@frame_idle time' h1 P1), P2.
  cbn [map snd app deltasFrom]. reflexivity.
Qed.

End AnimationLoop.


(** ** The pointer entering the keyboard *)

Section PointerEnter.

Import Continuum.

(** In the model, the voice a pointer entering at [cx] starts with, and the
    voice after a move to the same position. *)
Lemma pointer_enter_voice (canvas0 : option Canvas)
        (keyboard0 : option DOMRect) (s : State) (rect : DOMRect)
        (canvas : Canvas) (cx cy : R) :
  reachable canvas0 keyboard0 s ->
  mounted s = true -> isReady s = true ->
  keyboardRef s = Some rect -> canvasRef s = Some canvas ->
  left rect = 0 -> 0 < width rect -> 0 < clientWidth canvas ->
  oscRefs s Mouse = None ->
  0 <= cx <= clientWidth canvas ->
  let s1 := step (MouseEnter cx cy) s in
  voice s1 Mouse
  = Some (Some (pointerPitch rect
                  (width rect
                   * ((clientWidth canvas - cx) / clientWidth canvas))),
          Some (getVolumeFromY s cy))
  /\ voice (step (MouseMove cx cy) s1) Mouse
     = Some (Some (pointerPitch rect cx), Some (getVolumeFromY s cy)).
Proof.
intros Hreach Hm Hr Hk Hc Hl Hw HC Ho [Hx0 Hx1] s1.
pose proof (reachable_wired Hreach) as W.
pose proof (reachable_gated Hreach) as G.
pose proof (gated_running G Hm Hr) as Hrun.
destruct (audioContextRef s) as [c|] eqn:Ec;
  [|unfold contextRunning in Hrun; rewrite Ec in Hrun; discriminate].
assert (E1 : s1
             = startAudioNode Mouse Mouse (getFrequencyFromX s cx)
                 (getVolumeFromY s cy) s).
{ unfold s1, step, handleMouseEnter. now rewrite Hm, Hr. }
assert (Hsh : shell s1 = shell s)
  by (rewrite E1; apply startAudioNode_shell).
assert (Hf : getFrequencyFromX s cx
             = pointerPitch rect
                 (width rect
                  * ((clientWidth canvas - cx) / clientWidth canvas))).
{ rewrite (getFrequencyFromX_interpolate _ Hk Hc Hl Hw HC Hx1).
  unfold pointerPitch. rewrite Hl. f_equal. field. lra. }
split.
- rewrite E1, <- Hf. exact (@voice_started Mouse _ _ s c Ec Ho).
- destruct (shell_fields Hsh) as (Hm1 & Hr1 & _).
  destruct (layout_shell Hsh) as (_ & Hv & _).
  assert (Hk1 : keyboardRef s1 = Some rect).
  { unfold shell in Hsh. injection Hsh as _ _ _ _ _ _ Ek _ _.
    now rewrite Ek. }
  assert (W1 : wired s1) by (rewrite E1; now apply wired_start).
  assert (Ho1 : oscRefs s1 Mouse = Some (List.length (oscillators c))).
  { rewrite E1, (startAudioNode_creates _ _ _ _ _ Ec Ho).
    unfold withAudio; cbn [oscRefs]. apply assign_same. }
  unfold step. rewrite Hm1, Hm.
  rewrite (@handleMouseMove_update s1 rect cx cy); try lra;
    [|now rewrite Hr1 | exact Hk1].
  rewrite Hv. exact (@voice_updated Mouse _ _ s1 _ W1 Ho1).
Qed.

(** X18.  When the pointer enters the keyboard, its voice starts at the
    pitch [getFrequencyFromX] gives a hand at the pointer's [clientX]: with
    the keyboard at the left of the viewport this is, up to the tolerance,
    the interpolation inside the key [k'] under the mirrored position, not
    inside the key [k] under the pointer.  The first move, even to the same
    position, retargets the voice to the interpolation inside the key
    under the pointer.  Both positions are taken at least the margin away
    from the edges of their keys. *)
Theorem pointer_enter_is_mirrored (canvas0 : option Canvas)
        (keyboard0 : option DOMRect) (s : State) (rect : DOMRect)
        (canvas : Canvas) (cx cy : R) (k k' : Z) :
  reachable canvas0 keyboard0 s ->
  mounted s = true -> isReady s = true ->
  keyboardRef s = Some rect -> canvasRef s = Some canvas ->
  left rect = 0 -> 1 <= width rect -> 1 <= clientWidth canvas ->
  oscRefs s Mouse = None ->
  (0 <= k <= 35)%Z -> insideKey k (cx / (width rect / 36)) ->
  (0 <= k' <= 35)%Z ->
  insideKey k' (36 * ((clientWidth canvas - cx) / clientWidth canvas)) ->
  let s1 := step (MouseEnter cx cy) s in
  exists f1 f2 : R,
    voice s1 Mouse = Some (Some f1, Some (getVolumeFromY s cy))
    /\ within f1
         (interpolation (Lib.getFrequency (START_NOTE + IZR k'))
            (Lib.getFrequency (START_NOTE + IZR k' + 1))
            (36 * ((clientWidth canvas - cx) / clientWidth canvas)
             - IZR k'))
    /\ voice (step (MouseMove cx cy) s1) Mouse
       = Some (Some f2, Some (getVolumeFromY s cy))
    /\ within f2
         (interpolation (Lib.getFrequency (START_NOTE + IZR k))
            (Lib.getFrequency (START_NOTE + IZR k + 1))
            (cx / (width rect / 36) - IZR k)).
Proof.
intros Hreach Hm Hr Hk Hc Hl Hw1 HC1 Ho Hk01 Hin Hk01' Hin' s1.
assert (Hw : 0 < width rect) by lra.
assert (HC : 0 < clientWidth canvas) by lra.
set (C := clientWidth canvas) in *.
assert (Hx : 0 <= cx <= C).
{ destruct Hin as [Hl0 _]. destruct Hin' as [Hl1 _]. unfold edgeMargin in *.
  destruct Hk01 as [Hk0 _]. destruct Hk01' as [Hk0' _].
  apply IZR_le in Hk0, Hk0'. split.
  - assert (Hq : 0 <= cx / (width rect / 36)) by lra.
    apply Rmult_le_compat_r with (r := width rect / 36) in Hq; [|lra].
    unfold Rdiv at 2 in Hq. rewrite Rmult_assoc, Rinv_l in Hq by lra. lra.
  - assert (Hq : 0 <= (C - cx) / C) by lra.
    apply Rmult_le_compat_r with (r := C) in Hq; [|lra].
    unfold Rdiv in Hq. rewrite Rmult_assoc, Rinv_l in Hq by lra. lra. }
destruct (@pointer_enter_voice canvas0 keyboard0 s rect canvas cx cy
            Hreach Hm Hr Hk Hc Hl Hw HC Ho Hx) as [E1 E2].
fold C in E1. fold s1 in E1, E2.
exists (pointerPitch rect (width rect * ((C - cx) / C))), (pointerPitch rect cx).
split; [exact E1|]. split; [|split; [exact E2|]].
- unfold pointerPitch. rewrite Hl.
  replace ((width rect * ((C - cx) / C) - 0) / (width rect / 36))
    with (36 * ((C - cx) / C)) by (field; lra).
  destruct (continuum_inside Hk01' Hin') as (E & _ & Hrange).
  rewrite <- E. apply within_refl. lra.
- unfold pointerPitch. rewrite Hl.
  replace ((cx - 0) / (width rect / 36)) with (cx / (width rect / 36))
    by (field; lra).
  destruct (continuum_inside Hk01 Hin) as (E & _ & Hrange).
  rewrite <- E. apply within_refl. lra.
Qed.

Lemma pointer_enter_is_mirrored_witness :
  let canvas := {| clientWidth := 1920; clientHeight := 1080 |} in
  let rect := {| left := 0; top := 0; width := 1920; height := 1080 |} in
  let s := step (Click true) (init (Some canvas) (Some rect)) in
  let s1 := step (MouseEnter 500 50) s in
  (reachable (Some canvas) (Some rect) s
   /\ mounted s = true /\ isReady s = true
   /\ keyboardRef s = Some rect /\ canvasRef s = Some canvas
   /\ left rect = 0 /\ 1 <= width rect /\ 1 <= clientWidth canvas
   /\ oscRefs s Mouse = None
   /\ (0 <= 9 <= 35)%Z /\ insideKey 9 (500 / (width rect / 36))
   /\ (0 <= 26 <= 35)%Z
   /\ insideKey 26 (36 * ((clientWidth canvas - 500) / clientWidth canvas)))
  /\ exists f1 f2 : R,
       voice s1 Mouse = Some (Some f1, Some (getVolumeFromY s 50))
       /\ within f1
            (interpolation (Lib.getFrequency (START_NOTE + IZR 26))
               (Lib.getFrequency (START_NOTE + IZR 26 + 1))
               (36 * ((clientWidth canvas - 500) / clientWidth canvas)
                - IZR 26))
       /\ voice (step (MouseMove 500 50) s1) Mouse
          = Some (Some f2, Some (getVolumeFromY s 50))
       /\ within f2
            (interpolation (Lib.getFrequency (START_NOTE + IZR 9))
               (Lib.getFrequency (START_NOTE + IZR 9 + 1))
               (500 / (width rect / 36) - IZR 9)).
Proof.
intros canvas rect s s1.
assert (Hreach : reachable (Some canvas) (Some rect) s)
  by (unfold s; repeat constructor).
assert (Hm : mounted s = true) by reflexivity.
assert (Hr : isReady s = true) by reflexivity.
assert (Hk : keyboardRef s = Some rect) by reflexivity.
assert (Hc : canvasRef s = Some canvas) by reflexivity.
assert (Hl : left rect = 0) by reflexivity.
assert (Hw : 1 <= width rect) by (simpl; lra).
assert (HC : 1 <= clientWidth canvas) by (simpl; lra).
assert (Ho : oscRefs s Mouse = None) by reflexivity.
assert (Hk9 : (0 <= 9 <= 35)%Z) by lia.
assert (Hi9 : insideKey 9 (500 / (width rect / 36)))
  by (unfold insideKey, edgeMargin; simpl; lra).
assert (Hk26 : (0 <= 26 <= 35)%Z) by lia.
assert (Hi26 : insideKey 26
                 (36 * ((clientWidth canvas - 500) / clientWidth canvas)))
  by (unfold insideKey, edgeMargin; simpl; lra).
split; [repeat split; solve [assumption | apply Hi9 | apply Hi26 | lia]|].
exact (@pointer_enter_is_mirrored (Some canvas) (Some rect) s rect canvas
         500 50 9 26 Hreach Hm Hr Hk Hc Hl Hw HC Ho Hk9 Hi9 Hk26 Hi26).
Defined.

End PointerEnter.

(** ** A hand beyond the right edge of the canvas *)

Section BeyondTheCanvas.

Import Continuum.

Lemma lib_getFrequency_36 :
  0 < Lib.getFrequency 36 < Lib.getFrequency 37 /\ Lib.getFrequency 37 = 220.
Proof.
assert (H37 : Lib.getFrequency 37 = 220).
{ rewrite lib_getFrequency_round, equalTemperament_37.
  apply (@roundTo_int 3 220). lia. }
assert (H25 : Lib.getFrequency 25 = 110).
{ rewrite lib_getFrequency_round, equalTemperament_25.
  apply (@roundTo_int 3 110). lia. }
pose proof (@lib_getFrequency_le 25 36 ltac:(lra)) as Hle.
destruct (@getFrequency_step 36 ltac:(lia)) as [_ Hlt].
replace (IZR 36 + 1) with 37 in Hlt by (simpl; lra).
change (IZR 36) with 36 in Hlt.
repeat split; [lra | exact Hlt | exact H37].
Qed.

(** X19.  With the keyboard at the left of the viewport, a hand less than
    one key width beyond the right edge of the canvas does not continue the
    scale downwards from 220 Hz: the remainder of the negative position is
    negative, so the pitch is [getFrequency(36)] lowered by the fraction of
    the key, below [getFrequency(36)], while at the edge itself it is
    220 Hz. *)
Theorem hand_pitch_drops_beyond_canvas (s : State) (rect : DOMRect)
        (canvas : Canvas) (x0 : R) :
  keyboardRef s = Some rect -> canvasRef s = Some canvas ->
  left rect = 0 -> 0 < width rect -> 0 < clientWidth canvas ->
  clientWidth canvas < x0 < clientWidth canvas * (37 / 36) ->
  getFrequencyFromX s x0
  = Lib.getFrequency 36
    * Rpower (Lib.getFrequency 37 / Lib.getFrequency 36)
        (36 * ((clientWidth canvas - x0) / clientWidth canvas))
  /\ getFrequencyFromX s x0 < Lib.getFrequency 36
  /\ Lib.getFrequency 36 < getFrequencyFromX s (clientWidth canvas)
  /\ getFrequencyFromX s (clientWidth canvas) = 220.
Proof.
intros Hk Hc Hl Hw HC [Hx0 Hx1].
destruct lib_getFrequency_36 as [[Hpos Hlt] H37].
set (C := clientWidth canvas) in *. set (W := width rect) in *.
set (u := 36 * ((C - x0) / C)).
assert (Hu : -1 < u < 0).
{ unfold u. assert (-1 / 36 < (C - x0) / C < 0); [|lra]. split.
  - apply Rmult_lt_reg_r with C; [assumption|].
    unfold Rdiv at 2. rewrite Rmult_assoc, Rinv_l by lra. lra.
  - apply Rmult_lt_reg_r with C; [assumption|].
    unfold Rdiv. rewrite Rmult_assoc, Rinv_l by lra. lra. }
assert (E : getFrequencyFromX s x0
            = Lib.getFrequency 36
              * Rpower (Lib.getFrequency 37 / Lib.getFrequency 36) u).
{ unfold getFrequencyFromX. rewrite Hk, Hc, Hl. cbv zeta. fold C W.
  unfold END_NOTE, START_NOTE, transpose.
  replace (36 + 36 - (1 + 36) + 1) with 36 by lra.
  replace ((C - x0) / C * 36) with u by (unfold u; ring).
  assert (Ef : Math_floor u = -1).
  { unfold Math_floor. rewrite (@Zfloor_eq (-1) u); [reflexivity|].
    simpl. lra. }
  assert (Er : rem (0 + (C - x0) / C * W) (W / 36) / (W / 36) = u).
  { unfold rem, trunc.
    replace ((0 + (C - x0) / C * W) / (W / 36)) with u
      by (unfold u; field; lra).
    destruct (Rle_dec 0 u) as [Hu0|_]; [lra|].
    rewrite (@Zceil_eq 0 u) by (simpl; lra).
    unfold u. field. lra. }
  rewrite Ef, Er. unfold Math_pow.
  replace (1 + 36 + -1) with 36 by lra.
  replace (36 + 1) with 37 by lra. reflexivity. }
assert (Hedge : getFrequencyFromX s C = 220).
{ rewrite (getFrequencyFromX_interpolate _ Hk Hc Hl Hw HC)
    by (fold C; lra).
  fold C. replace (36 * ((C - C) / C)) with (IZR 0) by (simpl; field; lra).
  rewrite continuum_interpolate_key by lia. apply continuumKey_0. }
split; [exact E|]. split; [|split; [|exact Hedge]].
- rewrite E.
  assert (Hr : 1 < Lib.getFrequency 37 / Lib.getFrequency 36).
  { apply Rmult_lt_reg_r with (Lib.getFrequency 36); [assumption|].
    unfold Rdiv. rewrite Rmult_assoc, Rinv_l by lra. lra. }
  pose proof (Rpower_lt (Lib.getFrequency 37 / Lib.getFrequency 36) u 0
                Hr ltac:(lra)) as Hp.
  rewrite Rpower_O in Hp by lra.
  apply Rlt_le_trans with (Lib.getFrequency 36 * 1); [|lra].
  apply Rmult_lt_compat_l; assumption.
- rewrite Hedge, <- H37. exact Hlt.
Qed.

Lemma hand_pitch_drops_beyond_canvas_witness :
  let canvas := {| clientWidth := 720; clientHeight := 480 |} in
  let rect := {| left := 0; top := 0; width := 720; height := 480 |} in
  let s := init (Some canvas) (Some rect) in
  keyboardRef s = Some rect /\ canvasRef s = Some canvas
  /\ left rect = 0 /\ 0 < width rect /\ 0 < clientWidth canvas
  /\ clientWidth canvas < 730 < clientWidth canvas * (37 / 36)
  /\ getFrequencyFromX s 730
     = Lib.getFrequency 36
       * Rpower (Lib.getFrequency 37 / Lib.getFrequency 36)
           (36 * ((clientWidth canvas - 730) / clientWidth canvas))
  /\ getFrequencyFromX s 730 < Lib.getFrequency 36
  /\ Lib.getFrequency 36 < getFrequencyFromX s (clientWidth canvas)
  /\ getFrequencyFromX s (clientWidth canvas) = 220.
Proof.
intros canvas rect s.
assert (Hk : keyboardRef s = Some rect) by reflexivity.
assert (Hc : canvasRef s = Some canvas) by reflexivity.
assert (Hl : left rect = 0) by reflexivity.
assert (Hw : 0 < width rect) by (simpl; lra).
assert (HC : 0 < clientWidth canvas) by (simpl; lra).
assert (Hx : clientWidth canvas < 730 < clientWidth canvas * (37 / 36))
  by (simpl; lra).
split; [exact Hk|]. split; [exact Hc|]. split; [exact Hl|].
split; [exact Hw|]. split; [exact HC|]. split; [exact Hx|].
exact (@hand_pitch_drops_beyond_canvas s rect canvas 730
         Hk Hc Hl Hw HC Hx).
Defined.

End BeyondTheCanvas.

(** ** KeyboardContinuum: the pitch under the pointer *)

Section KeyboardPitch.

Import Continuum.

Lemma keyboard_getFrequency_lib (n : R) :
  Keyboard.getFrequency n = Lib.getFrequency n.
Proof. reflexivity. Qed.

Lemma keyboardKey_0 : keyboardKey 0 = 110.
Proof.
unfold keyboardKey, Keyboard.START_NOTE.
replace (25 + 0) with 25 by lra.
rewrite keyboard_getFrequency_lib, lib_getFrequency_round, equalTemperament_25.
apply (@roundTo_int 3 110). lia.
Qed.

Lemma keyboardKey_48 : keyboardKey 48 = 1760.
Proof.
unfold keyboardKey, Keyboard.START_NOTE.
replace (25 + 48) with 73 by lra.
rewrite keyboard_getFrequency_lib, lib_getFrequency_round, equalTemperament_73.
apply (@roundTo_int 3 1760). lia.
Qed.

Lemma keyboardKey_le (m n : R) :
  0 <= m -> m <= n -> keyboardKey m <= keyboardKey n.
Proof.
intros _ H. unfold keyboardKey. rewrite !keyboard_getFrequency_lib.
apply lib_getFrequency_le. lra.
Qed.

Lemma keyboardKey_pos : 0 < keyboardKey 0.
Proof. rewrite keyboardKey_0. lra. Qed.

(** [getFrequencyFromX] at or right of the keyboard's left edge. *)
Lemma keyboard_getFrequencyFromX_interpolate (s : Keyboard.State)
      (rect : DOMRect) (cx : R) :
  Keyboard.keyboardRef s = Some rect -> 0 < width rect -> left rect <= cx ->
  Keyboard.getFrequencyFromX s cx
  = interpolate keyboardKey ((cx - left rect) / (width rect / 48)).
Proof.
intros Hk Hw Hx. unfold Keyboard.getFrequencyFromX. rewrite Hk. cbv zeta.
unfold Keyboard.END_NOTE, Keyboard.START_NOTE.
replace (72 - 25 + 1) with 48 by lra.
rewrite rem_in_key; [| lra | lra].
unfold interpolate, keyboardKey, Math_floor, Math_pow, Keyboard.START_NOTE.
set (k := IZR (Zfloor ((cx - left rect) / (width rect / 48)))).
replace (25 + (k + 1)) with (25 + k + 1) by ring.
reflexivity.
Qed.

Lemma keyboardKey_lt (k : Z) :
  (0 <= k)%Z -> keyboardKey (IZR k) < keyboardKey (IZR k + 1).
Proof.
intros Hk. unfold keyboardKey, Keyboard.START_NOTE.
rewrite !keyboard_getFrequency_lib.
destruct (@getFrequency_step (25 + k) ltac:(lia)) as [_ H].
rewrite plus_IZR in H.
replace (25 + IZR k) with (IZR 25 + IZR k) by (simpl; lra).
replace (25 + (IZR k + 1)) with (IZR 25 + IZR k + 1) by (simpl; lra).
exact H.
Qed.

Lemma keyboard_interpolate_range (u : R) :
  0 <= u <= 48 -> 110 <= interpolate keyboardKey u <= 1760.
Proof.
intros [H0 H48].
rewrite <- keyboardKey_0, <- keyboardKey_48.
rewrite <- (@interpolate_key keyboardKey keyboardKey_le keyboardKey_pos 0)
  by lia.
rewrite <- (@interpolate_key keyboardKey keyboardKey_le keyboardKey_pos 48)
  by lia.
split; apply (@interpolate_le keyboardKey keyboardKey_le keyboardKey_pos);
  simpl; lra.
Qed.

(** X20.  On a keyboard of KeyboardContinuum at least one pixel wide, for
    a pointer position inside key [k] of the 48 keys, at least the margin
    away from the key's edges, [getFrequencyFromX] is, up to the tolerance,
    the interpolation between [getFrequency(25 + k)] and
    [getFrequency(26 + k)] at that position; it lies strictly between
    these two and hence between 110 Hz and 1760 Hz, and a position inside a
    key further right sounds higher.  Before the keyboard is mounted the
    result is 110 Hz. *)
Theorem keyboard_pitch_map (s : Keyboard.State) (rect : DOMRect) :
  Keyboard.keyboardRef s = Some rect -> 1 <= width rect ->
  (forall (cx : R) (k : Z),
      (0 <= k <= 47)%Z ->
      insideKey k ((cx - left rect) / (width rect / 48)) ->
      within (Keyboard.getFrequencyFromX s cx)
        (interpolation
           (Keyboard.getFrequency (Keyboard.START_NOTE + IZR k))
           (Keyboard.getFrequency (Keyboard.START_NOTE + IZR k + 1))
           ((cx - left rect) / (width rect / 48) - IZR k))
      /\ Keyboard.getFrequency (Keyboard.START_NOTE + IZR k)
         < Keyboard.getFrequencyFromX s cx
         < Keyboard.getFrequency (Keyboard.START_NOTE + IZR k + 1)
      /\ 110 <= Keyboard.getFrequencyFromX s cx <= 1760)
  /\ (forall (cx1 cx2 : R) (k1 k2 : Z),
         (0 <= k1 < k2)%Z -> (k2 <= 47)%Z ->
         insideKey k1 ((cx1 - left rect) / (width rect / 48)) ->
         insideKey k2 ((cx2 - left rect) / (width rect / 48)) ->
         Keyboard.getFrequencyFromX s cx1 < Keyboard.getFrequencyFromX s cx2)
  /\ (forall (s0 : Keyboard.State) (cx : R),
         Keyboard.keyboardRef s0 = None ->
         Keyboard.getFrequencyFromX s0 cx = 110).
Proof.
intros Hk Hw1. assert (Hw : 0 < width rect) by lra.
assert (Hx : forall cx k, (0 <= k)%Z ->
          insideKey k ((cx - left rect) / (width rect / 48)) ->
          left rect <= cx).
{ intros cx k Hk0 [Hl _]. unfold edgeMargin in Hl. apply IZR_le in Hk0.
  assert (Hq : 0 <= (cx - left rect) / (width rect / 48)) by lra.
  apply Rmult_le_compat_r with (r := width rect / 48) in Hq; [|lra].
  unfold Rdiv at 2 in Hq. rewrite Rmult_assoc, Rinv_l in Hq by lra. lra. }
split; [|split].
- intros cx k [Hk0 Hk47] Hin.
  rewrite (keyboard_getFrequencyFromX_interpolate _ Hk Hw)
    by (apply (Hx cx k); assumption).
  destruct (@interpolate_inside keyboardKey keyboardKey_le keyboardKey_pos
              k _ Hk0 Hin (keyboardKey_lt Hk0)) as [E Hb].
  assert (Hrange : 110 <= interpolate keyboardKey
                             ((cx - left rect) / (width rect / 48)) <= 1760).
  { apply keyboard_interpolate_range. destruct Hin as [Hl Hh].
    unfold edgeMargin in *. apply IZR_le in Hk0, Hk47. lra. }
  replace (Keyboard.START_NOTE + IZR k + 1)
    with (Keyboard.START_NOTE + (IZR k + 1)) by ring.
  split; [|split; [exact Hb | exact Hrange]].
  assert (E' : interpolate keyboardKey ((cx - left rect) / (width rect / 48))
               = interpolation
                   (Keyboard.getFrequency (Keyboard.START_NOTE + IZR k))
                   (Keyboard.getFrequency
                      (Keyboard.START_NOTE + (IZR k + 1)))
                   ((cx - left rect) / (width rect / 48) - IZR k))
    by exact E.
  rewrite <- E'. apply within_refl. lra.
- intros cx1 cx2 k1 k2 H12 H47 I1 I2.
  rewrite !(keyboard_getFrequencyFromX_interpolate _ Hk Hw)
    by (first [apply (Hx cx1 k1) | apply (Hx cx2 k2)];
        first [lia | assumption]).
  apply (@interpolate_keys_lt keyboardKey keyboardKey_le keyboardKey_pos
           k1 k2); try assumption; apply keyboardKey_lt; lia.
- intros s0 cx Hn. unfold Keyboard.getFrequencyFromX. rewrite Hn.
  rewrite <- keyboardKey_0. unfold keyboardKey. f_equal. lra.
Qed.

Lemma keyboard_pitch_map_witness :
  let rect := {| left := 0; top := 0; width := 1920; height := 1080 |} in
  let s := Keyboard.init (Some rect) in
  (Keyboard.keyboardRef s = Some rect /\ 1 <= width rect)
  /\ (forall (cx : R) (k : Z),
         (0 <= k <= 47)%Z ->
         insideKey k ((cx - left rect) / (width rect / 48)) ->
         within (Keyboard.getFrequencyFromX s cx)
           (interpolation
              (Keyboard.getFrequency (Keyboard.START_NOTE + IZR k))
              (Keyboard.getFrequency (Keyboard.START_NOTE + IZR k + 1))
              ((cx - left rect) / (width rect / 48) - IZR k))
         /\ Keyboard.getFrequency (Keyboard.START_NOTE + IZR k)
            < Keyboard.getFrequencyFromX s cx
            < Keyboard.getFrequency (Keyboard.START_NOTE + IZR k + 1)
         /\ 110 <= Keyboard.getFrequencyFromX s cx <= 1760)
  /\ (forall (cx1 cx2 : R) (k1 k2 : Z),
         (0 <= k1 < k2)%Z -> (k2 <= 47)%Z ->
         insideKey k1 ((cx1 - left rect) / (width rect / 48)) ->
         insideKey k2 ((cx2 - left rect) / (width rect / 48)) ->
         Keyboard.getFrequencyFromX s cx1 < Keyboard.getFrequencyFromX s cx2)
  /\ (forall (s0 : Keyboard.State) (cx : R),
         Keyboard.keyboardRef s0 = None ->
         Keyboard.getFrequencyFromX s0 cx = 110).
Proof.
intros rect s.
assert (Hk : Keyboard.keyboardRef s = Some rect) by reflexivity.
assert (Hw : 1 <= width rect) by (simpl; lra).
split; [split; assumption|].
exact (@keyboard_pitch_map s rect Hk Hw).
Defined.

End KeyboardPitch.

(** ** KeyboardContinuum: one tone *)

Section KeyboardTone.

Import Continuum.

Ltac run_tone :=
  cbv beta iota zeta delta
    [Keyboard.startTone Keyboard.stopTone Keyboard.handleMouseMove
     Keyboard.cleanup Keyboard.initAudioContext Keyboard.resumed
     Keyboard.withAudio Keyboard.withFlags Keyboard.withCursor
     Keyboard.mounted Keyboard.isReady Keyboard.isPlaying
     Keyboard.cursorX Keyboard.cursorY Keyboard.keyboardRef
     Keyboard.audioContextRef Keyboard.resumePending
     Keyboard.oscillatorRef Keyboard.gainRef
     createOscillator createGain setType scheduleFrequency scheduleGain
     gainCancelScheduledValues connectOscillator connectDestination
     start stop disconnectOscillator disconnectGain
     onOscillator onGain perform withState newAudioContext option_map
     state currentTime oscillators gains calls] in *.

Ltac run_nodes :=
  rewrite ?alter_alter, ?alter_last, ?alter_alter, ?alter_last;
  cbv beta iota delta
    [osc_type frequency started stopAt osc_output gain toDestination].

(** What [startTone] does to a ready, silent keyboard. *)
Lemma startTone_creates (cx : R) (s : Keyboard.State) (c : AudioContext) :
  Keyboard.isReady s = true -> Keyboard.audioContextRef s = Some c ->
  Keyboard.oscillatorRef s = None ->
  exists c',
    Keyboard.startTone cx s
    = Keyboard.withFlags (Keyboard.mounted s) true true
        (Keyboard.withAudio (Some c') (Keyboard.resumePending s)
           (Some (List.length (oscillators c)))
           (Some (List.length (gains c))) s)
    /\ state c' = state c
    /\ oscillators c'
       = oscillators c ++
         [{| osc_type := sine;
             frequency :=
               [setValueAtTime (Keyboard.getFrequencyFromX s cx)
                  (currentTime c)];
             started := true; stopAt := None;
             osc_output := Some (List.length (gains c)) |}]
    /\ gains c'
       = gains c ++
         [{| gain := [setValueAtTime 0 (currentTime c);
                      linearRampToValueAtTime 0.15 (currentTime c + 0.1)];
             toDestination := true |}].
Proof.
intros Hr Hc Ho.
set (f := Keyboard.getFrequencyFromX s cx).
destruct s as [m r p x y k a pend o g]. destruct c as [st t os gs cs].
cbn [Keyboard.isReady Keyboard.audioContextRef Keyboard.oscillatorRef] in *.
subst r a o. run_tone. fold f.
eexists. split; [reflexivity|]. cbn [state oscillators gains].
run_nodes. repeat split.
Qed.

(** What [stopTone] does to a sounding keyboard. *)
Lemma stopTone_releases (s : Keyboard.State) (c : AudioContext) (o g : nat) :
  Keyboard.oscillatorRef s = Some o -> Keyboard.gainRef s = Some g ->
  Keyboard.audioContextRef s = Some c ->
  exists c',
    Keyboard.stopTone s
    = Keyboard.withFlags (Keyboard.mounted s) (Keyboard.isReady s) false
        (Keyboard.withAudio (Some c') (Keyboard.resumePending s)
           None None s)
    /\ state c' = state c
    /\ oscillators c'
       = alter (fun n => {| osc_type := osc_type n; frequency := frequency n;
                            started := started n;
                            stopAt := Some (currentTime c + 0.2);
                            osc_output := None |}) o (oscillators c)
    /\ gains c'
       = alter (fun n => {| gain := cancelScheduledValues (currentTime c)
                                      (gain n)
                                    ++ [linearRampToValueAtTime 0
                                          (currentTime c + 0.15)];
                            toDestination := false |}) g (gains c).
Proof.
intros Ho Hg Hc.
destruct s as [m r p x y k a pend o0 g0]. destruct c as [st t os gs cs].
cbn [Keyboard.audioContextRef Keyboard.oscillatorRef Keyboard.gainRef] in *.
subst a o0 g0. run_tone.
eexists. split; [reflexivity|]. cbn [state oscillators gains].
run_nodes. repeat split.
Qed.

Lemma stopTone_idle (s : Keyboard.State) :
  Keyboard.oscillatorRef s = None -> Keyboard.stopTone s = s.
Proof. intros H. unfold Keyboard.stopTone. now rewrite H. Qed.

(** What [handleMouseMove] does to a sounding keyboard. *)
Lemma handleMouseMove_ramps (cx cy : R) (s : Keyboard.State)
      (c : AudioContext) (o g : nat) (rect : DOMRect) :
  Keyboard.oscillatorRef s = Some o -> Keyboard.gainRef s = Some g ->
  Keyboard.keyboardRef s = Some rect ->
  Keyboard.audioContextRef s = Some c ->
  exists c',
    Keyboard.handleMouseMove cx cy s
    = Keyboard.withAudio (Some c') (Keyboard.resumePending s)
        (Some o) (Some g) (Keyboard.withCursor cx cy s)
    /\ state c' = state c
    /\ oscillators c'
       = alter (fun n => {| osc_type := osc_type n;
                            frequency :=
                              frequency n ++
                              [exponentialRampToValueAtTime
                                 (Keyboard.getFrequencyFromX s cx)
                                 (currentTime c + 0.02)];
                            started := started n; stopAt := stopAt n;
                            osc_output := osc_output n |}) o (oscillators c)
    /\ gains c'
       = alter (fun n => {| gain := gain n ++
                                    [linearRampToValueAtTime
                                       (Keyboard.volumeAt rect cy)
                                       (currentTime c + 0.01)];
                            toDestination := toDestination n |}) g (gains c).
Proof.
intros Ho Hg Hk Hc.
set (f := Keyboard.getFrequencyFromX s cx).
destruct s as [m r p x y k a pend o0 g0]. destruct c as [st t os gs cs].
cbn [Keyboard.audioContextRef Keyboard.oscillatorRef Keyboard.gainRef
     Keyboard.keyboardRef] in *.
subst a o0 g0 k. run_tone. fold f.
eexists. split; [reflexivity|]. cbn [state oscillators gains].
repeat split.
Qed.

Lemma handleMouseMove_idle (cx cy : R) (s : Keyboard.State) :
  Keyboard.oscillatorRef s = None -> Keyboard.handleMouseMove cx cy s = s.
Proof. intros H. unfold Keyboard.handleMouseMove. now rewrite H. Qed.

Lemma oneTone_init (keyboard : option DOMRect) :
  oneTone (Keyboard.init keyboard).
Proof.
constructor; cbn; try tauto; try discriminate.
- split; [discriminate | intros H; now elim H].
Qed.

Lemma oneTone_startTone (cx : R) (s : Keyboard.State) :
  oneTone s -> oneTone (Keyboard.startTone cx s).
Proof.
intros T.
destruct (Keyboard.isReady s) eqn:Hr;
  [|unfold Keyboard.startTone; now rewrite Hr].
destruct (Keyboard.audioContextRef s) as [c|] eqn:Hc;
  [|now elim (oneTone_context T Hr)].
destruct (Keyboard.oscillatorRef s) as [o|] eqn:Ho;
  [unfold Keyboard.startTone; now rewrite Hr, Hc, Ho|].
destruct (@startTone_creates cx s c Hr Hc Ho) as (c' & -> & Hst & Hos & Hgs).
constructor; cbn [Keyboard.withFlags Keyboard.withAudio
                  Keyboard.oscillatorRef Keyboard.gainRef Keyboard.isPlaying
                  Keyboard.isReady Keyboard.audioContextRef Keyboard.mounted].
- split; discriminate.
- split; [discriminate | reflexivity].
- discriminate.
- discriminate.
- intros c0 o n [= <-] Hn Hout. rewrite Hos in Hn.
  destruct (Nat.lt_ge_cases o (List.length (oscillators c))) as [Hlt|Hge].
  + rewrite nth_error_before in Hn by exact Hlt.
    pose proof (oneTone_others T _ Hc Hn Hout) as E. congruence.
  + destruct (Nat.eq_dec o (List.length (oscillators c))) as [->|N];
      [reflexivity|].
    assert (Hnone : nth_error
                      (oscillators c ++
                       [{| osc_type := sine;
                           frequency :=
                             [setValueAtTime (Keyboard.getFrequencyFromX s cx)
                                (currentTime c)];
                           started := true; stopAt := None;
                           osc_output := Some (List.length (gains c)) |}]) o
                    = None).
    { apply nth_error_None. rewrite length_app. cbn [List.length]. lia. }
    congruence.
- intros o g _ [= <-] [= <-]. exists c'. eexists. eexists.
  split; [reflexivity|]. rewrite Hos, Hgs, !nth_error_last.
  repeat split.
Qed.

Lemma oneTone_stopTone (s : Keyboard.State) :
  oneTone s -> oneTone (Keyboard.stopTone s).
Proof.
intros T.
destruct (Keyboard.oscillatorRef s) as [o|] eqn:Ho;
  [|now rewrite stopTone_idle].
destruct (Keyboard.gainRef s) as [g|] eqn:Hg;
  [|apply (oneTone_pair T) in Hg; congruence].
assert (Hr : Keyboard.isReady s = true).
{ destruct (Keyboard.isReady s) eqn:E; [reflexivity|].
  pose proof (oneTone_ready T E). congruence. }
destruct (Keyboard.audioContextRef s) as [c|] eqn:Hc;
  [|now elim (oneTone_context T Hr)].
destruct (@stopTone_releases s c o g Ho Hg Hc) as (c' & -> & Hst & Hos & Hgs).
constructor; cbn [Keyboard.withFlags Keyboard.withAudio
                  Keyboard.oscillatorRef Keyboard.gainRef Keyboard.isPlaying
                  Keyboard.isReady Keyboard.audioContextRef Keyboard.mounted].
- tauto.
- split; [discriminate | intros H; now elim H].
- reflexivity.
- discriminate.
- intros c0 o1 n [= <-] Hn Hout. exfalso. rewrite Hos in Hn.
  destruct (Nat.eq_dec o o1) as [<-|N].
  + rewrite alter_nth_same in Hn.
    destruct (nth_error (oscillators c) o); [|discriminate].
    cbn [option_map] in Hn. injection Hn as <-. now apply Hout.
  + rewrite alter_nth_other in Hn by exact N.
    pose proof (oneTone_others T _ Hc Hn Hout) as E. congruence.
- discriminate.
Qed.

Lemma oneTone_handleMouseMove (cx cy : R) (s : Keyboard.State) :
  oneTone s -> oneTone (Keyboard.handleMouseMove cx cy s).
Proof.
intros T.
destruct (Keyboard.oscillatorRef s) as [o|] eqn:Ho;
  [|now rewrite handleMouseMove_idle].
destruct (Keyboard.gainRef s) as [g|] eqn:Hg;
  [|apply (oneTone_pair T) in Hg; congruence].
destruct (Keyboard.keyboardRef s) as [rect|] eqn:Hk;
  [|unfold Keyboard.handleMouseMove; now rewrite Ho, Hg, Hk].
assert (Hr : Keyboard.isReady s = true).
{ destruct (Keyboard.isReady s) eqn:E; [reflexivity|].
  pose proof (oneTone_ready T E). congruence. }
destruct (Keyboard.audioContextRef s) as [c|] eqn:Hc;
  [|now elim (oneTone_context T Hr)].
destruct (@handleMouseMove_ramps cx cy s c o g rect Ho Hg Hk Hc)
  as (c' & -> & Hst & Hos & Hgs).
constructor; cbn [Keyboard.withFlags Keyboard.withAudio Keyboard.withCursor
                  Keyboard.oscillatorRef Keyboard.gainRef Keyboard.isPlaying
                  Keyboard.isReady Keyboard.audioContextRef Keyboard.mounted].
- split; discriminate.
- rewrite (oneTone_playing T), Ho. split; discriminate.
- rewrite Hr. discriminate.
- discriminate.
- intros c0 o1 n [= <-] Hn Hout. rewrite Hos in Hn.
  destruct (Nat.eq_dec o o1) as [<-|N]; [reflexivity|].
  rewrite alter_nth_other in Hn by exact N.
  pose proof (oneTone_others T _ Hc Hn Hout) as E. congruence.
- intros o1 g1 Hm [= <-] [= <-].
  destruct (oneTone_sounds T Hm Ho Hg)
    as (c0 & n & m0 & Hc0 & Hn & Hs & Hout & Hm0 & Hd).
  rewrite Hc in Hc0. injection Hc0 as <-.
  exists c'. eexists. eexists. split; [reflexivity|].
  rewrite Hos, Hgs, !alter_nth_same, Hn, Hm0. cbn [option_map].
  repeat split; assumption.
Qed.

Lemma oneTone_silent (s : Keyboard.State) :
  oneTone s -> Keyboard.audioContextRef s = None ->
  Keyboard.oscillatorRef s = None /\ Keyboard.gainRef s = None.
Proof.
intros T Hc.
assert (Ho : Keyboard.oscillatorRef s = None).
{ destruct (Keyboard.isReady s) eqn:E;
    [now elim (oneTone_context T E) | exact (oneTone_ready T E)]. }
split; [exact Ho | now apply (oneTone_pair T)].
Qed.

Lemma oneTone_initAudioContext (autoplay : bool) (s : Keyboard.State) :
  oneTone s -> oneTone (Keyboard.initAudioContext autoplay s).
Proof.
intros T. unfold Keyboard.initAudioContext.
destruct (Keyboard.audioContextRef s) as [c|] eqn:Hc.
- destruct (state c);
    constructor;
    cbn [Keyboard.withFlags Keyboard.withAudio
         Keyboard.oscillatorRef Keyboard.gainRef Keyboard.isPlaying
         Keyboard.isReady Keyboard.audioContextRef Keyboard.mounted];
    try exact (oneTone_pair T); try exact (oneTone_playing T);
    try exact (oneTone_ready T); try discriminate;
    try (intros c0 o n [= <-]; exact (oneTone_others T o Hc));
    try (intros o g Hm Ho Hg; rewrite <- Hc;
         exact (oneTone_sounds T Hm Ho Hg)).
- destruct (oneTone_silent T Hc) as [Ho Hg].
  destruct autoplay; cbn [newAudioContext state];
    constructor;
    cbn [Keyboard.withFlags Keyboard.withAudio
         Keyboard.oscillatorRef Keyboard.gainRef Keyboard.isPlaying
         Keyboard.isReady Keyboard.audioContextRef Keyboard.mounted];
    try exact (oneTone_pair T); try exact (oneTone_playing T);
    try exact (oneTone_ready T); try discriminate;
    try (intros _; exact Ho);
    try (intros c0 o n [= <-]; cbn [oscillators]; now destruct o);
    try (intros o g _ Ho'; congruence).
Qed.

Lemma oneTone_resumed (s : Keyboard.State) :
  oneTone s -> oneTone (Keyboard.resumed s).
Proof.
intros T. unfold Keyboard.resumed.
destruct (Keyboard.resumePending s); [|exact T].
destruct (Keyboard.audioContextRef s) as [c|] eqn:Hc; [|exact T].
constructor;
  cbn [Keyboard.withFlags Keyboard.withAudio
       Keyboard.oscillatorRef Keyboard.gainRef Keyboard.isPlaying
       Keyboard.isReady Keyboard.audioContextRef Keyboard.mounted];
  try exact (oneTone_pair T); try exact (oneTone_playing T);
  try discriminate.
- intros c0 o n [= <-]. cbn [withState oscillators].
  exact (oneTone_others T o Hc).
- intros o g Hm Ho Hg.
  destruct (oneTone_sounds T Hm Ho Hg)
    as (c0 & n & m0 & Hc0 & Hn & Hs & Hout & Hm0 & Hd).
  rewrite Hc in Hc0. injection Hc0 as <-.
  exists (withState running c), n, m0. repeat split; assumption.
Qed.

(** What the cleanup does to the nodes: the oscillator in the ref cell is
    told to stop and disconnected, and the context is closed. *)
Lemma cleanup_nodes (s : Keyboard.State) (c : AudioContext) :
  Keyboard.audioContextRef s = Some c ->
  exists c',
    Keyboard.audioContextRef (Keyboard.cleanup s) = Some c'
    /\ state c' = closed
    /\ oscillators c'
       = match Keyboard.oscillatorRef s with
         | Some o =>
             alter (fun n => {| osc_type := osc_type n;
                                frequency := frequency n;
                                started := started n; stopAt := Some 0;
                                osc_output := None |}) o (oscillators c)
         | None => oscillators c
         end.
Proof.
intros Hc. unfold Keyboard.cleanup.
cbn [Keyboard.withFlags Keyboard.withAudio Keyboard.audioContextRef].
rewrite Hc. destruct c as [st t os gs cs].
destruct (Keyboard.oscillatorRef s) as [o|],
         (Keyboard.gainRef s) as [g|];
  cbn [option_map]; eexists; (split; [reflexivity|]);
  cbv beta iota zeta delta
    [stop disconnectOscillator disconnectGain onOscillator onGain
     perform withState state currentTime oscillators gains calls];
  rewrite ?alter_alter; split; reflexivity.
Qed.

Lemma oneTone_cleanup (s : Keyboard.State) :
  oneTone s -> oneTone (Keyboard.cleanup s).
Proof.
intros T. unfold Keyboard.cleanup.
constructor;
  cbn [Keyboard.withFlags Keyboard.withAudio
       Keyboard.oscillatorRef Keyboard.gainRef Keyboard.isPlaying
       Keyboard.isReady Keyboard.audioContextRef Keyboard.mounted];
  try exact (oneTone_pair T); try exact (oneTone_playing T);
  try exact (oneTone_ready T); try discriminate.
- intros Hr. pose proof (oneTone_context T Hr) as N.
  destruct (Keyboard.audioContextRef s) as [c|]; [|now elim N].
  destruct (Keyboard.oscillatorRef s), (Keyboard.gainRef s); discriminate.
- intros c0 o1 n Hc0 Hn Hout.
  destruct (Keyboard.audioContextRef s) as [c|] eqn:Hc.
  2:{ destruct (Keyboard.oscillatorRef s), (Keyboard.gainRef s);
        discriminate. }
  destruct (@cleanup_nodes s c Hc) as (c' & Hc' & _ & Hos).
  unfold Keyboard.cleanup in Hc'.
  cbn [Keyboard.withFlags Keyboard.withAudio Keyboard.audioContextRef]
    in Hc'.
  rewrite Hc, Hc0 in Hc'. injection Hc' as <-. rewrite Hos in Hn.
  destruct (Keyboard.oscillatorRef s) as [o|] eqn:Ho.
  + destruct (Nat.eq_dec o o1) as [<-|N]; [reflexivity|].
    rewrite alter_nth_other in Hn by exact N.
    pose proof (oneTone_others T _ Hc Hn Hout) as E. congruence.
  + rewrite <- Ho. exact (oneTone_others T _ Hc Hn Hout).
Qed.

Lemma oneTone_step (e : Keyboard.Event) (s : Keyboard.State) :
  oneTone s -> oneTone (Keyboard.step e s).
Proof.
intros T. unfold Keyboard.step. destruct (Keyboard.mounted s); [|exact T].
destruct e;
  [ now apply oneTone_initAudioContext | now apply oneTone_resumed
  | now apply oneTone_startTone | now apply oneTone_handleMouseMove
  | now apply oneTone_stopTone | now apply oneTone_cleanup ].
Qed.

Lemma reachable_oneTone (keyboard : option DOMRect) (s : Keyboard.State) :
  Keyboard.reachable keyboard s -> oneTone s.
Proof. induction 1; [apply oneTone_init | now apply oneTone_step]. Qed.

End KeyboardTone.

Section KeyboardTheorems.

Import Continuum.

(** X21.  On a ready, silent keyboard [startTone] creates one oscillator,
    live at the pitch under the pointer with its gain heading to 0.15, and
    sets [isPlaying]; a further [startTone] changes nothing, wherever the
    pointer is; [stopTone] empties both ref cells, clears [isPlaying] and
    disconnects the oscillator at once, and a further [stopTone] changes
    nothing. *)
Theorem tone_lifecycle (cx cx' : R) (s : Keyboard.State) (c : AudioContext) :
  Keyboard.isReady s = true -> Keyboard.audioContextRef s = Some c ->
  Keyboard.oscillatorRef s = None ->
  let osc := List.length (oscillators c) in
  let s1 := Keyboard.startTone cx s in
  let s2 := Keyboard.stopTone s1 in
  (Keyboard.oscillatorRef s1 = Some osc
   /\ Keyboard.gainRef s1 = Some (List.length (gains c))
   /\ Keyboard.isPlaying s1 = true
   /\ tone s1 = Some (Some (Keyboard.getFrequencyFromX s cx), Some 0.15)
   /\ option_map (fun c1 => live c1 osc) (Keyboard.audioContextRef s1)
      = Some true)
  /\ Keyboard.startTone cx' s1 = s1
  /\ (Keyboard.oscillatorRef s2 = None /\ Keyboard.gainRef s2 = None
      /\ Keyboard.isPlaying s2 = false
      /\ option_map (fun c2 => live c2 osc) (Keyboard.audioContextRef s2)
         = Some false
      /\ option_map (fun c2 => List.length (oscillators c2))
           (Keyboard.audioContextRef s2) = Some (S osc))
  /\ Keyboard.stopTone s2 = s2.
Proof.
intros Hr Hc Ho osc s1 s2.
destruct (@startTone_creates cx s c Hr Hc Ho) as (c1 & E1 & Hst & Hos & Hgs).
fold s1 in E1.
assert (Ho1 : Keyboard.oscillatorRef s1 = Some osc) by now rewrite E1.
assert (Hg1 : Keyboard.gainRef s1 = Some (List.length (gains c)))
  by now rewrite E1.
assert (Hc1 : Keyboard.audioContextRef s1 = Some c1) by now rewrite E1.
assert (Hr1 : Keyboard.isReady s1 = true) by now rewrite E1.
assert (Hl1 : live c1 osc = true).
{ unfold live. rewrite Hos, Hgs. unfold osc. rewrite nth_error_last.
  cbn [started osc_output andb]. now rewrite nth_error_last. }
destruct (@stopTone_releases s1 c1 osc _ Ho1 Hg1 Hc1)
  as (c2 & E2 & Hst2 & Hos2 & Hgs2).
fold s2 in E2.
assert (Ho2 : Keyboard.oscillatorRef s2 = None) by now rewrite E2.
split; [|split; [|split]].
- split; [exact Ho1|]. split; [exact Hg1|]. split; [now rewrite E1|].
  split; [|now rewrite Hc1; cbn [option_map]; rewrite Hl1].
  unfold tone. rewrite Ho1, Hg1, Hc1, Hos, Hgs. unfold osc.
  rewrite !nth_error_last. reflexivity.
- unfold Keyboard.startTone. now rewrite Hr1, Hc1, Ho1.
- split; [exact Ho2|]. split; [now rewrite E2|]. split; [now rewrite E2|].
  assert (Hc2 : Keyboard.audioContextRef s2 = Some c2) by now rewrite E2.
  rewrite Hc2. cbn [option_map]. split.
  + f_equal. unfold live. rewrite Hos2, alter_nth_same, Hos. unfold osc.
    rewrite nth_error_last. cbn [option_map started osc_output].
    apply andb_false_r.
  + f_equal. rewrite Hos2, alter_length, Hos, length_app. cbn [List.length].
    unfold osc. lia.
- now apply stopTone_idle.
Qed.

Lemma tone_lifecycle_witness :
  let rect := {| left := 0; top := 0; width := 1920; height := 1080 |} in
  let s := Keyboard.step (Keyboard.Click true) (Keyboard.init (Some rect)) in
  let c := newAudioContext running in
  let s1 := Keyboard.startTone 960 s in
  let s2 := Keyboard.stopTone s1 in
  (Keyboard.isReady s = true /\ Keyboard.audioContextRef s = Some c
   /\ Keyboard.oscillatorRef s = None)
  /\ (Keyboard.oscillatorRef s1 = Some 0%nat
      /\ Keyboard.gainRef s1 = Some 0%nat
      /\ Keyboard.isPlaying s1 = true
      /\ tone s1 = Some (Some (Keyboard.getFrequencyFromX s 960), Some 0.15)
      /\ option_map (fun c1 => live c1 0) (Keyboard.audioContextRef s1)
         = Some true)
  /\ Keyboard.startTone 100 s1 = s1
  /\ (Keyboard.oscillatorRef s2 = None /\ Keyboard.gainRef s2 = None
      /\ Keyboard.isPlaying s2 = false
      /\ option_map (fun c2 => live c2 0) (Keyboard.audioContextRef s2)
         = Some false
      /\ option_map (fun c2 => List.length (oscillators c2))
           (Keyboard.audioContextRef s2) = Some 1%nat)
  /\ Keyboard.stopTone s2 = s2.
Proof.
intros rect s c s1 s2.
assert (Hr : Keyboard.isReady s = true) by reflexivity.
assert (Hc : Keyboard.audioContextRef s = Some c) by reflexivity.
assert (Ho : Keyboard.oscillatorRef s = None) by reflexivity.
split; [repeat split|].
exact (@tone_lifecycle 960 100 s c Hr Hc Ho).
Defined.

Lemma volumeAt_range (rect : DOMRect) (cy : R) :
  0 <= Keyboard.volumeAt rect cy <= 0.25.
Proof.
unfold Keyboard.volumeAt. cbv zeta.
pose proof (clamp01_range ((cy - top rect) / height rect)). lra.
Qed.

(** X22.  While the keyboard is mounted and sounds, [handleMouseMove]
    retargets the tone to the pitch under the pointer and to the volume of
    the pointer's height, and records the pointer position; it keeps the
    ref cells and creates no node.  The volume lies between 0 and 0.25: it
    is 0.25 at and above the top edge, 0 at and below the bottom edge, and
    falls linearly in between. *)
Theorem keyboard_move (keyboard : option DOMRect) (s : Keyboard.State)
        (rect : DOMRect) (o : nat) (cx cy : R) :
  Keyboard.reachable keyboard s -> Keyboard.mounted s = true ->
  Keyboard.oscillatorRef s = Some o -> Keyboard.keyboardRef s = Some rect ->
  0 < height rect ->
  let s1 := Keyboard.step (Keyboard.MouseMove cx cy) s in
  tone s1
  = Some (Some (Keyboard.getFrequencyFromX s cx),
          Some (Keyboard.volumeAt rect cy))
  /\ Keyboard.cursorX s1 = cx /\ Keyboard.cursorY s1 = cy
  /\ Keyboard.oscillatorRef s1 = Some o
  /\ Keyboard.gainRef s1 = Keyboard.gainRef s
  /\ option_map (fun c => List.length (oscillators c))
       (Keyboard.audioContextRef s1)
     = option_map (fun c => List.length (oscillators c))
         (Keyboard.audioContextRef s)
  /\ 0 <= Keyboard.volumeAt rect cy <= 0.25
  /\ (cy <= top rect -> Keyboard.volumeAt rect cy = 0.25)
  /\ (top rect + height rect <= cy -> Keyboard.volumeAt rect cy = 0)
  /\ (top rect <= cy <= top rect + height rect ->
      Keyboard.volumeAt rect cy
      = (1 - (cy - top rect) / height rect) * 0.25).
Proof.
intros Hreach Hm Ho Hk Hh s1.
pose proof (reachable_oneTone Hreach) as T.
destruct (Keyboard.gainRef s) as [g|] eqn:Hg;
  [|apply (oneTone_pair T) in Hg; congruence].
destruct (oneTone_sounds T Hm Ho Hg)
  as (c & n & m0 & Hc & Hn & Hs & Hout & Hm0 & Hd).
destruct (@handleMouseMove_ramps cx cy s c o g rect Ho Hg Hk Hc)
  as (c' & E & Hst & Hos & Hgs).
assert (E1 : s1 = Keyboard.handleMouseMove cx cy s)
  by (unfold s1, Keyboard.step; now rewrite Hm).
rewrite E in E1.
assert (Hrel : forall y, (y - top rect) / height rect * height rect
                         = y - top rect).
{ intros y0. unfold Rdiv. rewrite Rmult_assoc, Rinv_l by lra. lra. }
split; [|split; [|split; [|split; [|split; [|split; [|split;
  [|split; [|split]]]]]]]].
- rewrite E1. unfold tone.
  cbn [Keyboard.withAudio Keyboard.oscillatorRef Keyboard.gainRef
       Keyboard.audioContextRef].
  rewrite Hos, Hgs, !alter_nth_same, Hn, Hm0. cbn [option_map frequency gain].
  now rewrite !target_last.
- now rewrite E1.
- now rewrite E1.
- now rewrite E1.
- now rewrite E1.
- rewrite E1, Hc.
  cbn [Keyboard.withAudio Keyboard.audioContextRef option_map].
  now rewrite Hos, alter_length.
- apply volumeAt_range.
- intros Hy. unfold Keyboard.volumeAt, Math_min, Math_max. cbv zeta.
  assert (Hq : (cy - top rect) / height rect <= 0).
  { apply Rmult_le_reg_r with (height rect); [assumption|].
    rewrite Hrel. lra. }
  rewrite Rmax_right by exact Hq. rewrite Rmin_left by lra. lra.
- intros Hy. unfold Keyboard.volumeAt, Math_min, Math_max. cbv zeta.
  assert (Hq : 1 <= (cy - top rect) / height rect).
  { apply Rmult_le_reg_r with (height rect); [assumption|].
    rewrite Hrel. lra. }
  rewrite Rmax_left by lra. rewrite Rmin_right by exact Hq. lra.
- intros [Hy0 Hy1]. unfold Keyboard.volumeAt, Math_min, Math_max. cbv zeta.
  assert (Hq : 0 <= (cy - top rect) / height rect <= 1).
  { split; apply Rmult_le_reg_r with (height rect); try assumption;
      rewrite Hrel; lra. }
  rewrite Rmax_left by lra. rewrite Rmin_left by lra. reflexivity.
Qed.

Lemma keyboard_move_witness :
  let rect := {| left := 0; top := 0; width := 1920; height := 1080 |} in
  let s := Keyboard.step (Keyboard.MouseEnter 960)
             (Keyboard.step (Keyboard.Click true)
                (Keyboard.init (Some rect))) in
  let s1 := Keyboard.step (Keyboard.MouseMove 480 540) s in
  (Keyboard.reachable (Some rect) s /\ Keyboard.mounted s = true
   /\ Keyboard.oscillatorRef s = Some 0%nat
   /\ Keyboard.keyboardRef s = Some rect /\ 0 < height rect)
  /\ tone s1
     = Some (Some (Keyboard.getFrequencyFromX s 480),
             Some (Keyboard.volumeAt rect 540))
  /\ Keyboard.cursorX s1 = 480 /\ Keyboard.cursorY s1 = 540
  /\ Keyboard.oscillatorRef s1 = Some 0%nat
  /\ Keyboard.gainRef s1 = Keyboard.gainRef s
  /\ option_map (fun c => List.length (oscillators c))
       (Keyboard.audioContextRef s1)
     = option_map (fun c => List.length (oscillators c))
         (Keyboard.audioContextRef s)
  /\ 0 <= Keyboard.volumeAt rect 540 <= 0.25
  /\ (540 <= top rect -> Keyboard.volumeAt rect 540 = 0.25)
  /\ (top rect + height rect <= 540 -> Keyboard.volumeAt rect 540 = 0)
  /\ (top rect <= 540 <= top rect + height rect ->
      Keyboard.volumeAt rect 540
      = (1 - (540 - top rect) / height rect) * 0.25).
Proof.
intros rect s s1.
assert (Hreach : Keyboard.reachable (Some rect) s)
  by (unfold s; repeat constructor).
assert (Hm : Keyboard.mounted s = true) by reflexivity.
assert (Ho : Keyboard.oscillatorRef s = Some 0%nat) by reflexivity.
assert (Hk : Keyboard.keyboardRef s = Some rect) by reflexivity.
assert (Hh : 0 < height rect) by (simpl; lra).
split; [repeat split; assumption|].
exact (@keyboard_move (Some rect) s rect 0%nat 480 540 Hreach Hm Ho Hk Hh).
Defined.

(** X23.  In every reachable state of KeyboardContinuum, [isPlaying] holds
    exactly when the oscillator ref cell is filled, every live oscillator
    is the one in that cell, so at most one oscillator is live, and while
    the component is mounted the oscillator in the cell is live. *)
Theorem one_tone (keyboard : option DOMRect) (s : Keyboard.State) :
  Keyboard.reachable keyboard s ->
  (Keyboard.isPlaying s = true <-> Keyboard.oscillatorRef s <> None)
  /\ (forall c o, Keyboard.audioContextRef s = Some c ->
        live c o = true -> Keyboard.oscillatorRef s = Some o)
  /\ (forall c, Keyboard.audioContextRef s = Some c ->
        (List.length (liveOscillators c) <= 1)%nat)
  /\ (forall c o, Keyboard.mounted s = true ->
        Keyboard.audioContextRef s = Some c ->
        Keyboard.oscillatorRef s = Some o -> live c o = true).
Proof.
intros Hreach. pose proof (reachable_oneTone Hreach) as T.
assert (Hlive : forall c o, Keyboard.audioContextRef s = Some c ->
          live c o = true -> Keyboard.oscillatorRef s = Some o).
{ intros c o Hc Hl. apply live_true in Hl as (n & g & m0 & Hn & _ & Hout & _).
  apply (oneTone_others T o Hc Hn). congruence. }
split; [exact (oneTone_playing T)|]. split; [exact Hlive|]. split.
- intros c Hc. pose proof (liveOscillators_NoDup c) as Hnd.
  assert (Hall : forall o, In o (liveOscillators c) ->
            Keyboard.oscillatorRef s = Some o).
  { intros o Hin. apply (Hlive c o Hc), liveOscillators_live, Hin. }
  destruct (liveOscillators c) as [|a [|b l]]; cbn [List.length]; try lia.
  exfalso. inversion Hnd as [|? ? Hna _]; subst. apply Hna. left.
  pose proof (Hall a (or_introl eq_refl)) as Ea.
  pose proof (Hall b (or_intror (or_introl eq_refl))) as Eb. congruence.
- intros c o Hm Hc Ho.
  destruct (Keyboard.gainRef s) as [g|] eqn:Hg;
    [|apply (oneTone_pair T) in Hg; congruence].
  destruct (oneTone_sounds T Hm Ho Hg)
    as (c0 & n & m0 & Hc0 & Hn & Hs & Hout & Hm0 & Hd).
  rewrite Hc in Hc0. injection Hc0 as <-.
  apply live_true. exists n, g, m0. repeat split; assumption.
Qed.

Lemma one_tone_witness :
  let rect := {| left := 0; top := 0; width := 1920; height := 1080 |} in
  let s := Keyboard.step (Keyboard.MouseEnter 960)
             (Keyboard.step (Keyboard.Click true)
                (Keyboard.init (Some rect))) in
  Keyboard.reachable (Some rect) s
  /\ (Keyboard.isPlaying s = true <-> Keyboard.oscillatorRef s <> None)
  /\ (forall c o, Keyboard.audioContextRef s = Some c ->
        live c o = true -> Keyboard.oscillatorRef s = Some o)
  /\ (forall c, Keyboard.audioContextRef s = Some c ->
        (List.length (liveOscillators c) <= 1)%nat)
  /\ (forall c o, Keyboard.mounted s = true ->
        Keyboard.audioContextRef s = Some c ->
        Keyboard.oscillatorRef s = Some o -> live c o = true).
Proof.
intros rect s.
assert (Hreach : Keyboard.reachable (Some rect) s)
  by (unfold s; repeat constructor).
split; [exact Hreach|].
exact (@one_tone (Some rect) s Hreach).
Defined.

(** X24.  The cleanup of the mounted KeyboardContinuum, from any reachable
    state, leaves the context (if there is one) closed with no oscillator
    live; it does not empty the ref cells nor clear [isPlaying]; and no
    later event changes anything. *)
Theorem keyboard_cleanup (keyboard : option DOMRect) (s : Keyboard.State) :
  Keyboard.reachable keyboard s -> Keyboard.mounted s = true ->
  let s' := Keyboard.step Keyboard.Unmount s in
  (forall c', Keyboard.audioContextRef s' = Some c' ->
     state c' = closed /\ liveOscillators c' = [])
  /\ (Keyboard.audioContextRef s' = None
      <-> Keyboard.audioContextRef s = None)
  /\ Keyboard.oscillatorRef s' = Keyboard.oscillatorRef s
  /\ Keyboard.gainRef s' = Keyboard.gainRef s
  /\ Keyboard.isPlaying s' = Keyboard.isPlaying s
  /\ (forall e, Keyboard.step e s' = s').
Proof.
intros Hreach Hm s'.
assert (E : s' = Keyboard.cleanup s)
  by (unfold s', Keyboard.step; now rewrite Hm).
pose proof (reachable_oneTone Hreach) as T.
assert (T' : oneTone s') by (rewrite E; now apply oneTone_cleanup).
split; [|split; [|split; [|split; [|split]]]].
- intros c' Hc'.
  destruct (Keyboard.audioContextRef s) as [c|] eqn:Hc.
  2:{ rewrite E in Hc'. unfold Keyboard.cleanup in Hc'.
      cbn [Keyboard.withFlags Keyboard.withAudio Keyboard.audioContextRef]
        in Hc'.
      rewrite Hc in Hc'.
      destruct (Keyboard.oscillatorRef s), (Keyboard.gainRef s);
        discriminate. }
  destruct (@cleanup_nodes s c Hc) as (c0 & Hc0 & Hst & Hos).
  rewrite <- E, Hc' in Hc0. injection Hc0 as <-.
  split; [exact Hst|].
  destruct (liveOscillators c') as [|a l] eqn:El; [reflexivity|]. exfalso.
  assert (Hl : live c' a = true).
  { apply liveOscillators_live. rewrite El. now left. }
  apply live_true in Hl as (n & g & m0 & Hn & _ & Hout & _).
  assert (Ha : Keyboard.oscillatorRef s' = Some a).
  { apply (oneTone_others T' a Hc' Hn). congruence. }
  assert (Ha0 : Keyboard.oscillatorRef s = Some a) by now rewrite E in Ha.
  rewrite Hos, Ha0, alter_nth_same in Hn.
  destruct (nth_error (oscillators c) a); [|discriminate].
  cbn [option_map] in Hn. injection Hn as <-. discriminate.
- rewrite E. unfold Keyboard.cleanup.
  cbn [Keyboard.withFlags Keyboard.withAudio Keyboard.audioContextRef].
  destruct (Keyboard.audioContextRef s),
           (Keyboard.oscillatorRef s), (Keyboard.gainRef s);
    cbn [option_map]; split; (discriminate || reflexivity).
- now rewrite E.
- now rewrite E.
- now rewrite E.
- intros e. unfold Keyboard.step.
  replace (Keyboard.mounted s') with false by now rewrite E.
  reflexivity.
Qed.

Lemma keyboard_cleanup_witness :
  let rect := {| left := 0; top := 0; width := 1920; height := 1080 |} in
  let s := Keyboard.step (Keyboard.MouseEnter 960)
             (Keyboard.step (Keyboard.Click true)
                (Keyboard.init (Some rect))) in
  let s' := Keyboard.step Keyboard.Unmount s in
  (Keyboard.reachable (Some rect) s /\ Keyboard.mounted s = true)
  /\ (forall c', Keyboard.audioContextRef s' = Some c' ->
        state c' = closed /\ liveOscillators c' = [])
  /\ (Keyboard.audioContextRef s' = None
      <-> Keyboard.audioContextRef s = None)
  /\ Keyboard.oscillatorRef s' = Keyboard.oscillatorRef s
  /\ Keyboard.gainRef s' = Keyboard.gainRef s
  /\ Keyboard.isPlaying s' = Keyboard.isPlaying s
  /\ (forall e, Keyboard.step e s' = s').
Proof.
intros rect s s'.
assert (Hreach : Keyboard.reachable (Some rect) s)
  by (unfold s; repeat constructor).
assert (Hm : Keyboard.mounted s = true) by reflexivity.
split; [split; assumption|].
exact (@keyboard_cleanup (Some rect) s Hreach Hm).
Defined.

End KeyboardTheorems.
